(** * IceBox service manager and IceUtil reference counting: a shallow embedding

    Sources embedded here:
    - [cpp/include/IceUtil/Shared.h]          (class [IceUtil::SimpleShared])
    - [cpp/src/IceBox/ServiceManagerI.cpp]    (class [IceBox::ServiceManagerI])

    The first half of the file holds the definitions, the second half the
    lemmas and theorems about them. *)

From Stdlib Require Import ZArith List String Ascii Bool Arith Lia.
From Stdlib Require Import OrdersEx RelationClasses Permutation.
Import ListNotations.

Local Open Scope string_scope.
Local Open Scope list_scope.

(* ================================================================== *)
(** * Part I: definitions                                              *)
(* ================================================================== *)

(** ** IceUtil::SimpleShared (Shared.h, lines 116-162) *)

Module Shared.

Local Open Scope Z_scope.

(** [int] is a 32-bit two's complement integer on the targets of the
    header; [++] and [--] are modelled with the wrap-around of the
    machine instruction. *)
Definition INT_MAX : Z := 2147483647.
Definition INT_MIN : Z := -2147483648.

Definition wrap_int (z : Z) : Z := (z + 2 ^ 31) mod 2 ^ 32 - 2 ^ 31.

Definition is_int (z : Z) : Prop := INT_MIN <= z <= INT_MAX.

Record SimpleShared : Type := mkSimpleShared
  { _ref : Z;
    _noDelete : bool }.

(** The constructor: [_ref(0), _noDelete(false)]. *)
Definition SimpleShared_new : SimpleShared :=
  {| _ref := 0; _noDelete := false |}.

(** What is left of the object after a member function returns:
    [delete this] ends its life. *)
Inductive object : Type :=
| Alive (s : SimpleShared)
| Deleted.

(** A member function either returns or stops at a failed [assert]. *)
Inductive exec (A : Type) : Type :=
| Done (a : A)
| AssertionFailed.
Arguments Done {A} a.
Arguments AssertionFailed {A}.

(** [void __incRef() { assert(_ref >= 0); ++_ref; }] *)
Definition __incRef (s : SimpleShared) : exec SimpleShared :=
  if 0 <=? _ref s
  then Done {| _ref := wrap_int (_ref s + 1); _noDelete := _noDelete s |}
  else AssertionFailed.

(** [void __decRef() { assert(_ref > 0);
                       if (--_ref == 0) { if(!_noDelete) { delete this; } } }] *)
Definition __decRef (s : SimpleShared) : exec object :=
  if 0 <? _ref s
  then
    let r := wrap_int (_ref s - 1) in
    let s' := {| _ref := r; _noDelete := _noDelete s |} in
    if r =? 0
    then (if negb (_noDelete s) then Done Deleted else Done (Alive s'))
    else Done (Alive s')
  else AssertionFailed.

(** [int __getRef() { return _ref; }] *)
Definition __getRef (s : SimpleShared) : Z := _ref s.

(** [void __setNoDelete(bool b) { _noDelete = b; }] *)
Definition __setNoDelete (b : bool) (s : SimpleShared) : SimpleShared :=
  {| _ref := _ref s; _noDelete := b |}.

(** [__incRef] immediately followed by [__decRef] on the same object. *)
Definition incRef_then_decRef (s : SimpleShared) : exec object :=
  match __incRef s with
  | Done s' => __decRef s'
  | AssertionFailed => AssertionFailed
  end.

End Shared.

(** ** The [std::string] operations used by the service manager *)

Module Str.

(** [std::string::npos] is rendered as [None]. *)
Definition size_type : Type := option nat.
Definition npos : size_type := None.

Fixpoint mem_char (c : ascii) (chars : string) : bool :=
  match chars with
  | EmptyString => false
  | String d chars' => if Ascii.eqb c d then true else mem_char c chars'
  end.

(** The suffix of [s] that starts at position [n]. *)
Fixpoint skip (n : nat) (s : string) : string :=
  match n, s with
  | O, _ => s
  | S n', EmptyString => EmptyString
  | S n', String _ s' => skip n' s'
  end.

(** Position of the first character of [s] that satisfies [p], counting
    the first character of [s] as position [i]. *)
Fixpoint scan (p : ascii -> bool) (s : string) (i : nat) : size_type :=
  match s with
  | EmptyString => npos
  | String c s' => if p c then Some i else scan p s' (S i)
  end.

(** [s.find_first_of(chars, pos)] *)
Definition find_first_of (s chars : string) (pos : nat) : size_type :=
  scan (fun c => mem_char c chars) (skip pos s) pos.

(** [s.find_first_not_of(chars, pos)] *)
Definition find_first_not_of (s chars : string) (pos : nat) : size_type :=
  scan (fun c => negb (mem_char c chars)) (skip pos s) pos.

(** [s.substr(pos, n)]: at most [n] characters from position [pos]. Every
    call site passes [pos <= s.size()], so [std::out_of_range] is not
    modelled. *)
Definition substr (s : string) (pos n : nat) : string := substring pos n s.

(** [s.substr(pos)]: everything from position [pos]. *)
Definition substr_from (s : string) (pos : nat) : string :=
  substring pos (String.length s - pos) s.

(** [s.find(pat)]: position of the first occurrence of [pat] in [s]. *)
Definition find (s pat : string) : size_type := index 0 pat s.

(** The test [s.find(pat) == 0]. *)
Definition find_is_0 (s pat : string) : bool :=
  match find s pat with
  | Some O => true
  | _ => false
  end.

(** Every character of [s] satisfies [p]. *)
Fixpoint forall_chars (p : ascii -> bool) (s : string) : bool :=
  match s with
  | EmptyString => true
  | String c s' => p c && forall_chars p s'
  end.

(** [s.empty()] *)
Definition empty (s : string) : bool :=
  match s with
  | EmptyString => true
  | String _ _ => false
  end.

End Str.

Definition StringSeq : Type := list string.

(** ** Parsing of an [IceBox.Service.<name>] value
       (ServiceManagerI.cpp, lines 85-110) *)

Module Descriptor.

Import Str.

(** The separator set [" \t\n"]. *)
Definition separators : string :=
  String " " (String (ascii_of_nat 9) (String (ascii_of_nat 10) EmptyString)).

(** The [while(beg != string::npos)] loop of lines 96-109. [fuel] bounds
    the number of iterations; [None] is returned only when it runs out. *)
Fixpoint parse_args (fuel : nat) (value : string) (beg : size_type)
         (args : StringSeq) : option StringSeq :=
  match beg with
  | None => Some args
  | Some b =>
      match fuel with
      | O => None
      | S fuel' =>
          match find_first_of value separators b with
          | None =>
              parse_args fuel' value npos (args ++ [substr_from value b])
          | Some e =>
              parse_args fuel' value (find_first_not_of value separators e)
                         (args ++ [substr value b (e - b)])
          end
      end
  end.

(** Lines 85-110: the entry point and the arguments of one value. *)
Definition parse_value (value : string) : option (string * StringSeq) :=
  match find_first_of value separators 0 with
  | None => Some (value, [])
  | Some pos =>
      match parse_args (String.length value) value
                       (find_first_not_of value separators pos) [] with
      | Some args => Some (substr value 0 pos, args)
      | None => None
      end
  end.

(** *** The tokenization in the words of the specification

    "splitting on runs of [ \t\n], with the first token as entry point":
    the tokens are the maximal runs of non-separator characters. *)

Definition is_separator (c : ascii) : bool := mem_char c separators.

Definition not_separator (c : ascii) : bool := negb (is_separator c).

Definition close_token (cur : string) (rest : list string) : list string :=
  if Str.empty cur then rest else cur :: rest.

(** [cur] is the token being read. *)
Fixpoint tokens_from (s : string) (cur : string) : list string :=
  match s with
  | EmptyString => close_token cur []
  | String c s' =>
      if is_separator c
      then close_token cur (tokens_from s' EmptyString)
      else tokens_from s' (cur ++ String c EmptyString)%string
  end.

Definition spec_tokens (value : string) : list string :=
  tokens_from value EmptyString.

Definition spec_parse_value (value : string) : option (string * StringSeq) :=
  match spec_tokens value with
  | [] => None
  | entryPoint :: args => Some (entryPoint, args)
  end.

End Descriptor.

(** ** [std::map<std::string, V>]

    [_services] is a [map<string,ServiceInfo>] (ServiceManagerI.cpp, lines
    118, 293, 325): its entries are kept, and iterated, in ascending key
    order, and a key occurs at most once. The map is represented by the
    list of its entries in iteration order. *)

Module StdMap.

Definition map (V : Type) : Type := list (string * V).

(** The order of [std::less<std::string>]: lexicographic on the
    characters. *)
Definition key_compare : string -> string -> comparison :=
  String_as_OT.compare.

Definition key_lt (a b : string) : Prop := key_compare a b = Lt.

Section Operations.

Context {V : Type}.

(** [m[k] = v]: the entry for [k] is created in its place in the order,
    or its value is overwritten. *)
Fixpoint assign (k : string) (v : V) (m : map V) : map V :=
  match m with
  | [] => [(k, v)]
  | (k', v') :: m' =>
      match key_compare k k' with
      | Lt => (k, v) :: m
      | Eq => (k, v) :: m'
      | Gt => (k', v') :: assign k v m'
      end
  end.

(** [m.find(k)]: the value of the entry for [k], [None] for [m.end()]. *)
Fixpoint find (k : string) (m : map V) : option V :=
  match m with
  | [] => None
  | (k', v') :: m' =>
      match key_compare k k' with
      | Eq => Some v'
      | _ => find k m'
      end
  end.

(** [m.erase(r)] for the iterator [r] of the entry for [k]. *)
Fixpoint erase (k : string) (m : map V) : map V :=
  match m with
  | [] => []
  | (k', v') :: m' =>
      match key_compare k k' with
      | Eq => m'
      | _ => (k', v') :: erase k m'
      end
  end.

(** An iterator is the key of the entry it points to, [None] for
    [m.end()]: erasing an entry leaves the iterators of the other
    entries valid. *)
Definition iterator : Type := option string.

(** [m.begin()] *)
Definition begin (m : map V) : iterator :=
  match m with
  | [] => None
  | (k, _) :: _ => Some k
  end.

(** [++r] for the iterator [r] of the entry for [k]. *)
Fixpoint next (k : string) (m : map V) : iterator :=
  match m with
  | [] => None
  | (k', _) :: m' =>
      match key_compare k k' with
      | Eq => begin m'
      | _ => next k m'
      end
  end.

(** [m.empty()] *)
Definition empty (m : map V) : bool :=
  match m with
  | [] => true
  | _ :: _ => false
  end.

Definition keys (m : map V) : list string := List.map fst m.

(** The representation invariant: keys strictly ascending. *)
Fixpoint sorted (m : map V) : bool :=
  match m with
  | [] => true
  | (k, _) :: m' =>
      match m' with
      | [] => true
      | (k', _) :: _ =>
          match key_compare k k' with
          | Lt => sorted m'
          | _ => false
          end
      end
  end.

(** Every key of [m] is above [k]. *)
Definition above (k : string) (m : map V) : Prop :=
  Forall (fun e => key_lt k (fst e)) m.

(** Every key of [m] is below [k]. *)
Definition below (k : string) (m : map V) : Prop :=
  Forall (fun e => key_lt (fst e) k) m.

(** The map obtained by making the assignments of [l] from left to
    right. *)
Definition of_list (l : list (string * V)) : map V :=
  fold_left (fun m kv => assign (fst kv) (snd kv) m) l [].

End Operations.

End StdMap.

(** ** IceBox::ServiceManagerI (ServiceManagerI.cpp) *)

Module IceBox.

Import Str.

(** *** Exceptions

    [IceBox::FailureException] is a Slice local exception and so derives
    from [Ice::Exception]: a handler [catch(const Exception&)] catches
    it too. Anything that is not an [Ice::Exception] is only caught by
    [catch(...)]. *)
Inductive Exception : Type :=
| FailureException (reason : string)
| OtherException (name : string) (printed : string).

Inductive thrown : Type :=
| Ice (ex : Exception)
| NonIce.

(** What a call into a collaborator (a service, a factory, the
    communicator, the adapter) does: it returns or it throws. *)
Inductive outcome : Type :=
| Returns
| Raises (t : thrown).

(** The exit codes of [<cstdlib>]. *)
Definition EXIT_SUCCESS : Z := 0%Z.
Definition EXIT_FAILURE : Z := 1%Z.

(** [struct ServiceInfo]: the handles of the service object and of the
    library it was loaded from. Objects are named by the order of their
    creation. *)
Record ServiceInfo : Type := mkServiceInfo
  { service : nat;
    library : nat }.

(** A [const string&] that names a service: a string of the caller's
    own, or the key of the entry of [_services] for that name,
    [r->first], a string that is destroyed with its entry when the
    entry is erased. *)
Inductive name_ref : Type :=
| Caller (s : string)
| EntryKey (k : string).

(** The string read through the reference while it is valid. *)
Definition name_of_ref (r : name_ref) : string :=
  match r with
  | Caller s => s
  | EntryKey k => k
  end.

(** *** Control: a call returns normally, leaves by an exception, or the
    program stops at a failed [assert]. [Undefined] is a program that
    has read an object after its destruction: nothing is known of what
    it does from there on, and the state is the one it was in at that
    point. [OutOfFuel] is the answer of a loop of the model that was
    given too few iterations. *)
Inductive result (A : Type) : Type :=
| Normal (a : A)
| Throw (t : thrown)
| Abort
| OutOfFuel
| Undefined.
Arguments Normal {A} a.
Arguments Throw {A} t.
Arguments Abort {A}.
Arguments OutOfFuel {A}.
Arguments Undefined {A}.

Section WithProperties.

(** The type of a property set ([Ice::Properties], outside [src/]). *)
Context {Properties : Type}.

(** *** The collaborators of the service manager

    Everything the manager calls and does not define is a field of the
    environment; the theorems hold for every environment. A service
    object's [init], [start] and [stop] are each called at most once,
    so one outcome per object and operation describes it. *)
Record Env : Type := mkEnv
  { (* Ice::Communicator, Ice::ObjectAdapter *)
    createObjectAdapterFromProperty : outcome;
    adapter_add : outcome;
    adapter_activate : outcome;
    waitForShutdown : outcome;
    (* Ice::Properties of the communicator: the assignments made *)
    server_properties : list (string * string);
    getCommandLineOptions : StringSeq;
    (* Ice::createProperties and Properties::parseCommandLineOptions,
       which stores the matching options in the set and returns the
       other arguments *)
    createProperties : StringSeq -> Properties;
    parseCommandLineOptions :
      Properties -> string -> StringSeq -> Properties * StringSeq;
    (* DynamicLibrary: does loadEntryPoint give a symbol, and the
       error message when it does not *)
    loadEntryPoint : string -> bool;
    getErrorMessage : string -> string;
    (* the factory of an entry point, called to create object [n] *)
    factory : string -> nat -> outcome;
    (* ice_name() of a FailureException, whose Slice-generated class is
       outside src/ *)
    failure_ice_name : string;
    (* IceBox::Service *)
    service_init : nat -> string -> Properties -> StringSeq -> outcome;
    service_start : nat -> outcome;
    service_stop : nat -> outcome }.

(** *** Observable events, in the order they happen *)
Inductive event : Type :=
| EvLoad (lib : nat) (entryPoint : string)
| EvFactory (entryPoint : string)
| EvInit (svc : nat) (name : string) (properties : Properties)
         (args : StringSeq)
| EvStart (svc : nat)
| EvStop (svc : nat)
| EvError (message : string)
| EvPrint (line : string)
| EvActivate
| EvWaitForShutdown.

(** *** The manager and the objects around it *)
Record State : Type := mkState
  { _progName : string;
    _argv : StringSeq;
    _options : StringSeq;
    _services : StdMap.map ServiceInfo;
    trace : list event;
    next_service : nat;
    next_library : nat }.

Definition set_services (m : StdMap.map ServiceInfo) (st : State) : State :=
  {| _progName := _progName st; _argv := _argv st; _options := _options st;
     _services := m; trace := trace st;
     next_service := next_service st; next_library := next_library st |}.

Definition add_events (evs : list event) (st : State) : State :=
  {| _progName := _progName st; _argv := _argv st; _options := _options st;
     _services := _services st; trace := trace st ++ evs;
     next_service := next_service st; next_library := next_library st |}.

Definition add_event (ev : event) (st : State) : State :=
  add_events [ev] st.

Definition new_service (st : State) : State :=
  {| _progName := _progName st; _argv := _argv st; _options := _options st;
     _services := _services st; trace := trace st;
     next_service := S (next_service st); next_library := next_library st |}.

Definition new_library (st : State) : State :=
  {| _progName := _progName st; _argv := _argv st; _options := _options st;
     _services := _services st; trace := trace st;
     next_service := next_service st; next_library := S (next_library st) |}.

Definition M (A : Type) : Type := State -> result A * State.

Definition ret {A : Type} (a : A) : M A := fun st => (Normal a, st).

Definition bind {A B : Type} (m : M A) (k : A -> M B) : M B :=
  fun st =>
    match m st with
    | (Normal a, st') => k a st'
    | (Throw t, st') => (Throw t, st')
    | (Abort, st') => (Abort, st')
    | (OutOfFuel, st') => (OutOfFuel, st')
    | (Undefined, st') => (Undefined, st')
    end.

Definition throw {A : Type} (t : thrown) : M A := fun st => (Throw t, st).

Definition abort {A : Type} : M A := fun st => (Abort, st).

Definition out_of_fuel {A : Type} : M A := fun st => (OutOfFuel, st).

Definition undefined {A : Type} : M A := fun st => (Undefined, st).

(** [try { body } catch ...]: [handlers t] is the first handler that
    matches [t], [None] when there is none and [t] goes on. *)
Definition try_catch {A : Type} (body : M A)
           (handlers : thrown -> option (M A)) : M A :=
  fun st =>
    match body st with
    | (Throw t, st') =>
        match handlers t with
        | Some h => h st'
        | None => (Throw t, st')
        end
    | other => other
    end.

Definition get {A : Type} (f : State -> A) : M A :=
  fun st => (Normal (f st), st).

Definition modify (f : State -> State) : M unit :=
  fun st => (Normal tt, f st).

Definition emit (ev : event) : M unit := modify (add_event ev).

(** A call into a collaborator. *)
Definition call (o : outcome) : M unit :=
  match o with
  | Returns => ret tt
  | Raises t => throw t
  end.

(** [Error out(_logger); out << message; body]: an [Error] sends what
    was written to it to the logger when it is destroyed, that is when
    [body], the rest of the scope of [out], is over, by reaching its end
    or by an exception that leaves it. *)
Definition with_Error {A : Type} (message : string) (body : M A) : M A :=
  fun st =>
    match body st with
    | (Normal a, st') => (Normal a, add_event (EvError message) st')
    | (Throw t, st') => (Throw t, add_event (EvError message) st')
    | other => other
    end.

Local Notation "x <- m ;; k" := (bind m (fun x => k))
  (at level 61, m at next level, right associativity).
Local Notation "m ;; k" := (bind m (fun _ => k))
  (at level 61, right associativity).

Section Manager.

Variable env : Env.

(** [ex.ice_name()] *)
Definition ice_name (ex : Exception) : string :=
  match ex with
  | FailureException _ => failure_ice_name env
  | OtherException name _ => name
  end.

(** Modelled from the spec: [Properties::getPropertiesForPrefix] is
    outside [src/]; "enumerate keys under a prefix". Its result type
    [PropertyDict] is the dictionary of strings, a
    [std::map<string,string>]. *)
Definition getPropertiesForPrefix (prefix : string) : StdMap.map string :=
  StdMap.of_list
    (filter (fun kv => String.prefix prefix (fst kv))
            (server_properties env)).

(** Modelled from the spec: [Properties::getProperty] is outside
    [src/]; "get(key): string (empty if absent)". *)
Definition getProperty (key : string) : string :=
  match StdMap.find key (StdMap.of_list (server_properties env)) with
  | Some v => v
  | None => ""
  end.

(** The constructor, lines 21-38. *)
Definition ServiceManagerI_new (argv : list string) : State :=
  {| _progName := match argv with [] => "" | a :: _ => a end;
     _argv := tl argv;
     _options := getCommandLineOptions env;
     _services := [];
     trace := [];
     next_service := 0;
     next_library := 0 |}.

(** A loop [for(j = 0; j < from.size(); j++) if(test(from[j]))
    to.push_back(from[j]);], lines 202-219. *)
Definition push_back_if (test : string -> bool) (from to : StringSeq)
  : StringSeq :=
  fold_left (fun acc x => if test x then acc ++ [x] else acc) from to.

Definition FailureException_of (reason : string) : thrown :=
  Ice (FailureException reason).

(** [ServiceManagerI::init], lines 185-288. The parameter [service]
    of the source is called [name] here. *)
Definition init (name entryPoint : string) (args : StringSeq) : M nat :=
  options <- get _options ;;
  argv <- get _argv ;;
  let option_prefix := ("--" ++ name ++ ".")%string in
  let serviceArgs :=
    push_back_if (fun o => find_is_0 o option_prefix) options [] in
  let serviceArgs := push_back_if (fun _ => true) args serviceArgs in
  let serviceArgs :=
    push_back_if (fun a => find_is_0 a option_prefix) argv serviceArgs in
  let serviceProperties := createProperties env serviceArgs in
  let '(serviceProperties, serviceArgs) :=
    parseCommandLineOptions env serviceProperties "Ice" serviceArgs in
  let '(serviceProperties, serviceArgs) :=
    parseCommandLineOptions env serviceProperties name serviceArgs in
  (* lines 231-243 *)
  lib <- get next_library ;;
  modify new_library ;;
  emit (EvLoad lib entryPoint) ;;
  (if loadEntryPoint env entryPoint
   then ret tt
   else
     let msg := getErrorMessage env entryPoint in
     let reason :=
       ("ServiceManager: unable to load entry point `"
          ++ entryPoint ++ "'")%string in
     let reason :=
       if negb (Str.empty msg) then (reason ++ ": " ++ msg)%string
       else reason in
     throw (FailureException_of reason)) ;;
  (* lines 248-265 *)
  svc <- try_catch
           (emit (EvFactory entryPoint) ;;
            n <- get next_service ;;
            call (factory env entryPoint n) ;;
            modify new_service ;;
            ret n)
           (fun t =>
              match t with
              | Ice ex =>
                  Some (throw (FailureException_of
                    ("ServiceManager: exception in entry point `"
                       ++ entryPoint ++ "': " ++ ice_name ex)%string))
              | NonIce =>
                  Some (throw (FailureException_of
                    ("ServiceManager: unknown exception in entry point `"
                       ++ entryPoint ++ "'")%string))
              end) ;;
  (* lines 270-285 *)
  try_catch
    (emit (EvInit svc name serviceProperties serviceArgs) ;;
     call (service_init env svc name serviceProperties serviceArgs) ;;
     modify (fun st =>
               set_services
                 (StdMap.assign name
                                {| service := svc; library := lib |}
                                (_services st)) st))
    (fun t =>
       match t with
       | Ice (FailureException _) => Some (throw t)
       | Ice ex =>
           Some (throw (FailureException_of
             ("ServiceManager: exception while initializing service "
                ++ name ++ ": " ++ ice_name ex)%string))
       | NonIce => None
       end) ;;
  ret svc.

(** Lines 298-319 of [ServiceManagerI::stop]: the call of the service's
    [stop] on the copy [info] of the record, made after the entry has
    been erased. The handler of line 302 reads the parameter [service]
    at line 311 for the reason of the failure: when [service] is the key
    of the entry, the string it refers to was destroyed by the [erase]
    of line 296. *)
Definition stop_service (reentry : M unit) (service_name : name_ref)
           (info : ServiceInfo) : M unit :=
  try_catch
    (emit (EvStop (service info)) ;;
     reentry ;;
     call (service_stop env (service info)))
    (fun t =>
       match t with
       | Ice ex =>
           Some (match service_name with
                 | Caller name =>
                     throw (FailureException_of
                       ("ServiceManager: exception in stop for service "
                          ++ name ++ ": " ++ ice_name ex)%string)
                 | EntryKey _ => undefined
                 end)
       | NonIce => None
       end).

(** [ServiceManagerI::stop], lines 290-320, with the parameter
    [service] of the source, a [const string&], called [service_name]
    here. The call [info.service->stop()] of line 300 leaves the
    manager: [reentry] is what the service does to the manager from
    inside its [stop()], before that call ends with the outcome that
    the environment gives for it. *)
Definition stop_reentrant (reentry : M unit) (service_name : name_ref)
  : M unit :=
  services <- get _services ;;
  match StdMap.find (name_of_ref service_name) services with
  | None => abort
  | Some info =>
      modify (fun st =>
                set_services
                  (StdMap.erase (name_of_ref service_name) (_services st))
                  st) ;;
      stop_service reentry service_name info
  end.

(** [ServiceManagerI::stop] for a service that does not call the
    manager from inside its [stop()]: so it is in [stopAll] and in
    [run]. *)
Definition stop (service_name : name_ref) : M unit :=
  stop_reentrant (ret tt) service_name.

(** The loop of [stopAll], lines 326-337, with the iterator [r]:
    the argument of the call of [stop] at line 330 is the key of the
    entry itself, [first] of the entry that [r] pointed to. *)
Fixpoint stopAll_loop (fuel : nat) (r : StdMap.iterator) : M unit :=
  match r with
  | None => ret tt
  | Some k =>
      match fuel with
      | O => out_of_fuel
      | S fuel' =>
          services <- get _services ;;
          let r' := StdMap.next k services in
          try_catch (stop (EntryKey k))
            (fun t =>
               match t with
               | Ice (FailureException reason) =>
                   Some (with_Error reason (ret tt))
               | _ => None
               end) ;;
          stopAll_loop fuel' r'
      end
  end.

(** [ServiceManagerI::stopAll], lines 322-339. *)
Definition stopAll : M unit :=
  services <- get _services ;;
  stopAll_loop (List.length services) (StdMap.begin services) ;;
  services <- get _services ;;
  if StdMap.empty services then ret tt else abort.

Definition prefix : string := "IceBox.Service.".

(** The loop of [run] over the services found, lines 77-113. *)
Fixpoint init_services (services : StdMap.map string) : M unit :=
  match services with
  | [] => ret tt
  | (key, value) :: rest =>
      let name := substr_from key (String.length prefix) in
      match Descriptor.parse_value value with
      | None => out_of_fuel
      | Some (entryPoint, args) =>
          init name entryPoint args ;;
          init_services rest
      end
  end.

(** The loop of [run] that starts the services, lines 118-135; the
    map is not changed while it runs. *)
Fixpoint start_services (services : StdMap.map ServiceInfo) : M unit :=
  match services with
  | [] => ret tt
  | (name, info) :: rest =>
      try_catch
        (emit (EvStart (service info)) ;;
         call (service_start env (service info)))
        (fun t =>
           match t with
           | Ice (FailureException _) => Some (throw t)
           | Ice ex =>
               Some (throw (FailureException_of
                 ("ServiceManager: exception in start for service "
                    ++ name ++ ": " ++ ice_name ex)%string))
           | NonIce => None
           end) ;;
      start_services rest
  end.

(** The end of the [try] block of [run], lines 149-165: the
    services have been started. *)
Definition serve : M unit :=
  let bundleName := getProperty "IceBox.PrintServicesReady" in
  (if negb (Str.empty bundleName)
   then emit (EvPrint (bundleName ++ " ready")%string)
   else ret tt) ;;
  emit EvActivate ;;
  call (adapter_activate env) ;;
  emit EvWaitForShutdown ;;
  call (waitForShutdown env) ;;
  stopAll.

(** The [try] block of [run], lines 53-166. *)
Definition run_try : M unit :=
  call (createObjectAdapterFromProperty env) ;;
  call (adapter_add env) ;;
  init_services (getPropertiesForPrefix prefix) ;;
  services <- get _services ;;
  start_services services ;;
  serve.

(** The handlers of [run], lines 167-180. *)
Definition run_handlers (t : thrown) : option (M Z) :=
  match t with
  | Ice (FailureException reason) =>
      Some (with_Error reason
              (stopAll ;;
               ret EXIT_FAILURE))
  | Ice (OtherException _ printed) =>
      Some (with_Error ("ServiceManager: " ++ printed)%string
              (stopAll ;;
               ret EXIT_FAILURE))
  | NonIce => None
  end.

(** [ServiceManagerI::run], lines 50-183. *)
Definition run : M Z :=
  try_catch (run_try ;; ret EXIT_SUCCESS) run_handlers.

(** *** What a trace shows, and the words of the specification *)

(** The services whose [start] was called, in call order. *)
Definition started (tr : list event) : list nat :=
  flat_map (fun ev => match ev with EvStart n => [n] | _ => [] end) tr.

(** The services whose [stop] was called, in call order. *)
Definition stopped (tr : list event) : list nat :=
  flat_map (fun ev => match ev with EvStop n => [n] | _ => [] end) tr.

(** The services whose [init] was called, with the name given. *)
Definition initialized (tr : list event) : list (nat * string) :=
  flat_map (fun ev => match ev with
                      | EvInit n name _ _ => [(n, name)]
                      | _ => []
                      end) tr.

(** The messages sent to the logger. *)
Definition errors (tr : list event) : list string :=
  flat_map (fun ev => match ev with EvError m => [m] | _ => [] end) tr.

(** The name of a service: [p->first.substr(prefix.size())]. *)
Definition name_of (key : string) : string :=
  substr_from key (String.length prefix).

(** The configuration composer in the words of the specification
    (4.D): the runtime-recognized options that begin with
    [--<name>.], then the descriptor's arguments, then the raw
    container arguments that begin with [--<name>.]; a fresh view is
    built from them and consumes the [--Ice.*] and then the
    [--<name>.*] options. *)
Definition spec_serviceArgs (options argv : StringSeq) (name : string)
           (args : StringSeq) : StringSeq :=
  filter (String.prefix ("--" ++ name ++ ".")%string) options
  ++ args
  ++ filter (String.prefix ("--" ++ name ++ ".")%string) argv.

Definition spec_compose (options argv : StringSeq) (name : string)
           (args : StringSeq) : Properties * StringSeq :=
  let serviceArgs := spec_serviceArgs options argv name args in
  let view := createProperties env serviceArgs in
  let '(view, residual) :=
    parseCommandLineOptions env view "Ice" serviceArgs in
  parseCommandLineOptions env view name residual.

(** The reasons of the failures the manager raises. *)
Definition LoadFailure (entryPoint : string) : string :=
  let reason := ("ServiceManager: unable to load entry point `"
                   ++ entryPoint ++ "'")%string in
  if negb (Str.empty (getErrorMessage env entryPoint))
  then (reason ++ ": " ++ getErrorMessage env entryPoint)%string
  else reason.

Definition EntryPointFailure (entryPoint : string) (ex : Exception)
  : string :=
  ("ServiceManager: exception in entry point `"
     ++ entryPoint ++ "': " ++ ice_name ex)%string.

Definition UnknownEntryPointFailure (entryPoint : string) : string :=
  ("ServiceManager: unknown exception in entry point `"
     ++ entryPoint ++ "'")%string.

Definition InitFailure (name : string) (ex : Exception) : string :=
  ("ServiceManager: exception while initializing service "
     ++ name ++ ": " ++ ice_name ex)%string.

Definition StartFailure (name : string) (ex : Exception) : string :=
  ("ServiceManager: exception in start for service "
     ++ name ++ ": " ++ ice_name ex)%string.

Definition StopFailure (name : string) (ex : Exception) : string :=
  ("ServiceManager: exception in stop for service "
     ++ name ++ ": " ++ ice_name ex)%string.

(** The calls of [stop] that [stopAll] makes for the records [m], in
    iteration order. *)
Definition stop_events (m : StdMap.map ServiceInfo) : list event :=
  List.map (fun r => EvStop (service (snd r))) m.

(** The [stop] of every service of [m] returns. *)
Definition stops_return (m : StdMap.map ServiceInfo) : Prop :=
  Forall (fun r => service_stop env (service (snd r)) = Returns) m.

(** The descriptor of an entry of the service dictionary. *)
Definition descriptor (value : string) : string * StringSeq :=
  match Descriptor.parse_value value with
  | Some d => d
  | None => (EmptyString, [])
  end.

(** The records made, and the events seen, when [init] succeeds for
    every entry of [services], the first objects created being
    service [svc] and library [lib]. *)
Fixpoint records (svc lib : nat) (services : StdMap.map string)
  : StdMap.map ServiceInfo :=
  match services with
  | [] => []
  | (key, _) :: rest =>
      (name_of key, {| service := svc; library := lib |})
      :: records (S svc) (S lib) rest
  end.

Fixpoint init_events (options argv : StringSeq) (svc lib : nat)
         (services : StdMap.map string) : list event :=
  match services with
  | [] => []
  | (key, value) :: rest =>
      let '(entryPoint, args) := descriptor value in
      let '(view, residual) :=
        spec_compose options argv (name_of key) args in
      [EvLoad lib entryPoint; EvFactory entryPoint;
       EvInit svc (name_of key) view residual]
      ++ init_events options argv (S svc) (S lib) rest
  end.

(** [init] succeeds for the entry: the library gives the symbol, the
    factory returns, and so does the service's [init]. *)
Definition init_succeeds (entry : string * string) : Prop :=
  loadEntryPoint env (fst (descriptor (snd entry))) = true /\
  (forall n, factory env (fst (descriptor (snd entry))) n = Returns) /\
  (forall n view args,
      service_init env n (name_of (fst entry)) view args = Returns).

(** The start-up of [run] up to the start of the services goes
    through. *)
Definition startup_succeeds : Prop :=
  createObjectAdapterFromProperty env = Returns /\
  adapter_add env = Returns /\
  Forall init_succeeds (getPropertiesForPrefix prefix).

(** *** Notions used in the statements about [run] *)

(** The service handles of the records, in iteration order. *)
Definition handles (m : StdMap.map ServiceInfo) : list nat :=
  List.map (fun r => service (snd r)) m.

Definition start_events (m : StdMap.map ServiceInfo) : list event :=
  List.map (fun n => EvStart n) (handles m).

(** The state after [init] has succeeded for every entry of [dict]. *)
Definition after_inits (dict : StdMap.map string) (st : State) : State :=
  {| _progName := _progName st;
     _argv := _argv st;
     _options := _options st;
     _services :=
       _services st ++ records (next_service st) (next_library st) dict;
     trace :=
       trace st ++ init_events (_options st) (_argv st)
                               (next_service st) (next_library st) dict;
     next_service := next_service st + List.length dict;
     next_library := next_library st + List.length dict |}.

(** [st'] comes after [st] and no service has been initialized or
    started in between. *)
Definition quiet_step (st st' : State) : Prop :=
  exists evs, trace st' = trace st ++ evs /\
              started evs = [] /\ initialized evs = [].

Definition quiet {A : Type} (m : M A) : Prop :=
  forall st, quiet_step st (snd (m st)).

(** No assertion fails in the computation and no loop of the model
    runs out of fuel. *)
Definition ends {A : Type} (m : M A) : Prop :=
  forall st, match fst (m st) with
             | Normal _ | Throw _ | Undefined => True
             | Abort | OutOfFuel => False
             end.

(** [run] once the services have been initialized: the loop that
    starts them, and what follows it. *)
Definition run_from_start (st : State) : result Z * State :=
  match start_services (_services st) st with
  | (Normal _, st') =>
      try_catch (bind serve (fun _ => ret EXIT_SUCCESS))
                run_handlers st'
  | (Throw t, st') =>
      match run_handlers t with
      | Some h => h st'
      | None => (Throw t, st')
      end
  | (Abort, st') => (Abort, st')
  | (OutOfFuel, st') => (OutOfFuel, st')
  | (Undefined, st') => (Undefined, st')
  end.

(** The reason of the failure that leaves the loop of lines 118-135
    when the [start] of service [name] throws [ex]. *)
Definition start_failure_reason (name : string) (ex : Exception) : string :=
  match ex with
  | FailureException reason => reason
  | OtherException _ _ => StartFailure name ex
  end.

(** The line printed when the services are ready, lines 149-153. *)
Definition ready_events : list event :=
  if negb (Str.empty (getProperty "IceBox.PrintServicesReady"))
  then [EvPrint (getProperty "IceBox.PrintServicesReady" ++ " ready")%string]
  else [].

End Manager.

End WithProperties.

Arguments Env : clear implicits.
Arguments event : clear implicits.
Arguments State : clear implicits.
Arguments M : clear implicits.

Declare Scope box_scope.
Delimit Scope box_scope with box.
Notation "x <- m ;; k" := (bind m (fun x => k))
  (at level 61, m at next level, right associativity) : box_scope.
Notation "m ;; k" := (bind m (fun _ => k))
  (at level 61, right associativity) : box_scope.

End IceBox.

(** ** Concrete environments, used to run the model *)

Module Scenario.

Import IceBox.

(** Modelled from the spec: a property set ([Ice::Properties] is outside
    [src/]) that keeps the options it has consumed;
    "parseCommandLineOptions(prefix, args): args with prefix-matching
    options consumed and stored". *)
Definition Props : Type := list string.

Definition matches (pfx : string) (arg : string) : bool :=
  String.prefix ("--" ++ pfx ++ ".")%string arg.

Definition parse_options (view : Props) (pfx : string) (args : StringSeq)
  : Props * StringSeq :=
  (view ++ filter (matches pfx) args,
   filter (fun a => negb (matches pfx a)) args).

(** Three services; every collaborator succeeds except where the
    arguments say otherwise. *)
Definition three_services (start stop : nat -> outcome) : Env Props :=
  {| createObjectAdapterFromProperty := Returns;
     adapter_add := Returns;
     adapter_activate := Returns;
     waitForShutdown := Returns;
     server_properties :=
       [ ("IceBox.Service.Third", "libT:create --Third.x=1 7");
         ("IceBox.Service.First", "libF:create");
         ("Ice.Trace", "1");
         ("IceBox.Service.Middle", "libM:create");
         ("IceBox.PrintServicesReady", "bundle") ];
     getCommandLineOptions := ["--Ice.Trace=1"; "--Third.y=2"];
     createProperties := fun _ => [];
     parseCommandLineOptions := parse_options;
     loadEntryPoint := fun _ => true;
     getErrorMessage := fun _ => "";
     factory := fun _ _ => Returns;
     failure_ice_name := "IceBox::FailureException";
     service_init := fun _ _ _ _ => Returns;
     service_start := start;
     service_stop := stop |}.

Definition boom : thrown := Ice (OtherException "boom" "boom").

(** Every collaborator succeeds. *)
Definition all_well : Env Props :=
  three_services (fun _ => Returns) (fun _ => Returns).

(** The start of the second service, [Middle], throws. *)
Definition middle_start_fails : Env Props :=
  three_services (fun n => if Nat.eqb n 1 then Raises boom else Returns)
                 (fun _ => Returns).

(** The stop of the first service, [First], throws. *)
Definition first_stop_fails : Env Props :=
  three_services (fun _ => Returns)
                 (fun n => if Nat.eqb n 0 then Raises boom else Returns).

(** A factory that throws the container's own [FailureException]. *)
Definition factory_throws_failure : Env Props :=
  {| createObjectAdapterFromProperty := Returns;
     adapter_add := Returns;
     adapter_activate := Returns;
     waitForShutdown := Returns;
     server_properties := [];
     getCommandLineOptions := [];
     createProperties := fun _ => [];
     parseCommandLineOptions := parse_options;
     loadEntryPoint := fun _ => true;
     getErrorMessage := fun _ => "";
     factory := fun _ _ => Raises (Ice (FailureException "boom"));
     failure_ice_name := "IceBox::FailureException";
     service_init := fun _ _ _ _ => Returns;
     service_start := fun _ => Returns;
     service_stop := fun _ => Returns |}.

Definition argv0 : list string := ["icebox"; "--Third.z=3"; "--Other.q=4"].

(** A manager whose Registry holds the three services. *)
Definition three_running : State Props :=
  {| _progName := "icebox";
     _argv := [];
     _options := [];
     _services := [ ("First", {| service := 0; library := 0 |});
                    ("Middle", {| service := 1; library := 1 |});
                    ("Third", {| service := 2; library := 2 |}) ];
     trace := [];
     next_service := 3;
     next_library := 3 |}.

End Scenario.

(** ** A service value written out from its descriptor *)

Module Render.

Import Str Descriptor.

(** The value [entryPoint arg1 ... argn], with one space before each
    argument: the format of the comment of ServiceManagerI.cpp, line 71,
    [IceBox.Service.Foo=entry_point [args]]. *)
Fixpoint render_args (args : StringSeq) : string :=
  match args with
  | [] => EmptyString
  | a :: rest => (String " " a ++ render_args rest)%string
  end.

Definition render (entryPoint : string) (args : StringSeq) : string :=
  (entryPoint ++ render_args args)%string.

(** A word: a string without separator. *)
Definition word (s : string) : bool := forall_chars not_separator s.

(** An argument that the loop of lines 96-109 can produce: a word that is
    not empty. *)
Definition argument (s : string) : Prop := s <> EmptyString /\ word s = true.

End Render.

(** ** IceUtil::Shared and its atomic counter (Shared.h, lines 34-96
       and 164-278, the branch without [WIN32]), run by one thread *)

Module Atomic.

Import Shared.
Local Open Scope Z_scope.

(** [typedef struct { volatile int counter; } atomic_t;] *)
Record atomic_t : Type := mk_atomic { counter : Z }.

(** [#define atomic_set(v,i) (((v)->counter) = (i))] *)
Definition atomic_set (v : atomic_t) (i : Z) : atomic_t :=
  {| counter := i |}.

(** [atomic_inc]: [lock ; incl %0] on [v->counter]. *)
Definition atomic_inc (v : atomic_t) : atomic_t :=
  {| counter := wrap_int (counter v + 1) |}.

(** [atomic_dec_and_test]: [lock ; decl %0; sete %1]; [c] is set when the
    result of the decrement is zero, and [c != 0] is returned. *)
Definition atomic_dec_and_test (v : atomic_t) : atomic_t * bool :=
  let r := wrap_int (counter v - 1) in
  ({| counter := r |}, r =? 0).

(** [atomic_exchange_add]: [tmp = i; lock ; xadd %0,(%2)] leaves the old
    counter in [tmp] and the sum in the counter; [tmp + i] is returned. *)
Definition atomic_exchange_add (i : Z) (v : atomic_t) : atomic_t * Z :=
  let tmp := counter v in
  ({| counter := wrap_int (counter v + i) |}, wrap_int (tmp + i)).

(** [class Shared]: [atomic_t _ref; bool _noDelete;] *)
Record AtomicShared : Type := mkAtomicShared
  { a_ref : atomic_t;
    a_noDelete : bool }.

(** [Shared::Shared() : _noDelete(false) { atomic_set(&_ref, 0); }]; the
    counter holds [garbage] before the body runs. *)
Definition Shared_new (garbage : Z) : AtomicShared :=
  {| a_ref := atomic_set {| counter := garbage |} 0; a_noDelete := false |}.

(** What is left of the object. *)
Inductive a_object : Type :=
| a_Alive (s : AtomicShared)
| a_Deleted.

(** [Shared::__incRef]: [assert(atomic_exchange_add(0, &_ref) >= 0);
    atomic_inc(&_ref);] *)
Definition a_incRef (s : AtomicShared) : exec AtomicShared :=
  let '(v, r) := atomic_exchange_add 0 (a_ref s) in
  if 0 <=? r
  then Done {| a_ref := atomic_inc v; a_noDelete := a_noDelete s |}
  else AssertionFailed.

(** [Shared::__decRef]: [assert(atomic_exchange_add(0, &_ref) > 0);
    if (atomic_dec_and_test(&_ref) && !_noDelete) { delete this; }] *)
Definition a_decRef (s : AtomicShared) : exec a_object :=
  let '(v, r) := atomic_exchange_add 0 (a_ref s) in
  if 0 <? r
  then
    let '(v', zero) := atomic_dec_and_test v in
    if zero && negb (a_noDelete s)
    then Done a_Deleted
    else Done (a_Alive {| a_ref := v'; a_noDelete := a_noDelete s |})
  else AssertionFailed.

(** [Shared::__getRef]: [return atomic_exchange_add(0, &_ref);] *)
Definition a_getRef (s : AtomicShared) : AtomicShared * Z :=
  let '(v, r) := atomic_exchange_add 0 (a_ref s) in
  ({| a_ref := v; a_noDelete := a_noDelete s |}, r).

(** [Shared::__setNoDelete] *)
Definition a_setNoDelete (b : bool) (s : AtomicShared) : AtomicShared :=
  {| a_ref := a_ref s; a_noDelete := b |}.

(** The [SimpleShared] with the same count and flag. *)
Definition simple (s : AtomicShared) : SimpleShared :=
  {| _ref := counter (a_ref s); _noDelete := a_noDelete s |}.

Definition simple_object (o : a_object) : object :=
  match o with
  | a_Alive s => Alive (simple s)
  | a_Deleted => Deleted
  end.

Definition exec_map {A B : Type} (f : A -> B) (r : exec A) : exec B :=
  match r with
  | Done a => Done (f a)
  | AssertionFailed => AssertionFailed
  end.

End Atomic.

(** ** Sequences of calls on a [SimpleShared] *)

Module RefCounting.

Import Shared.

(** [n] calls of [__incRef]. *)
Fixpoint incRef_n (n : nat) (s : SimpleShared) : exec SimpleShared :=
  match n with
  | O => Done s
  | S n' =>
      match __incRef s with
      | Done s' => incRef_n n' s'
      | AssertionFailed => AssertionFailed
      end
  end.

(** [n] calls of [__decRef]; the calls end when the object is deleted or
    an assertion fails. *)
Fixpoint decRef_n (n : nat) (s : SimpleShared) : exec object :=
  match n with
  | O => Done (Alive s)
  | S n' =>
      match __decRef s with
      | Done (Alive s') => decRef_n n' s'
      | other => other
      end
  end.

End RefCounting.

(** ** More concrete environments *)

Module ScenarioMore.

Import IceBox Scenario.

(** The three services with given outcomes of the adapter, of the
    library and of the services. *)
Definition services_with (create activate wait : outcome)
           (load : string -> bool) (init start stop : nat -> outcome)
  : Env Props :=
  {| createObjectAdapterFromProperty := create;
     adapter_add := Returns;
     adapter_activate := activate;
     waitForShutdown := wait;
     server_properties := server_properties
                            (three_services (fun _ => Returns)
                                            (fun _ => Returns));
     getCommandLineOptions := ["--Ice.Trace=1"; "--Third.y=2"];
     createProperties := fun _ => [];
     parseCommandLineOptions := parse_options;
     loadEntryPoint := load;
     getErrorMessage := fun _ => "no such file";
     factory := fun _ _ => Returns;
     failure_ice_name := "IceBox::FailureException";
     service_init := fun n _ _ _ => init n;
     service_start := start;
     service_stop := stop |}.

Definition ok (_ : nat) : outcome := Returns.

(** No library can be loaded. *)
Definition load_fails : Env Props :=
  services_with Returns Returns Returns (fun _ => false) ok ok ok.

(** The library of the second service, [Middle], cannot be loaded. *)
Definition middle_load_fails : Env Props :=
  services_with Returns Returns Returns
                (fun ep => negb (String.eqb ep "libM:create")) ok ok ok.

(** The adapter cannot be created. *)
Definition no_adapter : Env Props :=
  services_with (Raises (Ice (OtherException "Ice::SocketException"
                                             "address in use")))
                Returns Returns (fun _ => true) ok ok ok.

(** [waitForShutdown] throws. *)
Definition wait_fails : Env Props :=
  services_with Returns Returns
                (Raises (Ice (OtherException "Ice::CommunicatorDestroyedException"
                                             "communicator destroyed")))
                (fun _ => true) ok ok ok.

(** The [start] of the second service throws something that is not an
    [Ice::Exception]. *)
Definition middle_start_foreign : Env Props :=
  services_with Returns Returns Returns (fun _ => true) ok
                (fun n => if Nat.eqb n 1 then Raises NonIce else Returns) ok.

(** The [stop] of the second service throws something that is not an
    [Ice::Exception]. *)
Definition middle_stop_foreign : Env Props :=
  services_with Returns Returns Returns (fun _ => true) ok ok
                (fun n => if Nat.eqb n 1 then Raises NonIce else Returns).


End ScenarioMore.

(** ** Notions used in the further statements about the manager *)

Module Lifecycle.

Import IceBox.

Section WithProperties.

Context {Properties : Type}.

(** What the handlers of [run], lines 167-180, send to the logger for the
    exception they catch. *)
Definition handler_message (ex : Exception) : string :=
  match ex with
  | FailureException reason => reason
  | OtherException _ printed => ("ServiceManager: " ++ printed)%string
  end.

(** Events among which no service is started or stopped and nothing is
    logged. *)
Definition silent (evs : list (event Properties)) : Prop :=
  started evs = [] /\ stopped evs = [] /\ errors evs = [].

(** Whenever [m] returns, [P] holds of what it returns and of the state
    it leaves. *)
Definition returns_in {A : Type} (P : A -> State Properties -> Prop)
           (m : M Properties A) : Prop :=
  forall st a st', m st = (Normal a, st') -> P a st'.

(** [P] holds of the state that [m] leaves, however it ends, whenever
    it holds of the state [m] is run in. *)
Definition preserves {A : Type} (P : State Properties -> Prop)
           (m : M Properties A) : Prop :=
  forall st, P st -> P (snd (m st)).

Variable env : Env Properties.

(** The [init] of service object [h] has been called and has returned. *)
Definition init_returned (tr : list (event Properties)) (h : nat) : Prop :=
  exists name properties args,
    In (EvInit h name properties args) tr /\
    service_init env h name properties args = Returns.

(** What holds between the events seen so far, the Registry and the
    number of service objects created: no service has been stopped
    twice; the Registry holds a service once, and none that has been
    stopped; a service that the Registry holds, or that has been stopped
    or started, is one whose [init] has returned; and [init] has only
    been called on the services created. *)
Definition lifecycle (tr : list (event Properties))
           (m : StdMap.map ServiceInfo) (created : nat) : Prop :=
  NoDup (stopped tr) /\
  NoDup (handles m) /\
  (forall h, In h (handles m) -> ~ In h (stopped tr)) /\
  (forall h, In h (handles m) \/ In h (stopped tr) \/ In h (started tr) ->
             init_returned tr h) /\
  (forall h, In h (List.map fst (initialized tr)) -> h < created).

(** Every service whose [init] has returned is held by the Registry or
    has been stopped. *)
Definition none_dropped (tr : list (event Properties))
           (m : StdMap.map ServiceInfo) : Prop :=
  forall h, init_returned tr h -> In h (handles m) \/ In h (stopped tr).

(** The invariant of the manager; with [complete], no service has been
    dropped either. *)
Definition lifecycle_inv (complete : bool) (st : State Properties) : Prop :=
  lifecycle (trace st) (_services st) (next_service st) /\
  (complete = true -> none_dropped (trace st) (_services st)).

End WithProperties.

End Lifecycle.

(* ================================================================== *)
(** * Part II: lemmas and theorems                                     *)
(* ================================================================== *)

(** ** Reference counting *)

Module SharedFacts.

Import Shared.
Local Open Scope Z_scope.

Lemma wrap_int_id (z : Z) : is_int z -> wrap_int z = z.
Proof.
  unfold is_int, wrap_int, INT_MIN, INT_MAX. intros H.
  rewrite Z.mod_small; lia.
Qed.

Lemma wrap_int_overflow : wrap_int (INT_MAX + 1) = INT_MIN.
Proof. reflexivity. Qed.

Lemma incRef_in_range (s : SimpleShared) :
  0 <= _ref s < INT_MAX ->
  __incRef s = Done {| _ref := _ref s + 1; _noDelete := _noDelete s |}.
Proof.
  intros H. unfold __incRef.
  destruct (Z.leb_spec 0 (_ref s)) as [_|Hneg]; [|lia].
  rewrite wrap_int_id; [reflexivity|].
  unfold is_int, INT_MIN, INT_MAX in *. lia.
Qed.

Lemma decRef_in_range (s : SimpleShared) :
  0 < _ref s <= INT_MAX ->
  __decRef s =
    if (_ref s =? 1) && negb (_noDelete s)
    then Done Deleted
    else Done (Alive {| _ref := _ref s - 1; _noDelete := _noDelete s |}).
Proof.
  intros H. unfold __decRef.
  destruct (Z.ltb_spec 0 (_ref s)) as [_|Hneg]; [|lia].
  cbv zeta. rewrite wrap_int_id by (unfold is_int, INT_MIN, INT_MAX in *; lia).
  destruct (Z.eqb_spec (_ref s - 1) 0) as [E|E];
    destruct (Z.eqb_spec (_ref s) 1) as [E1|E1]; try lia;
    destruct (_noDelete s); reflexivity.
Qed.

(** C10, as amended: as long as the count stays below [INT_MAX],
    [__incRef] adds exactly one; [__decRef] on a positive count takes
    exactly one away and deletes the object exactly when the count
    reaches zero with [_noDelete] false; and for every count [n] with
    [1 <= n < INT_MAX], [__incRef] followed by [__decRef] gives back the
    same live object with [__getRef] unchanged. *)
Theorem C10_refcount_below_INT_MAX (s : SimpleShared) :
  is_int (_ref s) ->
  (0 <= _ref s < INT_MAX ->
   exists s', __incRef s = Done s' /\ __getRef s' = __getRef s + 1 /\
              _noDelete s' = _noDelete s) /\
  (0 < _ref s ->
   exists o, __decRef s = Done o /\
             (o = Deleted <-> (__getRef s - 1 = 0 /\ _noDelete s = false)) /\
             (forall s', o = Alive s' ->
                         __getRef s' = __getRef s - 1 /\
                         _noDelete s' = _noDelete s)) /\
  (1 <= _ref s < INT_MAX ->
   incRef_then_decRef s = Done (Alive s) /\
   exists s', __incRef s = Done s' /\ __decRef s' = Done (Alive s)).
Proof.
  intros Hint. split; [|split].
  - intros H. eexists. rewrite incRef_in_range by assumption.
    split; [reflexivity|]. split; reflexivity.
  - intros H. unfold is_int in Hint.
    rewrite decRef_in_range by lia. unfold __getRef.
    destruct (Z.eqb_spec (_ref s) 1) as [E|E]; destruct (_noDelete s); cbn.
    + eexists; split; [reflexivity|]. split.
      * split; [discriminate|]. intros [_ F]; discriminate.
      * intros s' Hs'. inversion Hs'; subst; cbn. split; reflexivity.
    + eexists; split; [reflexivity|]. split.
      * split; [intros _; split; [lia|reflexivity]|reflexivity].
      * intros s' Hs'. discriminate.
    + eexists; split; [reflexivity|]. split.
      * split; [discriminate|]. intros [_ F]; discriminate.
      * intros s' Hs'. inversion Hs'; subst; cbn. split; reflexivity.
    + eexists; split; [reflexivity|]. split.
      * split; [discriminate|]. intros [F _]; lia.
      * intros s' Hs'. inversion Hs'; subst; cbn. split; reflexivity.
  - intros H.
    assert (Hdec : __decRef {| _ref := _ref s + 1; _noDelete := _noDelete s |}
                   = Done (Alive s)).
    { rewrite decRef_in_range by (cbn; unfold INT_MAX in *; lia). cbn.
      destruct (Z.eqb_spec (_ref s + 1) 1) as [E|E]; [lia|]. cbn.
      replace (_ref s + 1 - 1) with (_ref s) by lia.
      destruct s; reflexivity. }
    assert (Hinc : 0 <= _ref s < INT_MAX) by lia.
    split.
    + unfold incRef_then_decRef. rewrite incRef_in_range by exact Hinc.
      exact Hdec.
    + eexists. rewrite incRef_in_range by exact Hinc.
      split; [reflexivity|exact Hdec].
Qed.

Lemma C10_refcount_witness :
  incRef_then_decRef {| _ref := 1; _noDelete := false |}
  = Done (Alive {| _ref := 1; _noDelete := false |}).
Proof.
  refine (proj1 (proj2 (proj2
    (C10_refcount_below_INT_MAX {| _ref := 1; _noDelete := false |} _)) _)).
  - unfold is_int, INT_MIN, INT_MAX; simpl; lia.
  - unfold INT_MAX; simpl; lia.
Defined.

(** At the count [INT_MAX], which is [>= 1], [__incRef] does not add one:
    no [int] holds [INT_MAX + 1]; the count wraps to [INT_MIN], and the
    [__decRef] that follows stops at its assertion. *)
Lemma C10_counterexample_INT_MAX :
  let s := {| _ref := INT_MAX; _noDelete := false |} in
  1 <= __getRef s /\ is_int (__getRef s) /\
  ~ is_int (__getRef s + 1) /\
  (exists s', __incRef s = Done s' /\ __getRef s' = INT_MIN /\
              __getRef s' <> __getRef s + 1) /\
  incRef_then_decRef s = AssertionFailed.
Proof.
  cbv zeta. split; [unfold __getRef, INT_MAX; simpl; lia|].
  split; [unfold is_int, __getRef, INT_MIN, INT_MAX; simpl; lia|].
  split; [unfold is_int, __getRef, INT_MIN, INT_MAX; simpl; lia|].
  split; [|reflexivity].
  eexists. split; [reflexivity|]. split; [reflexivity|].
  vm_compute. discriminate.
Qed.

End SharedFacts.

(** ** Strings *)

Module StrFacts.

Import Str.

Lemma append_empty_r (s : string) : (s ++ "")%string = s.
Proof. induction s as [|c s IH]; cbn; [reflexivity|now rewrite IH]. Qed.

Lemma append_assoc (a b c : string) :
  ((a ++ b) ++ c)%string = (a ++ (b ++ c))%string.
Proof. induction a as [|x a IH]; cbn; [reflexivity|now rewrite IH]. Qed.

Lemma length_append (a b : string) :
  String.length (a ++ b) = String.length a + String.length b.
Proof. induction a as [|x a IH]; cbn; [reflexivity|now rewrite IH]. Qed.

Lemma skip_0 (s : string) : skip 0 s = s.
Proof. destruct s; reflexivity. Qed.

Lemma skip_append (pre rest : string) :
  skip (String.length pre) (pre ++ rest) = rest.
Proof.
  induction pre as [|c pre IH]; cbn; [reflexivity|exact IH].
Qed.

Lemma skip_add (a b : nat) (s : string) : skip (a + b) s = skip b (skip a s).
Proof.
  revert s. induction a as [|a IH]; intros s; cbn.
  - reflexivity.
  - destruct s as [|c s]; [destruct b; reflexivity|apply IH].
Qed.

Lemma length_skip (n : nat) (s : string) :
  String.length (skip n s) = String.length s - n.
Proof.
  revert s. induction n as [|n IH]; intros s.
  - cbn. lia.
  - destruct s as [|c s]; cbn; [reflexivity|apply IH].
Qed.

Lemma substring_all (s : string) : substring 0 (String.length s) s = s.
Proof. induction s as [|c s IH]; cbn; [reflexivity|now rewrite IH]. Qed.

Lemma substring_prefix (pre rest : string) :
  substring 0 (String.length pre) (pre ++ rest) = pre.
Proof.
  induction pre as [|c pre IH]; cbn.
  - destruct rest; reflexivity.
  - now rewrite IH.
Qed.

Lemma substring_skip (n m : nat) (s : string) :
  substring n m s = substring 0 m (skip n s).
Proof.
  revert s. induction n as [|n IH]; intros s.
  - reflexivity.
  - destruct s as [|c s]; cbn; [destruct m; reflexivity|apply IH].
Qed.

Lemma substr_from_skip (s : string) (pos : nat) :
  substr_from s pos = skip pos s.
Proof.
  unfold substr_from. rewrite substring_skip, <- length_skip.
  apply substring_all.
Qed.

(** What a successful [scan] says about the string. *)
Lemma scan_Some (p : ascii -> bool) (s : string) (i j : nat) :
  scan p s i = Some j ->
  exists pre c post,
    s = (pre ++ String c post)%string /\ j = i + String.length pre /\
    forall_chars (fun x => negb (p x)) pre = true /\ p c = true.
Proof.
  revert i. induction s as [|c s IH]; intros i H; cbn in H; [discriminate|].
  destruct (p c) eqn:Hc.
  - inversion H; subst. exists EmptyString, c, s. cbn. repeat split; auto.
  - destruct (IH _ H) as (pre & d & post & -> & -> & Hpre & Hd).
    exists (String c pre), d, post. cbn. rewrite Hc, Hpre.
    repeat split; auto; lia.
Qed.

Lemma scan_None (p : ascii -> bool) (s : string) (i : nat) :
  scan p s i = None -> forall_chars (fun x => negb (p x)) s = true.
Proof.
  revert i. induction s as [|c s IH]; intros i H; cbn in *; [reflexivity|].
  destruct (p c); [discriminate|]. cbn. eauto.
Qed.

Lemma forall_chars_ext (p q : ascii -> bool) (s : string) :
  (forall c, p c = q c) -> forall_chars p s = forall_chars q s.
Proof.
  intros E. induction s as [|c s IH]; cbn; [reflexivity|].
  now rewrite E, IH.
Qed.

(** [s.find(pat) == 0] says that [s] begins with [pat]. *)
Lemma find_is_0_prefix (s pat : string) : find_is_0 s pat = prefix pat s.
Proof.
  unfold find_is_0, find.
  destruct s as [|c s]; destruct pat as [|d pat]; try reflexivity.
  cbn [index]. destruct (prefix (String d pat) (String c s)) eqn:E.
  - reflexivity.
  - destruct (index 0 (String d pat) s); reflexivity.
Qed.

End StrFacts.

(** ** Tokenization of a service value *)

Module DescriptorFacts.

Import Str StrFacts Descriptor.

Lemma tokens_from_word (pre rest cur : string) :
  forall_chars not_separator pre = true ->
  tokens_from (pre ++ rest) cur = tokens_from rest (cur ++ pre).
Proof.
  revert cur. induction pre as [|c pre IH]; intros cur H;
    cbn [tokens_from append forall_chars] in *.
  - now rewrite append_empty_r.
  - apply andb_true_iff in H as [Hc Hpre]. unfold not_separator in Hc.
    apply negb_true_iff in Hc. rewrite Hc, IH by assumption.
    now rewrite append_assoc.
Qed.

Lemma tokens_from_gap (pre rest : string) :
  forall_chars is_separator pre = true ->
  tokens_from (pre ++ rest) "" = tokens_from rest "".
Proof.
  induction pre as [|c pre IH]; intros H;
    cbn [tokens_from append forall_chars] in *; [reflexivity|].
  apply andb_true_iff in H as [Hc Hpre]. rewrite Hc. cbn [close_token empty]. auto.
Qed.

Lemma forall_chars_not_not (s : string) :
  forall_chars (fun x => negb (negb (mem_char x separators))) s
  = forall_chars is_separator s.
Proof. apply forall_chars_ext. intros c. apply negb_involutive. Qed.

(** A word followed by a separator: the word is the first token. *)
Lemma spec_tokens_word_sep (c : ascii) (pre post : string) (d : ascii) :
  forall_chars not_separator (String c pre) = true ->
  is_separator d = true ->
  spec_tokens (String c pre ++ String d post)
  = String c pre :: spec_tokens post.
Proof.
  intros Hw Hd. unfold spec_tokens.
  rewrite tokens_from_word by assumption.
  cbn [append tokens_from]. rewrite Hd. reflexivity.
Qed.

(** A string without separators is its own single token. *)
Lemma spec_tokens_word (c : ascii) (s : string) :
  forall_chars not_separator (String c s) = true ->
  spec_tokens (String c s) = [String c s].
Proof.
  intros Hw. unfold spec_tokens.
  rewrite <- (append_empty_r (String c s)) at 1.
  rewrite tokens_from_word by assumption. reflexivity.
Qed.

(** The tokens after a separator, as [find_first_not_of] sees them. *)
Lemma spec_tokens_after_gap (value : string) (e : nat) (d : ascii) (post : string) :
  skip e value = String d post ->
  is_separator d = true ->
  match find_first_not_of value separators e with
  | None => spec_tokens post = []
  | Some b =>
      exists c s, skip b value = String c s /\ not_separator c = true /\
                  e < b /\ spec_tokens post = spec_tokens (String c s)
  end.
Proof.
  intros Hs Hd. unfold find_first_not_of. rewrite Hs.
  destruct (scan _ (String d post) e) as [b|] eqn:Hscan.
  - apply scan_Some in Hscan as (pre & c & s & E & -> & Hpre & Hc).
    rewrite forall_chars_not_not in Hpre.
    destruct pre as [|d' pre].
    { cbn in E. inversion E; subst. unfold is_separator in Hd.
      rewrite Hd in Hc. discriminate. }
    cbn in E. inversion E; subst d' post. clear E.
    exists c, s. split; [|split; [exact Hc|split]].
    + rewrite skip_add, Hs.
      change (String d (pre ++ String c s))
        with (String d pre ++ String c s)%string.
      apply skip_append.
    + cbn. lia.
    + cbn in Hpre. apply andb_true_iff in Hpre as [_ Hpre].
      unfold spec_tokens. apply tokens_from_gap. exact Hpre.
  - apply scan_None in Hscan. rewrite forall_chars_not_not in Hscan.
    cbn in Hscan. apply andb_true_iff in Hscan as [_ Hpost].
    unfold spec_tokens. rewrite <- (append_empty_r post).
    rewrite tokens_from_gap by assumption. reflexivity.
Qed.

(** What [find_first_of] says at the start of a word. *)
Lemma word_at (value : string) (b : nat) (c : ascii) (s : string) :
  skip b value = String c s ->
  not_separator c = true ->
  match find_first_of value separators b with
  | None =>
      substr_from value b = String c s /\
      spec_tokens (String c s) = [String c s]
  | Some e =>
      exists pre d post,
        String c s = (String c pre ++ String d post)%string /\
        substr value b (e - b) = String c pre /\
        skip e value = String d post /\ is_separator d = true /\
        b < e /\
        spec_tokens (String c s) = String c pre :: spec_tokens post
  end.
Proof.
  intros Hs Hc. unfold find_first_of. rewrite Hs.
  destruct (scan _ (String c s) b) as [e|] eqn:Hscan.
  - apply scan_Some in Hscan as (pre & d & post & E & -> & Hpre & Hd).
    destruct pre as [|c' pre].
    { cbn in E. inversion E; subst. unfold not_separator, is_separator in Hc.
      rewrite Hd in Hc. discriminate. }
    cbn in E. inversion E; subst c' s. clear E.
    exists pre, d, post.
    assert (Hw : forall_chars not_separator (String c pre) = true)
      by exact Hpre.
    split; [reflexivity|]. split; [|split; [|split; [exact Hd|split]]].
    + unfold substr. rewrite substring_skip, Hs.
      replace (b + String.length (String c pre) - b)
        with (String.length (String c pre)) by lia.
      change (String c (pre ++ String d post))
        with (String c pre ++ String d post)%string.
      apply substring_prefix.
    + rewrite skip_add, Hs.
      change (String c (pre ++ String d post))
        with (String c pre ++ String d post)%string.
      apply skip_append.
    + cbn. lia.
    + change (String c (pre ++ String d post))
        with (String c pre ++ String d post)%string.
      apply spec_tokens_word_sep; assumption.
  - apply scan_None in Hscan. split.
    + rewrite substr_from_skip. exact Hs.
    + apply spec_tokens_word. exact Hscan.
Qed.

(** The loop of lines 96-109, started at the first character of a word,
    appends exactly the tokens of the rest of the value, and the fuel
    [String.length value] is enough for it. *)
Lemma parse_args_tokens (fuel : nat) (value : string) :
  forall (b : nat) (c : ascii) (s : string) (args : StringSeq),
    skip b value = String c s ->
    not_separator c = true ->
    String.length (String c s) <= fuel ->
    parse_args fuel value (Some b) args
    = Some (args ++ spec_tokens (String c s)).
Proof.
  induction fuel as [|fuel IH]; intros b c s args Hs Hc Hfuel.
  - cbn in Hfuel. lia.
  - cbn [parse_args].
    pose proof (word_at value b c s Hs Hc) as Hword.
    destruct (find_first_of value separators b) as [e|].
    + destruct Hword as (pre & d & post & Hsplit & Hsub & Hse & Hd & Hlt & Htok).
      rewrite Hsub, Htok.
      pose proof (spec_tokens_after_gap value e d post Hse Hd) as Hgap.
      destruct (find_first_not_of value separators e) as [b'|].
      * destruct Hgap as (c' & s' & Hs' & Hc' & Hlt' & Htok').
        rewrite (IH b' c' s' _ Hs' Hc').
        { rewrite Htok', <- app_assoc. reflexivity. }
        rewrite <- Hs', length_skip.
        rewrite <- Hs, length_skip in Hfuel. lia.
      * rewrite Hgap. destruct fuel; reflexivity.
    + destruct Hword as [Hsub Htok]. rewrite Hsub, Htok.
      destruct fuel; reflexivity.
Qed.

(** The character found by a scan of the suffix at [pos]. *)
Lemma scan_skip_Some (p : ascii -> bool) (value : string) (pos j : nat) :
  scan p (skip pos value) pos = Some j ->
  pos <= j < String.length value /\
  exists c rest, skip j value = String c rest /\ p c = true.
Proof.
  intros H. apply scan_Some in H as (pre & c & post & E & -> & _ & Hc).
  assert (Hlen : String.length (skip pos value)
                 = String.length pre + S (String.length post)).
  { rewrite E, length_append. reflexivity. }
  rewrite length_skip in Hlen. split; [lia|].
  exists c, post. split; [|exact Hc].
  rewrite skip_add, E. apply skip_append.
Qed.

(** The loop always comes to an end within [String.length value - beg]
    iterations, whatever the position inside the value it starts from. *)
Lemma parse_args_total (fuel : nat) (value : string) :
  forall (beg : size_type) (args : StringSeq),
    match beg with
    | None => True
    | Some b => b < String.length value /\ String.length value - b <= fuel
    end ->
    exists args', parse_args fuel value beg args = Some args'.
Proof.
  induction fuel as [|fuel IH]; intros [b|] args H;
    try (eexists; reflexivity).
  - lia.
  - cbn [parse_args]. destruct H as [Hb Hfuel]. unfold find_first_of.
    destruct (scan _ (skip b value) b) as [e|] eqn:He.
    + apply scan_skip_Some in He as (Hbe & c & rest & Hskip & Hc).
      apply IH. unfold find_first_not_of.
      destruct (scan _ (skip e value) e) as [b'|] eqn:Hb'; [|exact I].
      apply scan_skip_Some in Hb' as (Heb & c' & rest' & Hskip' & Hc').
      split; [lia|].
      assert (b' <> b); [|lia].
      intros ->. assert (e = b) by lia. subst e.
      rewrite Hskip in Hskip'. inversion Hskip'; subst c' rest'.
      rewrite Hc in Hc'. discriminate.
    + apply IH. exact I.
Qed.

(** Lines 85-110 produce a descriptor for every value. *)
Lemma parse_value_total (value : string) :
  exists entryPoint args, parse_value value = Some (entryPoint, args).
Proof.
  unfold parse_value, find_first_of. cbn [skip].
  destruct (scan _ value 0) as [pos|] eqn:Hpos; [|eauto].
  destruct (parse_args_total (String.length value) value
              (find_first_not_of value separators pos) []) as [args' ->];
    [|eauto].
  unfold find_first_not_of.
  destruct (scan _ (skip pos value) pos) as [b|] eqn:Hb; [|exact I].
  apply scan_skip_Some in Hb as (Hpb & _). lia.
Qed.

(** C3, as amended: for every value that begins with a character other
    than space, tab and newline, lines 85-110 yield the same
    (entryPoint, args) as splitting the value on maximal runs of space,
    tab and newline and taking the first token as entry point and the
    remaining tokens, in order, as args. *)
Theorem C3_parse_value_tokens (c : ascii) (s : string) :
  is_separator c = false ->
  exists entryPoint args,
    parse_value (String c s) = Some (entryPoint, args) /\
    spec_parse_value (String c s) = Some (entryPoint, args).
Proof.
  intros Hc.
  assert (Hc' : not_separator c = true)
    by (unfold not_separator; now rewrite Hc).
  pose proof (word_at (String c s) 0 c s eq_refl Hc') as Hword.
  unfold parse_value, spec_parse_value.
  destruct (find_first_of (String c s) separators 0) as [pos|].
  - destruct Hword as (pre & d & post & Hsplit & Hsub & Hse & Hd & Hlt & Htok).
    rewrite Htok. rewrite Nat.sub_0_r in Hsub. rewrite Hsub.
    pose proof (spec_tokens_after_gap _ pos d post Hse Hd) as Hgap.
    destruct (find_first_not_of (String c s) separators pos) as [b|].
    + destruct Hgap as (c' & s' & Hs' & Hc'' & Hlt' & Htok').
      rewrite (parse_args_tokens _ _ b c' s' [] Hs' Hc'').
      * rewrite Htok'. cbn [app]. eauto.
      * rewrite <- Hs', length_skip. lia.
    + rewrite Hgap. destruct (String.length (String c s)); cbn; eauto.
  - destruct Hword as [_ Htok]. rewrite Htok. eauto.
Qed.

Lemma C3_parse_value_witness :
  exists entryPoint args,
    parse_value "libB:create  --Beta.x=1" = Some (entryPoint, args) /\
    spec_parse_value "libB:create  --Beta.x=1" = Some (entryPoint, args).
Proof.
  apply (C3_parse_value_tokens "l" "ibB:create  --Beta.x=1").
  reflexivity.
Defined.

(** A value with a leading separator: the code takes the empty string as
    entry point and every token as an argument, while the first token of
    the split is [a]. *)
Lemma C3_counterexample_leading_space :
  parse_value " a b" = Some ("", ["a"; "b"]) /\
  spec_parse_value " a b" = Some ("a", ["b"]) /\
  parse_value " a b" <> spec_parse_value " a b".
Proof.
  split; [reflexivity|]. split; [reflexivity|]. vm_compute. discriminate.
Qed.

(** The empty value has no token at all, and the code still yields the
    empty entry point. *)
Lemma parse_value_empty :
  parse_value "" = Some ("", []) /\ spec_parse_value "" = None.
Proof. split; reflexivity. Qed.

End DescriptorFacts.

(** ** [std::map] *)

Module StdMapFacts.

Import StdMap.

Lemma key_lt_irrefl (k : string) : ~ key_lt k k.
Proof.
  exact (@StrictOrder_Irreflexive _ _ String_as_OT.lt_strorder k).
Qed.

Lemma key_lt_trans (a b c : string) : key_lt a b -> key_lt b c -> key_lt a c.
Proof.
  exact (@StrictOrder_Transitive _ _ String_as_OT.lt_strorder a b c).
Qed.

Lemma key_compare_spec (a b : string) :
  CompareSpec (a = b) (key_lt a b) (key_lt b a) (key_compare a b).
Proof. exact (String_as_OT.compare_spec a b). Qed.

Lemma key_compare_refl (k : string) : key_compare k k = Eq.
Proof.
  destruct (key_compare_spec k k) as [_|H|H]; [reflexivity| |];
    exfalso; exact (key_lt_irrefl k H).
Qed.

Lemma key_compare_eq (a b : string) : key_compare a b = Eq -> a = b.
Proof.
  intros H. destruct (key_compare_spec a b) as [E|L|L];
    [exact E|discriminate|discriminate].
Qed.

Lemma key_lt_gt (a b : string) : key_lt a b -> key_compare b a = Gt.
Proof.
  intros H. destruct (key_compare_spec b a) as [E|L|L].
  - subst. exfalso. exact (key_lt_irrefl a H).
  - exfalso. exact (key_lt_irrefl a (key_lt_trans _ _ _ H L)).
  - reflexivity.
Qed.

Lemma key_gt_lt (a b : string) : key_compare a b = Gt -> key_lt b a.
Proof.
  intros H. destruct (key_compare_spec a b) as [E|L|L];
    [discriminate|discriminate|exact L].
Qed.

(** A common prefix does not change the order of two keys. *)
Lemma key_compare_append (p a b : string) :
  key_compare (p ++ a) (p ++ b) = key_compare a b.
Proof.
  induction p as [|c p IH]; [reflexivity|].
  cbn [append]. unfold key_compare in *. cbn [String_as_OT.compare].
  destruct (Ascii_as_OT.compare_spec c c) as [_|H|H]; [exact IH| |];
    exfalso;
    exact (@StrictOrder_Irreflexive _ _ Ascii_as_OT.lt_strorder c H).
Qed.

Section Facts.

Context {V : Type}.
Implicit Types (m : map V) (k : string) (v : V).

Lemma sorted_cons k v m :
  sorted ((k, v) :: m) = true <-> above k m /\ sorted m = true.
Proof.
  revert k v. induction m as [|[k' v'] m IH]; intros k v.
  - cbn. split; [intros _; split; [constructor|reflexivity]|reflexivity].
  - cbn [sorted]. destruct (key_compare k k') eqn:E.
    + split; [discriminate|]. intros [Ha _]. inversion Ha; subst.
      unfold key_lt in *. cbn in *. congruence.
    + change (match m with
              | [] => true
              | (k'0, _) :: _ =>
                  match key_compare k' k'0 with
                  | Lt => sorted m
                  | _ => false
                  end
              end) with (sorted ((k', v') :: m)).
      split.
      * intros Hs. split; [|exact Hs].
        constructor; [exact E|].
        apply IH in Hs as [Ha _].
        eapply Forall_impl; [|exact Ha].
        intros e He. eapply key_lt_trans; eassumption.
      * intros [_ Hs]. exact Hs.
    + split; [discriminate|]. intros [Ha _]. inversion Ha; subst.
      unfold key_lt in *. cbn in *. congruence.
Qed.

Lemma sorted_tail k v m : sorted ((k, v) :: m) = true -> sorted m = true.
Proof. intros H. apply sorted_cons in H. tauto. Qed.

Lemma find_above k m : above k m -> find k m = None.
Proof.
  induction 1 as [|[k' v'] m Hk _ IH]; [reflexivity|].
  cbn in *. unfold key_lt in Hk. rewrite Hk. exact IH.
Qed.

Lemma erase_above k m : above k m -> erase k m = m.
Proof.
  induction 1 as [|[k' v'] m Hk _ IH]; [reflexivity|].
  cbn in *. unfold key_lt in Hk. rewrite Hk, IH. reflexivity.
Qed.

(** The first entry of a sorted map: found, erased, and followed by
    the first entry of the rest. *)
Lemma find_first k v m : find k ((k, v) :: m) = Some v.
Proof. cbn. now rewrite key_compare_refl. Qed.

Lemma erase_first k v m : erase k ((k, v) :: m) = m.
Proof. cbn. now rewrite key_compare_refl. Qed.

Lemma next_first k v m : next k ((k, v) :: m) = begin m.
Proof. cbn. now rewrite key_compare_refl. Qed.

Lemma find_assign k v m : find k (assign k v m) = Some v.
Proof.
  induction m as [|[k' v'] m IH]; cbn.
  - now rewrite key_compare_refl.
  - destruct (key_compare k k') eqn:E; cbn.
    + now rewrite key_compare_refl.
    + now rewrite key_compare_refl.
    + rewrite E. exact IH.
Qed.

Lemma below_app_sorted m1 k v m2 :
  sorted (m1 ++ (k, v) :: m2) = true -> below k m1.
Proof.
  induction m1 as [|[k' v'] m1 IH]; intros H; [constructor|].
  cbn [app] in H. apply sorted_cons in H as [Ha Hs].
  constructor; [|exact (IH Hs)].
  apply Forall_app in Ha as [_ Ha]. inversion Ha; subst. assumption.
Qed.

(** An assignment to a key above every key of the map adds the entry
    at the end of the iteration order. *)
Lemma assign_below k v m : below k m -> assign k v m = m ++ [(k, v)].
Proof.
  induction 1 as [|[k' v'] m Hk _ IH]; [reflexivity|].
  cbn in *. rewrite (key_lt_gt _ _ Hk), IH. reflexivity.
Qed.

Lemma above_assign k0 k v m :
  key_lt k0 k -> above k0 m -> above k0 (assign k v m).
Proof.
  intros Hk. induction 1 as [|[k' v'] m Hk' Hm IH]; cbn.
  - constructor; [exact Hk|constructor].
  - destruct (key_compare k k') eqn:E.
    + constructor; [exact Hk|exact Hm].
    + constructor; [exact Hk|]. constructor; assumption.
    + constructor; [exact Hk'|exact IH].
Qed.

Lemma sorted_assign k v m : sorted m = true -> sorted (assign k v m) = true.
Proof.
  induction m as [|[k' v'] m IH]; intros Hs; [reflexivity|].
  cbn [assign]. destruct (key_compare k k') eqn:E.
  - apply key_compare_eq in E. subst k'.
    apply sorted_cons in Hs. apply sorted_cons. exact Hs.
  - apply sorted_cons. split; [|exact Hs].
    apply sorted_cons in Hs as [Ha _].
    constructor; [exact E|].
    eapply Forall_impl; [|exact Ha].
    intros e He. eapply key_lt_trans; eassumption.
  - apply sorted_cons in Hs as [Ha Hs]. apply sorted_cons.
    split; [|exact (IH Hs)].
    apply above_assign; [apply key_gt_lt; exact E|exact Ha].
Qed.

Lemma sorted_of_list (l : list (string * V)) : sorted (of_list l) = true.
Proof.
  unfold of_list.
  assert (G : forall m, sorted m = true ->
              sorted (fold_left (fun m kv => assign (fst kv) (snd kv) m) l m)
              = true).
  { induction l as [|[k v] l IH]; intros m Hm; [exact Hm|].
    cbn. apply IH. apply sorted_assign. exact Hm. }
  apply G. reflexivity.
Qed.

Lemma keys_assign k v m (x : string) :
  In x (keys (assign k v m)) -> x = k \/ In x (keys m).
Proof.
  induction m as [|[k' v'] m IH]; cbn.
  - intros [H|[]]; auto.
  - destruct (key_compare k k'); cbn; intros [H|H]; auto.
    destruct (IH H); auto.
Qed.

Lemma keys_of_list (l : list (string * V)) (x : string) :
  In x (keys (of_list l)) -> In x (List.map fst l).
Proof.
  unfold of_list.
  assert (G : forall m,
             In x (keys (fold_left
                           (fun m kv => assign (fst kv) (snd kv) m) l m)) ->
             In x (keys m) \/ In x (List.map fst l)).
  { induction l as [|[k v] l IH]; intros m H; cbn in *; [auto|].
    destruct (IH _ H) as [H1|H1]; [|auto].
    apply keys_assign in H1 as [->|H1]; auto. }
  intros H. destruct (G [] H) as [[]|H1]. exact H1.
Qed.

(** After the entry of [k] is erased from a sorted map, [k] is not
    found. *)
Lemma find_erase k m : sorted m = true -> find k (erase k m) = None.
Proof.
  induction m as [|[k' v'] m IH]; intros Hs; [reflexivity|].
  cbn [erase]. destruct (key_compare k k') eqn:E.
  - apply key_compare_eq in E. subst k'.
    apply sorted_cons in Hs as [Ha _]. apply find_above. exact Ha.
  - cbn [find]. rewrite E. apply IH. eapply sorted_tail; eassumption.
  - cbn [find]. rewrite E. apply IH. eapply sorted_tail; eassumption.
Qed.

Lemma sorted_erase k m : sorted m = true -> sorted (erase k m) = true.
Proof.
  induction m as [|[k' v'] m IH]; intros Hs; [reflexivity|].
  apply sorted_cons in Hs as [Ha Hs].
  assert (Hk : above k' (erase k m)).
  { clear IH Hs. induction Ha as [|[k2 v2] m H2 Hm IH2]; cbn; [constructor|].
    destruct (key_compare k k2); [exact Hm| |];
      (constructor; [exact H2|exact IH2]). }
  cbn [erase]. destruct (key_compare k k'); [exact Hs| |];
    (apply sorted_cons; split; [exact Hk|exact (IH Hs)]).
Qed.

Lemma find_erase_other k k' m :
  k <> k' -> find k' (erase k m) = find k' m.
Proof.
  intros Hne. induction m as [|[k2 v2] m IH]; [reflexivity|].
  cbn [erase]. destruct (key_compare k k2) eqn:E.
  - apply key_compare_eq in E. subst k2. cbn [find].
    destruct (key_compare k' k) eqn:E'; [|reflexivity|reflexivity].
    apply key_compare_eq in E'. congruence.
  - cbn [find]. rewrite IH. reflexivity.
  - cbn [find]. rewrite IH. reflexivity.
Qed.

(** An assignment to a key that is present in a sorted map overwrites
    the value and leaves the keys as they are. *)
Lemma keys_assign_present k v v0 m :
  sorted m = true -> find k m = Some v0 -> keys (assign k v m) = keys m.
Proof.
  induction m as [|[k' v'] m IH]; intros Hs Hf; [discriminate|].
  cbn [assign find] in *. destruct (key_compare k k') eqn:E.
  - apply key_compare_eq in E. subst k'. reflexivity.
  - exfalso. apply sorted_cons in Hs as [Ha _].
    assert (Hak : above k m).
    { eapply Forall_impl; [|exact Ha].
      intros e He. eapply key_lt_trans; eassumption. }
    rewrite (find_above _ _ Hak) in Hf. discriminate.
  - cbn. f_equal. apply IH; [eapply sorted_tail; eassumption|exact Hf].
Qed.

Lemma assign_present_split k v v0 m :
  sorted m = true -> find k m = Some v0 ->
  exists m1 m2, m = m1 ++ (k, v0) :: m2 /\
                assign k v m = m1 ++ (k, v) :: m2.
Proof.
  induction m as [|[k' v'] m IH]; intros Hs Hf; [discriminate|].
  cbn [assign find] in *. destruct (key_compare k k') eqn:E.
  - apply key_compare_eq in E. subst k'. inversion Hf; subst v'.
    exists [], m. split; reflexivity.
  - exfalso. apply sorted_cons in Hs as [Ha _].
    assert (Hak : above k m).
    { eapply Forall_impl; [|exact Ha].
      intros e He. eapply key_lt_trans; eassumption. }
    rewrite (find_above _ _ Hak) in Hf. discriminate.
  - destruct (IH (sorted_tail _ _ _ Hs) Hf) as (m1 & m2 & -> & ->).
    exists ((k', v') :: m1), m2. split; reflexivity.
Qed.

End Facts.

End StdMapFacts.

(** ** The service manager *)

Module IceBoxFacts.

Import Str StrFacts StdMap StdMapFacts IceBox.

Section Facts.

Context {Properties : Type} (env : Env Properties).

Local Abbreviation State := (State Properties).
Local Abbreviation event := (event Properties).

(** *** The configuration composer *)

Lemma push_back_if_filter (test : string -> bool) (from to : StringSeq) :
  push_back_if test from to = to ++ filter test from.
Proof.
  unfold push_back_if. revert to.
  induction from as [|x from IH]; intros to; cbn.
  - now rewrite app_nil_r.
  - rewrite IH. destruct (test x); [|reflexivity].
    rewrite <- app_assoc. reflexivity.
Qed.

Lemma filter_all (l : StringSeq) : filter (fun _ => true) l = l.
Proof. induction l as [|x l IH]; cbn; [reflexivity|now rewrite IH]. Qed.

(** The three loops of lines 200-219 build the argument list of the
    specification. *)
Lemma serviceArgs_spec (options argv : StringSeq) (name : string)
      (args : StringSeq) :
  push_back_if (fun a => find_is_0 a ("--" ++ name ++ "."))
    argv
    (push_back_if (fun _ => true) args
       (push_back_if (fun o => find_is_0 o ("--" ++ name ++ "."))
          options []))
  = spec_serviceArgs options argv name args.
Proof.
  rewrite !push_back_if_filter, filter_all. cbn [app].
  unfold spec_serviceArgs. rewrite <- app_assoc.
  f_equal; [|f_equal]; apply filter_ext; intros a; apply find_is_0_prefix.
Qed.

(** *** [init], as one case analysis on what the collaborators do *)

Lemma init_eq (name entryPoint : string) (args : StringSeq) (st : State) :
  init env name entryPoint args st =
  let '(view, residual) :=
    spec_compose env (_options st) (_argv st) name args in
  let svc := next_service st in
  let lib := next_library st in
  let st1 := add_events [EvLoad lib entryPoint] (new_library st) in
  if loadEntryPoint env entryPoint then
    let st2 := add_events [EvFactory entryPoint] st1 in
    match factory env entryPoint svc with
    | Returns =>
        let st3 :=
          add_events [EvInit svc name view residual] (new_service st2) in
        match service_init env svc name view residual with
        | Returns =>
            (Normal svc,
             set_services
               (assign name {| service := svc; library := lib |}
                       (_services st)) st3)
        | Raises (Ice (FailureException reason)) =>
            (Throw (Ice (FailureException reason)), st3)
        | Raises (Ice ex) =>
            (Throw (FailureException_of (InitFailure env name ex)), st3)
        | Raises NonIce => (Throw NonIce, st3)
        end
    | Raises (Ice ex) =>
        (Throw (FailureException_of (EntryPointFailure env entryPoint ex)), st2)
    | Raises NonIce =>
        (Throw (FailureException_of (UnknownEntryPointFailure entryPoint)),
         st2)
    end
  else (Throw (FailureException_of (LoadFailure env entryPoint)), st1).
Proof.
  unfold init, bind at 1 2. unfold get at 1 2. cbv beta iota.
  rewrite serviceArgs_spec. unfold spec_compose.
  destruct (parseCommandLineOptions env _ "Ice" _) as [view1 rest1].
  destruct (parseCommandLineOptions env view1 name rest1) as [view residual].
  unfold emit, add_event, call, bind, get, modify, try_catch, ret, throw.
  cbv beta iota zeta. unfold LoadFailure.
  destruct (loadEntryPoint env entryPoint); cbv beta iota; [|reflexivity].
  cbn [next_service new_library add_events].
  destruct (factory env entryPoint (next_service st)) as [|[ex|]];
    cbv beta iota; try reflexivity.
  cbn [next_service new_library add_events new_service].
  destruct (service_init env (next_service st) name view residual)
    as [|[[reason|n p]|]]; reflexivity.
Qed.

(** *** States *)

Lemma add_events_add_events (a b : list event) (st : State) :
  add_events b (add_events a st) = add_events (a ++ b) st.
Proof. unfold add_events; cbn. now rewrite <- app_assoc. Qed.

Lemma add_events_nil (st : State) : add_events [] st = st.
Proof. destruct st; unfold add_events; cbn. now rewrite app_nil_r. Qed.

Lemma set_services_same (st : State) : set_services (_services st) st = st.
Proof. destruct st; reflexivity. Qed.

(** *** [stop] *)

Lemma stop_service_eq (service_name : name_ref) (info : ServiceInfo)
      (st : State) :
  stop_service env (ret tt) service_name info st =
  let st1 := add_events [EvStop (service info)] st in
  match service_stop env (service info) with
  | Returns => (Normal tt, st1)
  | Raises (Ice ex) =>
      match service_name with
      | Caller name =>
          (Throw (FailureException_of (StopFailure env name ex)), st1)
      | EntryKey _ => (Undefined, st1)
      end
  | Raises NonIce => (Throw NonIce, st1)
  end.
Proof.
  unfold stop_service, emit, add_event, call, bind, modify, try_catch,
    ret, throw, undefined.
  cbv beta iota zeta.
  destruct (service_stop env (service info)) as [|[ex|]]; try reflexivity.
  destruct service_name; reflexivity.
Qed.

Lemma stop_reentrant_eq (reentry : M Properties unit)
      (service_name : name_ref) (st : State) :
  stop_reentrant env reentry service_name st =
  match find (name_of_ref service_name) (_services st) with
  | None => (Abort, st)
  | Some info =>
      stop_service env reentry service_name info
                   (set_services
                      (erase (name_of_ref service_name) (_services st)) st)
  end.
Proof.
  unfold stop_reentrant, bind, get, modify, abort. cbv beta iota.
  destruct (find (name_of_ref service_name) (_services st)); reflexivity.
Qed.

Lemma stop_eq (service_name : name_ref) (st : State) :
  stop env service_name st =
  match find (name_of_ref service_name) (_services st) with
  | None => (Abort, st)
  | Some info =>
      stop_service env (ret tt) service_name info
                   (set_services
                      (erase (name_of_ref service_name) (_services st)) st)
  end.
Proof. apply stop_reentrant_eq. Qed.

(** *** [stopAll] *)

(** One turn of the loop at the first record of the map. The handler
    of [stopAll] is not reached: [stop], called with the key of the
    entry, can build no [FailureException]. *)
Lemma stopAll_loop_first (fuel : nat) (k : string) (info : ServiceInfo)
      (m : map ServiceInfo) (st : State) :
  _services st = (k, info) :: m ->
  stopAll_loop env (S fuel) (Some k) st =
  let st1 := add_events [EvStop (service info)] (set_services m st) in
  match service_stop env (service info) with
  | Returns => stopAll_loop env fuel (begin m) st1
  | Raises (Ice _) => (Undefined, st1)
  | Raises NonIce => (Throw NonIce, st1)
  end.
Proof.
  intros Hm. cbn [stopAll_loop]. unfold bind at 1. unfold get at 1.
  cbv beta iota. rewrite Hm, next_first.
  unfold bind, try_catch. rewrite stop_eq. cbn [name_of_ref].
  rewrite Hm, find_first, erase_first.
  rewrite stop_service_eq. cbv zeta.
  destruct (service_stop env (service info)) as [|[ex|]]; reflexivity.
Qed.

(** When the [stop] of every service returns, the loop stops every
    record, in iteration order, and leaves the map empty; as many turns
    as there are records are enough. *)
Lemma stopAll_loop_ok (m : map ServiceInfo) :
  forall (st : State) (fuel : nat),
    _services st = m ->
    List.length m <= fuel ->
    stops_return env m ->
    stopAll_loop env fuel (begin m) st
    = (Normal tt, add_events (stop_events m) (set_services [] st)).
Proof.
  induction m as [|[k info] m IH]; intros st fuel Hm Hfuel Hret.
  - cbn. rewrite add_events_nil, <- Hm, set_services_same.
    destruct fuel; reflexivity.
  - destruct fuel as [|fuel]; [cbn in Hfuel; lia|].
    cbn [begin]. rewrite (stopAll_loop_first _ _ _ _ _ Hm).
    inversion Hret as [|? ? Hhead Htail]; subst. cbn [snd] in Hhead.
    rewrite Hhead. cbv zeta.
    rewrite IH; [|reflexivity|cbn in Hfuel; lia|exact Htail].
    unfold stop_events. cbn [List.map snd].
    change (EvStop (service info)
              :: List.map (fun r => EvStop (service (snd r))) m)
      with ([@EvStop Properties (service info)]
              ++ List.map (fun r => EvStop (service (snd r))) m).
    rewrite <- add_events_add_events. reflexivity.
Qed.

Lemma stopAll_ok (st : State) :
  stops_return env (_services st) ->
  stopAll env st
  = (Normal tt,
     add_events (stop_events (_services st)) (set_services [] st)).
Proof.
  intros Hret. unfold stopAll, bind at 1. unfold get at 1. cbv beta iota.
  unfold bind at 1.
  rewrite (stopAll_loop_ok (_services st) st _ eq_refl (le_n _) Hret).
  reflexivity.
Qed.

(** Whenever [stopAll] returns, the map is empty: the assertion of line
    338 has been passed. *)
Lemma stopAll_returns_empty (st st' : State) :
  stopAll env st = (Normal tt, st') -> _services st' = [].
Proof.
  unfold stopAll, bind at 1. unfold get at 1. cbv beta iota.
  unfold bind at 1.
  destruct (stopAll_loop env _ _ st) as [[[]| | | |] st1]; try discriminate.
  unfold bind, get, ret, abort. cbv beta iota.
  destruct (_services st1) eqn:E; cbn; intros H; inversion H; subst.
  exact E.
Qed.

(** *** The invariant of the Registry

    The keys of [_services] stay in ascending order: it holds in the new
    manager and [init] and [stop] keep it. *)

Lemma sorted_new (argv : list string) :
  sorted (_services (ServiceManagerI_new env argv)) = true.
Proof. reflexivity. Qed.

Lemma init_keeps_sorted (name entryPoint : string) (args : StringSeq)
      (st : State) :
  sorted (_services st) = true ->
  sorted (_services (snd (init env name entryPoint args st))) = true.
Proof.
  intros Hs. rewrite init_eq.
  destruct (spec_compose env (_options st) (_argv st) name args)
    as [view residual].
  cbv zeta.
  destruct (loadEntryPoint env entryPoint); [|exact Hs].
  destruct (factory env entryPoint (next_service st)) as [|[ex|]];
    try exact Hs.
  destruct (service_init env (next_service st) name view residual)
    as [|[[reason|n p]|]]; try exact Hs.
  cbn [snd _services set_services]. apply sorted_assign. exact Hs.
Qed.

Lemma stop_keeps_sorted (service_name : name_ref) (st : State) :
  sorted (_services st) = true ->
  sorted (_services (snd (stop env service_name st))) = true.
Proof.
  intros Hs. rewrite stop_eq.
  destruct (find (name_of_ref service_name) (_services st)) as [info|];
    [|exact Hs].
  rewrite stop_service_eq. cbv zeta.
  destruct (service_stop env (service info)) as [|[ex|]];
    try destruct service_name;
    cbn [snd _services set_services add_events];
    apply sorted_erase; exact Hs.
Qed.

(** *** The loop that starts the services *)

Lemma start_services_cons (name : string) (info : ServiceInfo)
      (rest : map ServiceInfo) (st : State) :
  start_services env ((name, info) :: rest) st =
  let st1 := add_events [EvStart (service info)] st in
  match service_start env (service info) with
  | Returns => start_services env rest st1
  | Raises (Ice (FailureException reason)) =>
      (Throw (Ice (FailureException reason)), st1)
  | Raises (Ice ex) =>
      (Throw (FailureException_of (StartFailure env name ex)), st1)
  | Raises NonIce => (Throw NonIce, st1)
  end.
Proof.
  cbn [start_services].
  unfold emit, add_event, call, bind, modify, try_catch, ret, throw.
  cbv beta iota zeta.
  destruct (service_start env (service info)) as [|[[reason|n p]|]];
    reflexivity.
Qed.

(** The records whose [start] returns are passed one after the other. *)
Lemma start_services_app (pre rest : map ServiceInfo) (st : State) :
  Forall (fun r => service_start env (service (snd r)) = Returns) pre ->
  start_services env (pre ++ rest) st
  = start_services env rest (add_events (start_events pre) st).
Proof.
  intros H. revert st.
  induction H as [|[name info] pre Hhead _ IH]; intros st.
  - cbn. now rewrite add_events_nil.
  - cbn [app]. rewrite start_services_cons. cbn [snd] in Hhead.
    rewrite Hhead. cbv zeta. rewrite IH, add_events_add_events.
    reflexivity.
Qed.

Lemma start_services_ok (m : map ServiceInfo) (st : State) :
  Forall (fun r => service_start env (service (snd r)) = Returns) m ->
  start_services env m st = (Normal tt, add_events (start_events m) st).
Proof.
  intros H. rewrite <- (app_nil_r m) at 1.
  rewrite start_services_app by exact H. reflexivity.
Qed.

(** Whatever the services do, the loop calls [start] on a prefix of
    the records, in iteration order, and on all of them when it
    returns. *)
Lemma start_services_prefix (m : map ServiceInfo) :
  forall st : State,
  exists j, j <= List.length m /\
            snd (start_services env m st)
            = add_events (List.map (fun n => EvStart n)
                                   (firstn j (handles m))) st /\
            (fst (start_services env m st) = Normal tt ->
             j = List.length m).
Proof.
  induction m as [|[name info] m IH]; intros st.
  - exists 0. cbn. rewrite add_events_nil. auto.
  - rewrite start_services_cons. cbv zeta.
    destruct (service_start env (service info)) as [|[[reason|n p]|]].
    + destruct (IH (add_events [EvStart (service info)] st))
        as (j & Hj & Hst & Hn).
      exists (S j). split; [cbn; lia|]. split.
      * rewrite Hst, add_events_add_events. reflexivity.
      * intros H. rewrite (Hn H). reflexivity.
    + exists 1. split; [cbn; lia|]. split; [reflexivity|discriminate].
    + exists 1. split; [cbn; lia|]. split; [reflexivity|discriminate].
    + exists 1. split; [cbn; lia|]. split; [reflexivity|discriminate].
Qed.

(** *** What the traces show *)

Lemma started_app (a b : list event) :
  started (a ++ b) = started a ++ started b.
Proof. apply flat_map_app. Qed.

Lemma stopped_app (a b : list event) :
  stopped (a ++ b) = stopped a ++ stopped b.
Proof. apply flat_map_app. Qed.

Lemma initialized_app (a b : list event) :
  initialized (a ++ b) = initialized a ++ initialized b.
Proof. apply flat_map_app. Qed.

Lemma errors_app (a b : list event) :
  errors (a ++ b) = errors a ++ errors b.
Proof. apply flat_map_app. Qed.

Lemma stopped_stop_events (m : map ServiceInfo) :
  stopped (stop_events (Properties := Properties) m) = handles m.
Proof.
  induction m as [|[k info] m IH]; [reflexivity|].
  unfold stop_events, stopped, handles in *. cbn [List.map flat_map app snd].
  f_equal. exact IH.
Qed.

Lemma started_stop_events (m : map ServiceInfo) :
  started (stop_events (Properties := Properties) m) = [].
Proof. induction m as [|[k info] m IH]; [reflexivity|exact IH]. Qed.

Lemma errors_stop_events (m : map ServiceInfo) :
  errors (stop_events (Properties := Properties) m) = [].
Proof. induction m as [|[k info] m IH]; [reflexivity|exact IH]. Qed.

Lemma initialized_stop_events (m : map ServiceInfo) :
  initialized (stop_events (Properties := Properties) m) = [].
Proof. induction m as [|[k info] m IH]; [reflexivity|exact IH]. Qed.

Lemma stop_events_app (a b : map ServiceInfo) :
  stop_events (Properties := Properties) (a ++ b)
  = stop_events a ++ stop_events b.
Proof. apply map_app. Qed.

Lemma started_EvStart (l : list nat) :
  started (List.map (fun n => @EvStart Properties n) l) = l.
Proof.
  induction l as [|n l IH]; [reflexivity|].
  cbn [List.map]. unfold started in *. cbn [flat_map app].
  f_equal. exact IH.
Qed.

Lemma started_start_events (m : map ServiceInfo) :
  started (start_events (Properties := Properties) m) = handles m.
Proof. apply started_EvStart. Qed.

Lemma stopped_EvStart (l : list nat) :
  stopped (List.map (fun n => @EvStart Properties n) l) = [].
Proof. induction l as [|n l IH]; [reflexivity|exact IH]. Qed.

Lemma errors_EvStart (l : list nat) :
  errors (List.map (fun n => @EvStart Properties n) l) = [].
Proof. induction l as [|n l IH]; [reflexivity|exact IH]. Qed.

Lemma initialized_EvStart (l : list nat) :
  initialized (List.map (fun n => @EvStart Properties n) l) = [].
Proof. induction l as [|n l IH]; [reflexivity|exact IH]. Qed.

(** *** The claims about [init], [stop] and [stopAll] *)

(** C2, as amended: in [init] and in the loop that starts the
    services, a [FailureException] thrown by the service's [init] or
    [start] goes on unchanged, any other [Ice::Exception] they throw is
    wrapped in a [FailureException] whose reason has the InitFailure
    or StartFailure prefix, and an exception that is not an
    [Ice::Exception] goes on as it is. The factory is different: every
    [Ice::Exception] it throws, a [FailureException] included, is wrapped
    with the "exception in entry point" prefix, and anything else with
    "unknown exception in entry point". *)
Theorem C2_failure_translation (name entryPoint : string)
        (args : StringSeq) (st : State) :
  loadEntryPoint env entryPoint = true ->
  let svc := next_service st in
  let view := fst (spec_compose env (_options st) (_argv st) name args) in
  let residual :=
    snd (spec_compose env (_options st) (_argv st) name args) in
  let thrown_by_init := fst (init env name entryPoint args st) in
  (* the factory *)
  (forall ex, factory env entryPoint svc = Raises (Ice ex) ->
              thrown_by_init
              = Throw (FailureException_of (EntryPointFailure env entryPoint ex)))
  /\ (factory env entryPoint svc = Raises NonIce ->
      thrown_by_init
      = Throw (FailureException_of (UnknownEntryPointFailure entryPoint)))
  (* the service's init *)
  /\ (factory env entryPoint svc = Returns ->
      (forall reason,
          service_init env svc name view residual
          = Raises (Ice (FailureException reason)) ->
          thrown_by_init = Throw (Ice (FailureException reason)))
      /\ (forall n p,
             service_init env svc name view residual
             = Raises (Ice (OtherException n p)) ->
             thrown_by_init
             = Throw (FailureException_of
                        (InitFailure env name (OtherException n p))))
      /\ (service_init env svc name view residual = Raises NonIce ->
          thrown_by_init = Throw NonIce))
  (* the service's start *)
  /\ (forall pre nm info post st0,
         Forall (fun r => service_start env (service (snd r)) = Returns)
                pre ->
         let thrown_by_start :=
           fst (start_services env (pre ++ (nm, info) :: post) st0) in
         (forall reason,
             service_start env (service info)
             = Raises (Ice (FailureException reason)) ->
             thrown_by_start = Throw (Ice (FailureException reason)))
         /\ (forall n p,
                service_start env (service info)
                = Raises (Ice (OtherException n p)) ->
                thrown_by_start
                = Throw (FailureException_of
                           (StartFailure env nm (OtherException n p))))
         /\ (service_start env (service info) = Raises NonIce ->
             thrown_by_start = Throw NonIce)).
Proof.
  intros Hload. cbv zeta. rewrite init_eq.
  destruct (spec_compose env (_options st) (_argv st) name args)
    as [view residual].
  cbv zeta. cbn [fst snd]. rewrite Hload.
  split; [|split; [|split]].
  - intros ex ->. reflexivity.
  - intros ->. reflexivity.
  - intros ->. split; [|split].
    + intros reason ->. reflexivity.
    + intros n p ->. reflexivity.
    + intros ->. reflexivity.
  - intros pre nm info post st0 Hpre.
    rewrite start_services_app by exact Hpre.
    rewrite start_services_cons. cbv zeta.
    split; [|split].
    + intros reason ->. reflexivity.
    + intros n p ->. reflexivity.
    + intros ->. reflexivity.
Qed.

(** The reasons carry the prefixes of the failure kinds. *)
Lemma failure_prefixes (name entryPoint : string) (ex : Exception) :
  String.prefix "ServiceManager: exception in entry point `"
                (EntryPointFailure env entryPoint ex) = true /\
  String.prefix "ServiceManager: unknown exception in entry point `"
                (UnknownEntryPointFailure entryPoint) = true /\
  String.prefix "ServiceManager: exception while initializing service "
                (InitFailure env name ex) = true /\
  String.prefix "ServiceManager: exception in start for service "
                (StartFailure env name ex) = true /\
  String.prefix "ServiceManager: exception in stop for service "
                (StopFailure env name ex) = true.
Proof.
  assert (P : forall a b, String.prefix a (a ++ b) = true).
  { intros a b. apply prefix_correct. apply substring_prefix. }
  repeat split; apply P.
Qed.

(** C4: [init] builds [serviceArgs] from the recognized options that
    begin with [--name.], in snapshot order, then the descriptor's
    arguments, then the raw container arguments that begin with
    [--name.]; a fresh property view created from [serviceArgs]
    consumes the [--Ice.*] and then the [--name.*] options, and the
    service's [init] is called with that view and with the residual
    argument list. *)
Theorem C4_init_composes (name entryPoint : string) (args : StringSeq)
        (st : State) :
  loadEntryPoint env entryPoint = true ->
  factory env entryPoint (next_service st) = Returns ->
  let serviceArgs :=
    filter (String.prefix ("--" ++ name ++ ".")) (_options st)
    ++ args
    ++ filter (String.prefix ("--" ++ name ++ ".")) (_argv st) in
  let view0 := createProperties env serviceArgs in
  let view1 := fst (parseCommandLineOptions env view0 "Ice" serviceArgs) in
  let rest1 := snd (parseCommandLineOptions env view0 "Ice" serviceArgs) in
  let view2 := fst (parseCommandLineOptions env view1 name rest1) in
  let residual := snd (parseCommandLineOptions env view1 name rest1) in
  trace (snd (init env name entryPoint args st))
  = trace st ++ [EvLoad (next_library st) entryPoint;
                 EvFactory entryPoint;
                 EvInit (next_service st) name view2 residual]
  /\ fst (init env name entryPoint args st)
     = match service_init env (next_service st) name view2 residual with
       | Returns => Normal (next_service st)
       | Raises (Ice (FailureException reason)) =>
           Throw (Ice (FailureException reason))
       | Raises (Ice ex) => Throw (FailureException_of (InitFailure env name ex))
       | Raises NonIce => Throw NonIce
       end.
Proof.
  intros Hload Hfactory. cbv zeta. rewrite init_eq.
  unfold spec_compose, spec_serviceArgs.
  destruct (parseCommandLineOptions env _ "Ice" _) as [view1 rest1].
  cbn [fst snd].
  destruct (parseCommandLineOptions env view1 name rest1)
    as [view2 residual].
  cbn [fst snd]. cbv zeta. rewrite Hload, Hfactory.
  destruct (service_init env (next_service st) name view2 residual)
    as [|[[reason|n p]|]]; cbn [fst snd trace set_services add_events
                                 new_service new_library];
    (split; [|reflexivity]);
    rewrite <- !app_assoc; reflexivity.
Qed.

(** The records whose [stop] returns are passed one after the other. *)
Lemma stopAll_loop_app (pre : map ServiceInfo) :
  forall (rest : map ServiceInfo) (st : State) (fuel : nat),
    _services st = pre ++ rest ->
    stops_return env pre ->
    stopAll_loop env (List.length pre + fuel) (begin (pre ++ rest)) st
    = stopAll_loop env fuel (begin rest)
        (add_events (stop_events pre) (set_services rest st)).
Proof.
  induction pre as [|[k info] pre IH]; intros rest st fuel Hm Hret.
  - cbn in Hm |- *. rewrite add_events_nil, <- Hm, set_services_same.
    reflexivity.
  - inversion Hret as [|? ? Hhead Htail]; subst. cbn [snd] in Hhead.
    cbn [List.length Nat.add app begin].
    rewrite (stopAll_loop_first _ _ _ _ _ Hm), Hhead. cbv zeta.
    rewrite IH; [|reflexivity|exact Htail].
    f_equal. unfold stop_events, add_events, set_services; cbn.
    rewrite <- app_assoc. reflexivity.
Qed.

(** The first record whose [stop] does not return ends [stopAll]: an
    exception that is not an [Ice::Exception] leaves [stopAll]; for an
    [Ice::Exception] the handler of [stop] reads the key of the entry
    that [stop] has erased. The records after it are not touched. *)
Lemma stopAll_first_failure (pre post : map ServiceInfo) (k : string)
      (info : ServiceInfo) (st : State) (t : thrown) :
  _services st = pre ++ (k, info) :: post ->
  stops_return env pre ->
  service_stop env (service info) = Raises t ->
  stopAll env st
  = (match t with
     | Ice _ => Undefined
     | NonIce => Throw NonIce
     end,
     add_events (stop_events pre ++ [EvStop (service info)])
                (set_services post st)).
Proof.
  intros Hm Hret Hstop.
  unfold stopAll, bind at 1. unfold get at 1. cbv beta iota.
  unfold bind at 1. rewrite Hm.
  replace (List.length (pre ++ (k, info) :: post))
    with (List.length pre + S (List.length post))
    by (rewrite length_app; reflexivity).
  rewrite (stopAll_loop_app pre _ st _ Hm Hret). cbn [begin].
  rewrite (stopAll_loop_first _ k info post) by reflexivity.
  rewrite Hstop. cbv zeta.
  destruct t as [ex|]; f_equal;
    unfold add_events, set_services; cbn;
    rewrite <- app_assoc; reflexivity.
Qed.

(** C5, as amended: whenever [stopAll] returns, the Registry is empty.
    When the [stop] of every service returns, [stopAll] returns, has
    called [stop] once on every record, in iteration order, and has
    logged nothing. A [stop] that fails with something that is not an
    [Ice::Exception] is not logged but raised again: the exception
    leaves [stopAll], and the records after the failing one stay in the
    Registry, their services not stopped. *)
Theorem C5_stopAll_empties_registry (st : State) :
  (forall st', stopAll env st = (Normal tt, st') -> _services st' = [])
  /\ (stops_return env (_services st) ->
      exists st',
        stopAll env st = (Normal tt, st') /\
        _services st' = [] /\
        trace st' = trace st ++ stop_events (_services st) /\
        stopped (trace st') = stopped (trace st) ++ handles (_services st) /\
        errors (trace st') = errors (trace st))
  /\ (forall pre post k info,
         _services st = pre ++ (k, info) :: post ->
         stops_return env pre ->
         service_stop env (service info) = Raises NonIce ->
         exists st',
           stopAll env st = (Throw NonIce, st') /\
           _services st' = post /\
           stopped (trace st')
           = stopped (trace st) ++ handles pre ++ [service info] /\
           errors (trace st') = errors (trace st)).
Proof.
  split; [intros st'; apply stopAll_returns_empty|]. split.
  - intros Hret. eexists. split; [apply stopAll_ok; exact Hret|].
    cbn [_services trace add_events set_services].
    split; [reflexivity|]. split; [reflexivity|].
    rewrite stopped_app, errors_app, stopped_stop_events, errors_stop_events.
    rewrite app_nil_r. split; reflexivity.
  - intros pre post k info Hm Hret Hstop. eexists.
    split; [exact (stopAll_first_failure _ _ _ _ _ _ Hm Hret Hstop)|].
    cbn [_services trace add_events set_services].
    split; [reflexivity|].
    rewrite !stopped_app, !errors_app, stopped_stop_events,
      errors_stop_events.
    cbn [stopped errors flat_map app]. rewrite ?app_nil_r.
    split; reflexivity.
Qed.

(** C6: [stop] takes the record out of the Registry before the
    service's [stop] is called. So what the service does from inside its
    [stop] finds the manager without the record: a [stop] of the same
    name made from there stops at the assertion of line 294, and a
    [stopAll] made from there stops the other services only; the
    service's [stop] is called once in both. When [stop] is over, by a
    return or by surfacing the failure, the record is absent, and a
    second [stop] of that name stops at the assertion and calls
    nothing. A failure of the service with an [Ice::Exception] is
    surfaced with the reason of a StopFailure when the name is a string
    of the caller's. *)
Theorem C6_stop_removes_record (service_name : name_ref)
        (info : ServiceInfo) (st : State) :
  let name := name_of_ref service_name in
  sorted (_services st) = true ->
  find name (_services st) = Some info ->
  let others := erase name (_services st) in
  let st1 := add_events [EvStop (service info)] (set_services others st) in
  let r := fst (stop env service_name st) in
  let st' := snd (stop env service_name st) in
  (* from inside the service's stop *)
  stop_reentrant env (stop env (Caller name)) service_name st = (Abort, st1)
  /\ (stops_return env others ->
      snd (stop_reentrant env (stopAll env) service_name st)
      = add_events (EvStop (service info) :: stop_events others)
                   (set_services [] st))
  (* afterwards *)
  /\ st' = st1
  /\ find name (_services st') = None
  /\ stop env (Caller name) st' = (Abort, st')
  /\ match service_stop env (service info) with
     | Returns => r = Normal tt
     | Raises (Ice ex) =>
         match service_name with
         | Caller _ =>
             r = Throw (FailureException_of (StopFailure env name ex))
         | EntryKey _ => r = Undefined
         end
     | Raises NonIce => r = Throw NonIce
     end.
Proof.
  cbv zeta. intros Hsorted Hfind.
  assert (Hgone : find (name_of_ref service_name)
                       (erase (name_of_ref service_name) (_services st))
                  = None)
    by (apply find_erase; exact Hsorted).
  assert (Hagain :
            forall evs,
              stop env (Caller (name_of_ref service_name))
                   (add_events evs
                      (set_services
                         (erase (name_of_ref service_name) (_services st))
                         st))
              = (Abort,
                 add_events evs
                   (set_services
                      (erase (name_of_ref service_name) (_services st))
                      st))).
  { intros evs. rewrite stop_eq.
    cbn [name_of_ref _services add_events set_services].
    rewrite Hgone. reflexivity. }
  split; [|split].
  - rewrite stop_reentrant_eq, Hfind.
    unfold stop_service, try_catch, bind at 1, emit, modify, add_event.
    cbv beta iota. unfold bind at 1. rewrite Hagain. reflexivity.
  - intros Hret. rewrite stop_reentrant_eq, Hfind.
    unfold stop_service, try_catch, bind at 1, emit, modify, add_event.
    cbv beta iota. unfold bind at 1.
    rewrite stopAll_ok by exact Hret.
    cbn [_services add_events set_services].
    destruct (service_stop env (service info)) as [|[ex|]];
      cbn [call ret throw]; try destruct service_name;
      cbn [snd]; unfold add_events, set_services; cbn;
      rewrite <- app_assoc; reflexivity.
  - rewrite (stop_eq service_name st), Hfind, stop_service_eq. cbv zeta.
    destruct (service_stop env (service info)) as [|[ex|]];
      try destruct service_name;
      cbn [fst snd _services add_events set_services name_of_ref];
      (split; [reflexivity|]); (split; [exact Hgone|]);
      (split; [apply (Hagain [EvStop (service info)])|reflexivity]).
Qed.

(** C9: when [init] is called with a name that is already in the
    Registry and succeeds, the record of that name is overwritten with
    the new service and library; the names in the Registry stay the
    same, the Registry does not hold the previous service any more,
    no [stop] has been called, nothing has been logged and nothing is
    raised. *)
Theorem C9_init_overwrites (name entryPoint : string) (args : StringSeq)
        (old : ServiceInfo) (st : State) :
  sorted (_services st) = true ->
  Forall (fun r => service (snd r) < next_service st) (_services st) ->
  NoDup (handles (_services st)) ->
  find name (_services st) = Some old ->
  loadEntryPoint env entryPoint = true ->
  factory env entryPoint (next_service st) = Returns ->
  (forall view a,
      service_init env (next_service st) name view a = Returns) ->
  exists st',
    init env name entryPoint args st = (Normal (next_service st), st') /\
    find name (_services st')
    = Some {| service := next_service st; library := next_library st |} /\
    keys (_services st') = keys (_services st) /\
    ~ In (service old) (handles (_services st')) /\
    stopped (trace st') = stopped (trace st) /\
    errors (trace st') = errors (trace st).
Proof.
  intros Hsorted Hfresh Hnodup Hfind Hload Hfactory Hinit.
  rewrite init_eq.
  destruct (spec_compose env (_options st) (_argv st) name args)
    as [view residual].
  cbv zeta. rewrite Hload, Hfactory, Hinit.
  eexists. split; [reflexivity|].
  cbn [_services trace set_services add_events new_service new_library].
  split; [apply find_assign|].
  split; [eapply keys_assign_present; eassumption|].
  split.
  - destruct (assign_present_split name
                {| service := next_service st; library := next_library st |}
                old (_services st) Hsorted Hfind)
      as (m1 & m2 & Hm & ->).
    rewrite Hm in Hfresh, Hnodup. unfold handles in *.
    rewrite map_app in *. cbn [List.map snd service] in *.
    apply NoDup_remove_2 in Hnodup.
    apply Forall_app in Hfresh as [_ Hfresh].
    inversion Hfresh as [|? ? Hold _]; subst. cbn [snd] in Hold.
    intros Hin. apply in_app_or in Hin as [Hin|[Hin|Hin]].
    + apply Hnodup. apply in_or_app. left. exact Hin.
    + lia.
    + apply Hnodup. apply in_or_app. right. exact Hin.
  - rewrite <- !app_assoc, !stopped_app, !errors_app. cbn.
    rewrite !app_nil_r. split; reflexivity.
Qed.

(** *** The loop that initializes the services *)

Lemma substring_skip_append (n : nat) (s : string) :
  s = (substring 0 n s ++ skip n s)%string.
Proof.
  revert s. induction n as [|n IH]; intros s.
  - destruct s; reflexivity.
  - destruct s as [|c s]; [reflexivity|]. cbn. f_equal. apply IH.
Qed.

(** A key that begins with the prefix is the prefix followed by the
    name of the service. *)
Lemma key_with_prefix (key : string) :
  String.prefix prefix key = true ->
  key = (prefix ++ name_of key)%string.
Proof.
  intros H. apply prefix_correct in H.
  unfold name_of. rewrite substr_from_skip.
  pose proof (substring_skip_append (String.length prefix) key) as E.
  rewrite H in E. exact E.
Qed.

Lemma getPropertiesForPrefix_keys :
  Forall (fun e => String.prefix prefix (fst e) = true)
         (getPropertiesForPrefix env prefix).
Proof.
  apply Forall_forall. intros [k v] Hin. cbn [fst].
  unfold getPropertiesForPrefix in Hin.
  assert (Hk : In k (keys (of_list
             (filter (fun kv => String.prefix prefix (fst kv))
                     (server_properties env))))).
  { unfold keys. apply in_map_iff. exists (k, v). auto. }
  apply keys_of_list in Hk. apply in_map_iff in Hk as ([k' v'] & E & Hk).
  cbn in E. subst k'. apply filter_In in Hk as [_ Hk]. exact Hk.
Qed.

Lemma getPropertiesForPrefix_sorted :
  sorted (getPropertiesForPrefix env prefix) = true.
Proof. apply sorted_of_list. Qed.

(** The names of the services come in the order of their keys. *)
Lemma records_above (key : string) (svc lib : nat) (dict : map string) :
  String.prefix prefix key = true ->
  Forall (fun e => String.prefix prefix (fst e) = true) dict ->
  above key dict ->
  above (name_of key) (records svc lib dict).
Proof.
  intros Hkey Hpre Ha. revert svc lib.
  induction dict as [|[k v] dict IH]; intros svc lib; [constructor|].
  inversion Hpre as [|? ? Hk Hpre']; subst.
  inversion Ha as [|? ? Hlt Ha']; subst. cbn [fst] in *.
  cbn [records]. constructor; [|apply IH; assumption].
  cbn [fst]. unfold key_lt in *.
  rewrite (key_with_prefix key Hkey), (key_with_prefix k Hk) in Hlt.
  rewrite key_compare_append in Hlt. exact Hlt.
Qed.

Lemma records_sorted (svc lib : nat) (dict : map string) :
  Forall (fun e => String.prefix prefix (fst e) = true) dict ->
  sorted dict = true ->
  sorted (records svc lib dict) = true.
Proof.
  revert svc lib. induction dict as [|[k v] dict IH];
    intros svc lib Hpre Hs; [reflexivity|].
  inversion Hpre as [|? ? Hk Hpre']; subst. cbn [fst] in Hk.
  apply sorted_cons in Hs as [Ha Hs]. cbn [records].
  apply sorted_cons. split; [|apply IH; assumption].
  apply records_above; assumption.
Qed.

Lemma keys_records (svc lib : nat) (dict : map string) :
  keys (records svc lib dict) = List.map (fun e => name_of (fst e)) dict.
Proof.
  revert svc lib. induction dict as [|[k v] dict IH]; intros svc lib;
    [reflexivity|]. cbn. f_equal. apply IH.
Qed.

Lemma handles_records (svc lib : nat) (dict : map string) :
  handles (records svc lib dict) = seq svc (List.length dict).
Proof.
  revert svc lib. induction dict as [|[k v] dict IH]; intros svc lib;
    [reflexivity|]. cbn. f_equal. apply IH.
Qed.

Lemma init_services_ok (dict : map string) :
  forall st : State,
    Forall (init_succeeds env) dict ->
    sorted (_services st
            ++ records (next_service st) (next_library st) dict) = true ->
    init_services env dict st = (Normal tt, after_inits env dict st).
Proof.
  induction dict as [|[key value] dict IH]; intros st Hok Hsorted.
  - cbn. unfold ret, after_inits. destruct st; cbn.
    now rewrite !app_nil_r, !Nat.add_0_r.
  - inversion Hok as [|? ? Hhead Hok']; subst.
    destruct Hhead as (Hload & Hfactory & Hinit). cbn [fst snd] in *.
    cbn [init_services].
    destruct (DescriptorFacts.parse_value_total value)
      as (entryPoint & args & Hparse).
    assert (Hd : descriptor value = (entryPoint, args))
      by (unfold descriptor; now rewrite Hparse).
    rewrite Hd in Hload, Hfactory. cbn [fst] in Hload, Hfactory.
    rewrite Hparse. unfold bind at 1. rewrite init_eq.
    fold (name_of key).
    destruct (spec_compose env (_options st) (_argv st) (name_of key) args)
      as [view residual] eqn:Hcompose.
    cbv zeta. rewrite Hload, Hfactory, Hinit.
    cbn [records] in Hsorted.
    rewrite (assign_below _ _ _ (below_app_sorted _ _ _ _ Hsorted)).
    rewrite IH; [|exact Hok'|].
    + f_equal. unfold after_inits.
      cbn [_progName _argv _options _services trace next_service
           next_library set_services add_events new_service new_library
           records init_events List.length].
      rewrite Hd, Hcompose.
      rewrite <- !app_assoc. cbn [app].
      rewrite !Nat.add_succ_r. reflexivity.
    + cbn [_services next_service next_library set_services add_events
           new_service new_library].
      rewrite <- app_assoc. exact Hsorted.
Qed.

(** From the new manager: the Registry holds the services found, in
    the order they were found. *)
Lemma init_services_new (argv : list string) :
  Forall (init_succeeds env) (getPropertiesForPrefix env prefix) ->
  init_services env (getPropertiesForPrefix env prefix)
                (ServiceManagerI_new env argv)
  = (Normal tt,
     after_inits env (getPropertiesForPrefix env prefix)
                 (ServiceManagerI_new env argv)).
Proof.
  intros Hok. apply init_services_ok; [exact Hok|].
  cbn [_services ServiceManagerI_new app next_service next_library].
  apply records_sorted;
    [apply getPropertiesForPrefix_keys|apply getPropertiesForPrefix_sorted].
Qed.

Lemma started_init_events (options argv : StringSeq) (svc lib : nat)
      (dict : map string) :
  started (init_events env options argv svc lib dict) = [].
Proof.
  revert svc lib. induction dict as [|[k v] dict IH]; intros svc lib;
    [reflexivity|]. cbn [init_events].
  destruct (descriptor v) as [ep args].
  destruct (spec_compose env options argv (name_of k) args) as [vw res].
  rewrite started_app, IH. reflexivity.
Qed.

Lemma stopped_init_events (options argv : StringSeq) (svc lib : nat)
      (dict : map string) :
  stopped (init_events env options argv svc lib dict) = [].
Proof.
  revert svc lib. induction dict as [|[k v] dict IH]; intros svc lib;
    [reflexivity|]. cbn [init_events].
  destruct (descriptor v) as [ep args].
  destruct (spec_compose env options argv (name_of k) args) as [vw res].
  rewrite stopped_app, IH. reflexivity.
Qed.

Lemma errors_init_events (options argv : StringSeq) (svc lib : nat)
      (dict : map string) :
  errors (init_events env options argv svc lib dict) = [].
Proof.
  revert svc lib. induction dict as [|[k v] dict IH]; intros svc lib;
    [reflexivity|]. cbn [init_events].
  destruct (descriptor v) as [ep args].
  destruct (spec_compose env options argv (name_of k) args) as [vw res].
  rewrite errors_app, IH. reflexivity.
Qed.

Lemma initialized_init_events (options argv : StringSeq) (svc lib : nat)
      (dict : map string) :
  initialized (init_events env options argv svc lib dict)
  = combine (seq svc (List.length dict))
            (List.map (fun e => name_of (fst e)) dict).
Proof.
  revert svc lib. induction dict as [|[k v] dict IH]; intros svc lib;
    [reflexivity|]. cbn [init_events].
  destruct (descriptor v) as [ep args].
  destruct (spec_compose env options argv (name_of k) args) as [vw res].
  rewrite initialized_app, IH. reflexivity.
Qed.

(** *** Computations that start and initialize nothing *)

Lemma quiet_step_refl (st : State) : quiet_step st st.
Proof. exists []. rewrite app_nil_r. auto. Qed.

Lemma quiet_step_trans (a b c : State) :
  quiet_step a b -> quiet_step b c -> quiet_step a c.
Proof.
  intros (e1 & H1 & S1 & I1) (e2 & H2 & S2 & I2).
  exists (e1 ++ e2). rewrite H2, H1, <- app_assoc.
  rewrite started_app, initialized_app, S1, S2, I1, I2. auto.
Qed.

Lemma quiet_bind {A B : Type} (m : M Properties A) (k : A -> M Properties B) :
  quiet m -> (forall a, quiet (k a)) -> quiet (bind m k).
Proof.
  intros Hm Hk st. unfold bind. specialize (Hm st).
  destruct (m st) as [[a|t| | |] st1]; cbn [snd] in *; try exact Hm.
  eapply quiet_step_trans; [exact Hm|apply Hk].
Qed.

Lemma quiet_try_catch {A : Type} (body : M Properties A)
      (handlers : thrown -> option (M Properties A)) :
  quiet body ->
  (forall t h, handlers t = Some h -> quiet h) ->
  quiet (try_catch body handlers).
Proof.
  intros Hb Hh st. unfold try_catch. specialize (Hb st).
  destruct (body st) as [[a|t| | |] st1]; cbn [snd] in *; try exact Hb.
  destruct (handlers t) as [h|] eqn:E; [|exact Hb].
  eapply quiet_step_trans; [exact Hb|exact (Hh t h E st1)].
Qed.

Lemma quiet_pure {A : Type} (f : State -> result A) :
  quiet (fun st => (f st, st)).
Proof. intros st. apply quiet_step_refl. Qed.

Lemma quiet_ret {A : Type} (a : A) : quiet (@ret Properties A a).
Proof. exact (quiet_pure (fun _ => Normal a)). Qed.

Lemma quiet_throw {A : Type} (t : thrown) : quiet (@throw Properties A t).
Proof. exact (quiet_pure (fun _ => Throw t)). Qed.

Lemma quiet_abort {A : Type} : quiet (@abort Properties A).
Proof. exact (quiet_pure (fun _ => Abort)). Qed.

Lemma quiet_out_of_fuel {A : Type} : quiet (@out_of_fuel Properties A).
Proof. exact (quiet_pure (fun _ => OutOfFuel)). Qed.

Lemma quiet_get {A : Type} (f : State -> A) : quiet (get f).
Proof. exact (quiet_pure (fun st => Normal (f st))). Qed.

Lemma quiet_call (o : outcome) :
  quiet (call (Properties := Properties) o).
Proof. destruct o; [apply quiet_ret|apply quiet_throw]. Qed.

Lemma quiet_undefined {A : Type} : quiet (@undefined Properties A).
Proof. exact (quiet_pure (fun _ => Undefined)). Qed.

Local Ltac quiet_leaf :=
  first [ apply quiet_ret | apply quiet_throw | apply quiet_abort
        | apply quiet_out_of_fuel | apply quiet_undefined
        | apply quiet_get | apply quiet_call ].

Lemma quiet_emit (ev : event) :
  started [ev] = [] -> initialized [ev] = [] -> quiet (emit ev).
Proof. intros Hs Hi st. exists [ev]. cbn. auto. Qed.

Lemma quiet_set_services (f : State -> map ServiceInfo) :
  quiet (modify (fun st => set_services (f st) st)).
Proof. intros st. exists []. cbn. rewrite app_nil_r. auto. Qed.

Lemma quiet_with_Error {A : Type} (message : string)
      (body : M Properties A) :
  quiet body -> quiet (with_Error message body).
Proof.
  intros Hb st. unfold with_Error. specialize (Hb st).
  destruct (body st) as [[a|t| | |] st1]; cbn [snd] in *; try exact Hb.
  - apply (quiet_step_trans _ _ _ Hb). exists [EvError message]. cbn. auto.
  - apply (quiet_step_trans _ _ _ Hb). exists [EvError message]. cbn. auto.
Qed.

Lemma quiet_stop_reentrant (reentry : M Properties unit)
      (service_name : name_ref) :
  quiet reentry -> quiet (stop_reentrant env reentry service_name).
Proof.
  intros Hre.
  unfold stop_reentrant. apply quiet_bind; [quiet_leaf|]. intros services.
  destruct (find (name_of_ref service_name) services) as [info|];
    [|quiet_leaf].
  apply quiet_bind; [apply quiet_set_services|]. intros _.
  unfold stop_service. apply quiet_try_catch.
  - apply quiet_bind; [apply quiet_emit; reflexivity|].
    intros _. apply quiet_bind; [exact Hre|].
    intros _. apply quiet_call.
  - intros [ex|] h E; inversion E; subst.
    destruct service_name; quiet_leaf.
Qed.

Lemma quiet_stop (service_name : name_ref) : quiet (stop env service_name).
Proof. apply quiet_stop_reentrant. quiet_leaf. Qed.

Lemma quiet_stopAll_loop (fuel : nat) :
  forall r : iterator, quiet (stopAll_loop env fuel r).
Proof.
  induction fuel as [|fuel IH]; intros [k|]; cbn [stopAll_loop];
    try quiet_leaf.
  apply quiet_bind; [quiet_leaf|]. intros services.
  apply quiet_bind; [|intros _; apply IH].
  apply quiet_try_catch; [apply quiet_stop|].
  intros [[reason|n p]|] h E; inversion E; subst.
  apply quiet_with_Error. quiet_leaf.
Qed.

Lemma quiet_stopAll : quiet (stopAll env).
Proof.
  unfold stopAll. apply quiet_bind; [quiet_leaf|]. intros services.
  apply quiet_bind; [apply quiet_stopAll_loop|]. intros _.
  apply quiet_bind; [quiet_leaf|]. intros services'.
  destruct (empty services'); quiet_leaf.
Qed.

Lemma quiet_serve : quiet (serve env).
Proof.
  unfold serve. cbv zeta.
  apply quiet_bind.
  { destruct (negb _); [apply quiet_emit; reflexivity|quiet_leaf]. }
  intros _. apply quiet_bind; [apply quiet_emit; reflexivity|].
  intros _. apply quiet_bind; [apply quiet_call|].
  intros _. apply quiet_bind; [apply quiet_emit; reflexivity|].
  intros _. apply quiet_bind; [apply quiet_call|].
  intros _. apply quiet_stopAll.
Qed.

Lemma quiet_run_handlers (t : thrown) (h : M Properties Z) :
  run_handlers env t = Some h -> quiet h.
Proof.
  destruct t as [[reason|n p]|]; intros E; inversion E; subst;
    apply quiet_with_Error;
    (apply quiet_bind; [apply quiet_stopAll|]); intros _; quiet_leaf.
Qed.

(** *** Every call of [stopAll] and of [run] comes to an end *)

Lemma ends_bind {A B : Type} (m : M Properties A) (k : A -> M Properties B) :
  ends m -> (forall a, ends (k a)) -> ends (bind m k).
Proof.
  intros Hm Hk st. unfold bind. specialize (Hm st).
  destruct (m st) as [[a|t| | |] st1]; cbn [fst] in *; try exact Hm.
  apply Hk.
Qed.

Lemma ends_try_catch {A : Type} (body : M Properties A)
      (handlers : thrown -> option (M Properties A)) :
  ends body ->
  (forall t h, handlers t = Some h -> ends h) ->
  ends (try_catch body handlers).
Proof.
  intros Hb Hh st. unfold try_catch. specialize (Hb st).
  destruct (body st) as [[a|t| | |] st1]; cbn [fst] in *; try exact Hb.
  destruct (handlers t) as [h|] eqn:E; [|exact I].
  exact (Hh t h E st1).
Qed.

Lemma ends_ret {A : Type} (a : A) : ends (@ret Properties A a).
Proof. intros st. exact I. Qed.

Lemma ends_throw {A : Type} (t : thrown) : ends (@throw Properties A t).
Proof. intros st. exact I. Qed.

Lemma ends_get {A : Type} (f : State -> A) : ends (get f).
Proof. intros st. exact I. Qed.

Lemma ends_modify (f : State -> State) : ends (modify f).
Proof. intros st. exact I. Qed.

Lemma ends_call (o : outcome) : ends (call (Properties := Properties) o).
Proof. destruct o; intros st; exact I. Qed.

(** On any map the loop returns with the map empty, or is left by an
    exception that is not an [Ice::Exception], or reads the key of an
    erased entry; as many turns as there are records are enough. *)
Lemma stopAll_loop_ends (m : map ServiceInfo) :
  forall (st : State) (fuel : nat),
    _services st = m ->
    List.length m <= fuel ->
    (exists st', stopAll_loop env fuel (begin m) st = (Normal tt, st') /\
                 _services st' = [])
    \/ (exists st', stopAll_loop env fuel (begin m) st = (Throw NonIce, st'))
    \/ (exists st', stopAll_loop env fuel (begin m) st = (Undefined, st')).
Proof.
  induction m as [|[k info] m IH]; intros st fuel Hm Hfuel.
  - left. exists st. split; [destruct fuel; reflexivity|exact Hm].
  - destruct fuel as [|fuel]; [cbn in Hfuel; lia|].
    cbn [begin]. rewrite (stopAll_loop_first _ _ _ _ _ Hm). cbv zeta.
    destruct (service_stop env (service info)) as [|[ex|]].
    + apply IH; [reflexivity|cbn in Hfuel; lia].
    + right. right. eexists. reflexivity.
    + right. left. eexists. reflexivity.
Qed.

Lemma stopAll_ends : ends (stopAll env).
Proof.
  intros st. unfold stopAll, bind at 1. unfold get at 1. cbv beta iota.
  unfold bind at 1.
  destruct (stopAll_loop_ends (_services st) st _ eq_refl (le_n _))
    as [(st' & -> & Hempty)|[(st' & ->)|(st' & ->)]]; try exact I.
  unfold bind, get. cbv beta iota. rewrite Hempty. exact I.
Qed.

Lemma ends_with_Error {A : Type} (message : string)
      (body : M Properties A) :
  ends body -> ends (with_Error message body).
Proof.
  intros Hb st. unfold with_Error. specialize (Hb st).
  destruct (body st) as [[a|t| | |] st1]; cbn [fst] in *; exact Hb.
Qed.

Lemma init_ends (name entryPoint : string) (args : StringSeq) :
  ends (init env name entryPoint args).
Proof.
  intros st. rewrite init_eq.
  destruct (spec_compose env (_options st) (_argv st) name args)
    as [view residual].
  cbv zeta.
  destruct (loadEntryPoint env entryPoint); [|exact I].
  destruct (factory env entryPoint (next_service st)) as [|[ex|]];
    try exact I.
  destruct (service_init env (next_service st) name view residual)
    as [|[[reason|n p]|]]; exact I.
Qed.

Lemma init_services_ends (dict : map string) : ends (init_services env dict).
Proof.
  induction dict as [|[key value] dict IH]; [apply ends_ret|].
  cbn [init_services]. cbv zeta.
  destruct (DescriptorFacts.parse_value_total value)
    as (entryPoint & args & ->).
  apply ends_bind; [apply init_ends|]. intros _. exact IH.
Qed.

Lemma start_services_ends (m : map ServiceInfo) : ends (start_services env m).
Proof.
  induction m as [|[name info] m IH]; [apply ends_ret|].
  intros st. rewrite start_services_cons. cbv zeta.
  destruct (service_start env (service info)) as [|[[reason|n p]|]];
    try exact I.
  apply IH.
Qed.

Lemma serve_ends : ends (serve env).
Proof.
  unfold serve. cbv zeta.
  apply ends_bind.
  { destruct (negb _); [apply ends_modify|apply ends_ret]. }
  intros _. apply ends_bind; [apply ends_modify|].
  intros _. apply ends_bind; [apply ends_call|].
  intros _. apply ends_bind; [apply ends_modify|].
  intros _. apply ends_bind; [apply ends_call|].
  intros _. apply stopAll_ends.
Qed.

Lemma run_handlers_end (t : thrown) (h : M Properties Z) :
  run_handlers env t = Some h -> ends h.
Proof.
  destruct t as [[reason|n p]|]; intros E; inversion E; subst;
    apply ends_with_Error;
    (apply ends_bind; [apply stopAll_ends|]); intros _; apply ends_ret.
Qed.

(** In [run] no assertion fails, and the loops of the model have fuel
    enough. *)
Lemma run_ends : ends (run env).
Proof.
  unfold run. apply ends_try_catch; [|apply run_handlers_end].
  apply ends_bind; [|intros _; apply ends_ret].
  unfold run_try.
  apply ends_bind; [apply ends_call|]. intros _.
  apply ends_bind; [apply ends_call|]. intros _.
  apply ends_bind; [apply init_services_ends|]. intros _.
  apply ends_bind; [apply ends_get|]. intros services.
  apply ends_bind; [apply start_services_ends|]. intros _.
  apply serve_ends.
Qed.

(** *** [run] *)

Lemma run_startup (argv : list string) :
  startup_succeeds env ->
  run env (ServiceManagerI_new env argv)
  = run_from_start env (after_inits env (getPropertiesForPrefix env prefix)
                                (ServiceManagerI_new env argv)).
Proof.
  intros (Hcreate & Hadd & Hinits).
  unfold run, run_try, run_from_start.
  rewrite Hcreate, Hadd.
  unfold try_catch at 1. unfold bind at 1 2 3. cbn [call ret].
  unfold bind at 1. rewrite (init_services_new argv Hinits).
  unfold bind at 1. unfold get at 1. cbv beta iota.
  unfold bind at 1.
  destruct (start_services env _ _) as [[[]|t| | |] st2]; try reflexivity.
Qed.

Lemma run_from_start_quiet (st : State) :
  quiet_step (snd (start_services env (_services st) st))
             (snd (run_from_start env st)).
Proof.
  unfold run_from_start.
  destruct (start_services env (_services st) st) as [[[]|t| | |] st2];
    cbn [snd]; try apply quiet_step_refl.
  - apply quiet_try_catch; [|apply quiet_run_handlers].
    apply quiet_bind; [apply quiet_serve|]. intros _. apply quiet_ret.
  - destruct (run_handlers env t) as [h|] eqn:E;
      [|apply quiet_step_refl].
    exact (quiet_run_handlers t h E st2).
Qed.

Lemma map_fst_combine {A B : Type} (a : list A) (b : list B) :
  List.length a = List.length b -> List.map fst (combine a b) = a.
Proof.
  revert b. induction a as [|x a IH]; intros [|y b] H; cbn in *;
    try reflexivity; try discriminate.
  f_equal. apply IH. lia.
Qed.

Lemma Forall_handles (P : nat -> Prop) (m : map ServiceInfo) :
  Forall P (handles m) -> Forall (fun r => P (service (snd r))) m.
Proof.
  unfold handles. induction m as [|r m IH]; intros H; [constructor|].
  inversion H; subst. constructor; auto.
Qed.

Lemma Forall_seq (P : nat -> Prop) (a n : nat) :
  (forall i, a <= i < a + n -> P i) -> Forall P (seq a n).
Proof.
  intros H. apply Forall_forall. intros i Hi. apply in_seq in Hi. auto.
Qed.

Lemma records_app (svc lib : nat) (a b : map string) :
  records svc lib (a ++ b)
  = records svc lib a
    ++ records (svc + List.length a) (lib + List.length a) b.
Proof.
  revert svc lib. induction a as [|[k v] a IH]; intros svc lib; cbn.
  - now rewrite !Nat.add_0_r.
  - rewrite IH, !Nat.add_succ_r. reflexivity.
Qed.

(** C7: when the start-up goes through, the Registry that the loop of
    lines 118-135 iterates holds the services in the order in which
    they were found and initialized, and [start] is called on the
    services in that same order. *)
Theorem C7_start_in_discovery_order (argv : list string) :
  startup_succeeds env ->
  let dict := getPropertiesForPrefix env prefix in
  let names := List.map (fun e => name_of (fst e)) dict in
  let st0 := ServiceManagerI_new env argv in
  let tr := trace (snd (run env st0)) in
  (* the Registry after the services are initialized *)
  (exists st1, init_services env dict st0 = (Normal tt, st1) /\
               keys (_services st1) = names /\
               handles (_services st1) = seq 0 (List.length names)) /\
  (* the calls of init and of start *)
  initialized tr = combine (seq 0 (List.length names)) names /\
  (exists j, j <= List.length names /\
             started tr = firstn j (List.map fst (initialized tr))) /\
  (Forall (fun n => service_start env n = Returns)
          (seq 0 (List.length names)) ->
   started tr = List.map fst (initialized tr)).
Proof.
  intros Hok. cbv zeta.
  set (dict := getPropertiesForPrefix env prefix).
  set (st0 := ServiceManagerI_new env argv).
  set (st1 := after_inits env dict st0).
  assert (Hreg : _services st1 = records 0 0 dict) by reflexivity.
  assert (Hlen : List.length (List.map (fun e => name_of (fst e)) dict)
                 = List.length dict) by apply length_map.
  rewrite Hlen.
  assert (Htr1 : trace st1
                 = init_events env (_options st0) (_argv st0) 0 0 dict)
    by reflexivity.
  split.
  { exists st1. split; [apply init_services_new; apply Hok|].
    rewrite Hreg, keys_records, handles_records. split; reflexivity. }
  assert (Hrun : run env st0 = run_from_start env st1)
    by exact (run_startup argv Hok).
  rewrite Hrun.
  destruct (run_from_start_quiet st1) as (evs & Hevs & Hs & Hi).
  destruct (start_services_prefix (_services st1) st1)
    as (j & Hj & Hst2 & Hall).
  rewrite Hst2 in Hevs. cbn [trace add_events] in Hevs.
  rewrite Hreg, handles_records in Hevs.
  rewrite Hreg in Hj, Hall.
  assert (Hrec : List.length (records 0 0 dict) = List.length dict).
  { rewrite <- (length_map (fun r => service (snd r))).
    change (List.length (handles (records 0 0 dict)) = List.length dict).
    rewrite handles_records. apply length_seq. }
  rewrite Hrec in Hj, Hall.
  assert (Hinit : initialized (trace (snd (run_from_start env st1)))
                  = combine (seq 0 (List.length dict))
                            (List.map (fun e => name_of (fst e)) dict)).
  { rewrite Hevs, Htr1, !initialized_app, initialized_init_events,
      initialized_EvStart, Hi, !app_nil_r. reflexivity. }
  assert (Hstart : started (trace (snd (run_from_start env st1)))
                   = firstn j (seq 0 (List.length dict))).
  { rewrite Hevs, Htr1, !started_app, started_init_events,
      started_EvStart, Hs, app_nil_r. reflexivity. }
  assert (Hfst : List.map fst (initialized (trace (snd (run_from_start env st1))))
                 = seq 0 (List.length dict)).
  { rewrite Hinit. apply map_fst_combine.
    rewrite length_seq, length_map. reflexivity. }
  split; [exact Hinit|]. split.
  - exists j. split; [exact Hj|]. rewrite Hfst. exact Hstart.
  - intros Hret. rewrite Hfst, Hstart.
    assert (Hnormal : fst (start_services env (records 0 0 dict) st1)
                      = Normal tt).
    { rewrite start_services_ok; [reflexivity|].
      apply (Forall_handles (fun n => service_start env n = Returns)).
      rewrite handles_records. exact Hret. }
    rewrite (Hall Hnormal). apply firstn_all2. rewrite length_seq. lia.
Qed.

Lemma stopAll_after_failure (message : string) (st : State) :
  stops_return env (_services st) ->
  with_Error message (bind (stopAll env) (fun _ => ret EXIT_FAILURE)) st
  = (Normal EXIT_FAILURE,
     add_events (stop_events (_services st) ++ [EvError message])
                (set_services [] st)).
Proof.
  intros Hret. unfold with_Error, bind at 1.
  rewrite stopAll_ok by exact Hret.
  unfold ret, add_event. rewrite add_events_add_events. reflexivity.
Qed.

Lemma records_split (dict : map string) (k : nat) :
  k < List.length dict ->
  exists l1 l2,
    dict = l1 ++ nth k dict ("", "") :: l2 /\
    List.length l1 = k /\
    records 0 0 dict
    = records 0 0 l1
      ++ (name_of (fst (nth k dict ("", ""))),
          {| service := k; library := k |})
      :: records (S k) (S k) l2.
Proof.
  intros Hk.
  destruct (nth_split dict ("", "") Hk) as (l1 & l2 & Hd & Hl1).
  exists l1, l2. split; [exact Hd|]. split; [exact Hl1|].
  destruct (nth k dict ("", "")) as [key value]. cbn [fst].
  rewrite Hd at 1. rewrite records_app. cbn [records Nat.add].
  rewrite Hl1. reflexivity.
Qed.

Lemma returns_records (P : nat -> Prop) (svc lib : nat) (l : map string) :
  (forall i, svc <= i < svc + List.length l -> P i) ->
  Forall (fun r => P (service (snd r))) (records svc lib l).
Proof.
  intros H. apply (Forall_handles P).
  rewrite handles_records. apply Forall_seq. exact H.
Qed.

(** C1, as amended: when the start-up has initialized the [n] services
    and the [start] of the [k]-th service in start order throws an
    [Ice::Exception], then, the [stop] of every service returning,
    [stop] is called exactly once on every one of the [n] initialized
    services - those before the [k]-th, the [k]-th itself and those
    after it, which were never started -, [start] has been called on
    the services up to the [k]-th only, the failure is logged, after
    the services have been stopped, the Registry ends empty and [run]
    returns [EXIT_FAILURE]. *)
Theorem C1_start_failure_stops_all (argv : list string) (k : nat)
        (ex : Exception) :
  startup_succeeds env ->
  let dict := getPropertiesForPrefix env prefix in
  let n := List.length dict in
  let reason :=
    start_failure_reason env (name_of (fst (nth k dict ("", "")))) ex in
  k < n ->
  (forall i, i < k -> service_start env i = Returns) ->
  service_start env k = Raises (Ice ex) ->
  (forall i, i < n -> service_stop env i = Returns) ->
  exists st',
    run env (ServiceManagerI_new env argv) = (Normal EXIT_FAILURE, st') /\
    started (trace st') = seq 0 (S k) /\
    stopped (trace st') = seq 0 n /\
    errors (trace st') = [reason] /\
    (exists before, trace st' = before ++ [EvError reason]) /\
    _services st' = [].
Proof.
  intros Hok. cbv zeta. intros Hk Hbefore Hfail Hstops.
  pose proof (run_startup argv Hok) as Hrun.
  remember (getPropertiesForPrefix env prefix) as dict eqn:Edict.
  clear Edict Hok. rewrite Hrun. clear Hrun.
  unfold run_from_start.
  change (_services (after_inits env dict (ServiceManagerI_new env argv)))
    with (records 0 0 dict).
  destruct (records_split dict k Hk) as (l1 & l2 & Hd & Hl1 & Hrec).
  remember (name_of (fst (nth k dict ("", "")))) as name eqn:Ename.
  assert (Hpre : Forall (fun r => service_start env (service (snd r))
                                  = Returns) (records 0 0 l1)).
  { apply (returns_records (fun i => service_start env i = Returns)).
    intros i Hi. apply Hbefore. lia. }
  assert (Hret : stops_return env (records 0 0 dict)).
  { apply (returns_records (fun i => service_stop env i = Returns)).
    intros i Hi. apply Hstops. lia. }
  assert (Hss :
            start_services env (records 0 0 dict)
                           (after_inits env dict (ServiceManagerI_new env argv))
            = (Throw (FailureException_of
                        (start_failure_reason env name ex)),
               add_events [EvStart k]
                 (add_events (start_events (records 0 0 l1))
                    (after_inits env dict (ServiceManagerI_new env argv))))).
  { rewrite Hrec. rewrite (start_services_app _ _ _ Hpre).
    rewrite start_services_cons. cbn [service snd]. rewrite Hfail.
    destruct ex; reflexivity. }
  rewrite Hss. cbn [run_handlers FailureException_of].
  rewrite stopAll_after_failure by exact Hret.
  eexists. split; [reflexivity|].
  cbn [trace _services add_events set_services after_inits
       ServiceManagerI_new app _options _argv next_service next_library].
  split; [|split; [|split; [|split; [|reflexivity]]]].
  - rewrite !started_app, started_init_events, started_start_events,
      started_stop_events, handles_records, Hl1.
    cbn [app started flat_map]. rewrite !app_nil_r.
    symmetry. apply seq_S.
  - rewrite !stopped_app, stopped_init_events, stopped_stop_events,
      handles_records.
    unfold start_events. rewrite stopped_EvStart.
    cbn [app stopped flat_map]. rewrite !app_nil_r. reflexivity.
  - rewrite !errors_app, errors_init_events, errors_stop_events.
    unfold start_events. rewrite errors_EvStart. reflexivity.
  - eexists. rewrite !app_assoc. reflexivity.
Qed.

Lemma serve_ok (st : State) :
  adapter_activate env = Returns ->
  waitForShutdown env = Returns ->
  stops_return env (_services st) ->
  serve env st
  = (Normal tt,
     add_events (ready_events env ++ [EvActivate; EvWaitForShutdown]
                 ++ stop_events (_services st))
                (set_services [] st)).
Proof.
  intros Hactivate Hwait Hret. unfold serve, ready_events. cbv zeta.
  rewrite Hactivate, Hwait.
  destruct (negb (Str.empty (getProperty env "IceBox.PrintServicesReady")));
    unfold bind, emit, modify, add_event, call, ret; cbv beta iota;
    (rewrite stopAll_ok by exact Hret);
    cbn [_services add_events]; f_equal;
    unfold add_events, set_services; cbn;
    rewrite <- !app_assoc; reflexivity.
Qed.

(** [serve] when the [stop] of a service does not return: [stopAll]
    ends at the first of them. *)
Lemma serve_first_failure (pre post : map ServiceInfo) (k : string)
      (info : ServiceInfo) (st : State) (t : thrown) :
  adapter_activate env = Returns ->
  waitForShutdown env = Returns ->
  _services st = pre ++ (k, info) :: post ->
  stops_return env pre ->
  service_stop env (service info) = Raises t ->
  serve env st
  = (match t with
     | Ice _ => Undefined
     | NonIce => Throw NonIce
     end,
     add_events (ready_events env ++ [EvActivate; EvWaitForShutdown]
                 ++ stop_events pre ++ [EvStop (service info)])
                (set_services post st)).
Proof.
  intros Hactivate Hwait Hm Hret Hstop. unfold serve, ready_events.
  cbv zeta. rewrite Hactivate, Hwait.
  destruct (negb (Str.empty (getProperty env "IceBox.PrintServicesReady")));
    unfold bind, emit, modify, add_event, call, ret; cbv beta iota;
    (erewrite stopAll_first_failure; [|exact Hm|exact Hret|exact Hstop]);
    destruct t as [ex|]; f_equal;
    unfold add_events, set_services; cbn;
    rewrite <- !app_assoc; reflexivity.
Qed.

(** C8, the code at the failing input: the start-up, the start of every
    service, the activation of the adapter and [waitForShutdown] go
    through, and in the final [stopAll] the [stop] of the [k]-th
    service is the first that does not return and throws an
    [Ice::Exception]. Then [run] does not return [EXIT_SUCCESS] with the
    failure logged: the handler of [stop] reads its parameter, the key
    of the entry that [stop] has erased. Nothing has been logged, and the
    services after the [k]-th are in the Registry, not stopped. *)
Theorem C8_stop_failure_reads_erased_key (argv : list string) (k : nat)
        (ex : Exception) :
  startup_succeeds env ->
  let dict := getPropertiesForPrefix env prefix in
  let n := List.length dict in
  (forall i, i < n -> service_start env i = Returns) ->
  adapter_activate env = Returns ->
  waitForShutdown env = Returns ->
  k < n ->
  (forall i, i < k -> service_stop env i = Returns) ->
  service_stop env k = Raises (Ice ex) ->
  exists st',
    run env (ServiceManagerI_new env argv) = (Undefined, st') /\
    started (trace st') = seq 0 n /\
    stopped (trace st') = seq 0 (S k) /\
    errors (trace st') = [] /\
    handles (_services st') = seq (S k) (n - S k).
Proof.
  intros Hok. cbv zeta. intros Hstarts Hactivate Hwait Hk Hbefore Hfail.
  pose proof (run_startup argv Hok) as Hrun.
  remember (getPropertiesForPrefix env prefix) as dict eqn:Edict.
  clear Edict Hok. rewrite Hrun. clear Hrun.
  unfold run_from_start.
  change (_services (after_inits env dict (ServiceManagerI_new env argv)))
    with (records 0 0 dict).
  assert (Hret : Forall (fun r => service_start env (service (snd r))
                                  = Returns) (records 0 0 dict)).
  { apply (returns_records (fun i => service_start env i = Returns)).
    intros i Hi. apply Hstarts. lia. }
  rewrite (start_services_ok _ _ Hret).
  destruct (records_split dict k Hk) as (l1 & l2 & Hd & Hl1 & Hrec).
  assert (Hpre : stops_return env (records 0 0 l1)).
  { apply (returns_records (fun i => service_stop env i = Returns)).
    intros i Hi. apply Hbefore. lia. }
  assert (Hl2 : List.length l2 = List.length dict - S k).
  { rewrite Hd at 1. rewrite length_app. cbn [List.length]. lia. }
  unfold try_catch, bind at 1.
  erewrite serve_first_failure;
    [|exact Hactivate|exact Hwait
     |cbn [_services add_events after_inits]; exact Hrec
     |exact Hpre|exact Hfail].
  eexists. split; [reflexivity|].
  cbn [trace _services add_events set_services after_inits
       ServiceManagerI_new _options _argv next_service next_library
       service].
  assert (Hready : started (ready_events env) = []
                   /\ stopped (ready_events env) = []
                   /\ errors (ready_events env) = []).
  { unfold ready_events. destruct (negb _); repeat split; reflexivity. }
  destruct Hready as (Hr1 & Hr2 & Hr3).
  split; [|split; [|split]].
  - rewrite !started_app, started_init_events, started_start_events,
      started_stop_events, handles_records, Hr1.
    cbn [app started flat_map]. rewrite !app_nil_r. reflexivity.
  - rewrite !stopped_app, stopped_init_events, stopped_stop_events,
      handles_records, Hr2, Hl1.
    unfold start_events. rewrite stopped_EvStart.
    cbn [app stopped flat_map]. symmetry. apply seq_S.
  - rewrite !errors_app, errors_init_events, errors_stop_events, Hr3.
    unfold start_events. rewrite errors_EvStart. reflexivity.
  - rewrite handles_records, Hl2. reflexivity.
Qed.

End Facts.

(** *** The theorems at work on concrete environments *)

Import Scenario ScenarioMore.

Lemma three_services_startup (start stop : nat -> outcome) :
  startup_succeeds (three_services start stop).
Proof.
  split; [reflexivity|]. split; [reflexivity|].
  let d := eval vm_compute in
             (getPropertiesForPrefix (three_services start stop) prefix) in
  change (Forall (init_succeeds (three_services start stop)) d).
  repeat constructor.
Qed.

Lemma C1_start_failure_witness :
  exists st',
    run middle_start_fails (ServiceManagerI_new middle_start_fails argv0)
    = (Normal EXIT_FAILURE, st') /\
    started (trace st') = [0; 1] /\
    stopped (trace st') = [0; 1; 2] /\
    errors (trace st')
    = ["ServiceManager: exception in start for service Middle: boom"] /\
    (exists before,
        trace st'
        = before
          ++ [EvError
                "ServiceManager: exception in start for service Middle: boom"])
    /\ _services st' = [].
Proof.
  refine (C1_start_failure_stops_all middle_start_fails argv0 1
            (OtherException "boom" "boom") _ _ _ _ _).
  - apply three_services_startup.
  - vm_compute. lia.
  - intros i Hi. destruct i; [reflexivity|lia].
  - reflexivity.
  - intros i Hi. reflexivity.
Defined.

(** The start of the second of three services fails: [stop] is called
    on the second and on the third service too, although property 8.3 of
    the specification says that it is not called on the services from the
    failing one on. *)
Lemma C1_counterexample_later_services_stopped :
  let r := run middle_start_fails
               (ServiceManagerI_new middle_start_fails argv0) in
  service_start middle_start_fails 1 = Raises boom /\
  fst r = Normal EXIT_FAILURE /\
  initialized (trace (snd r)) = [(0, "First"); (1, "Middle"); (2, "Third")] /\
  started (trace (snd r)) = [0; 1] /\
  stopped (trace (snd r)) = [0; 1; 2] /\
  ~ (forall i, 1 <= i -> ~ In i (stopped (trace (snd r)))).
Proof.
  cbv zeta. repeat split; try reflexivity.
  intros H. apply (H 2); [lia|]. vm_compute. auto.
Qed.

Lemma C2_failure_translation_witness :
  fst (init factory_throws_failure "A" "ep" []
            (ServiceManagerI_new factory_throws_failure argv0))
  = Throw (FailureException_of
             (EntryPointFailure factory_throws_failure "ep"
                                 (FailureException "boom"))).
Proof.
  exact (proj1 (C2_failure_translation factory_throws_failure "A" "ep" []
                  (ServiceManagerI_new factory_throws_failure argv0)
                  eq_refl)
               (FailureException "boom") eq_refl).
Defined.

(** A factory that throws a [FailureException]: [init] does not raise it
    unchanged, it raises a new one with the entry point prefix. *)
Lemma C2_counterexample_factory_failure_wrapped :
  let r := init factory_throws_failure "A" "ep" []
                (ServiceManagerI_new factory_throws_failure argv0) in
  factory factory_throws_failure "ep" 0
  = Raises (Ice (FailureException "boom")) /\
  fst r = Throw (Ice (FailureException
    "ServiceManager: exception in entry point `ep': IceBox::FailureException"))
  /\ fst r <> Throw (Ice (FailureException "boom")).
Proof.
  cbv zeta. split; [reflexivity|]. split; [reflexivity|].
  vm_compute. discriminate.
Qed.

Lemma C4_init_composes_witness :
  let env := three_services (fun _ => Returns) (fun _ => Returns) in
  let r := init env "Third" "libT:create" ["--Third.x=1"; "7"]
                (ServiceManagerI_new env argv0) in
  trace (snd r)
  = [EvLoad 0 "libT:create"; EvFactory "libT:create";
     EvInit 0 "Third" ["--Third.y=2"; "--Third.x=1"; "--Third.z=3"] ["7"]]
  /\ fst r = Normal 0.
Proof.
  exact (C4_init_composes
           (three_services (fun _ => Returns) (fun _ => Returns))
           "Third" "libT:create" ["--Third.x=1"; "7"]
           (ServiceManagerI_new
              (three_services (fun _ => Returns) (fun _ => Returns)) argv0)
           eq_refl eq_refl).
Defined.

Lemma C5_stopAll_witness :
  exists st',
    stopAll middle_start_fails three_running = (Normal tt, st') /\
    _services st' = [] /\
    trace st' = [EvStop 0; EvStop 1; EvStop 2] /\
    stopped (trace st') = [0; 1; 2] /\
    errors (trace st') = [].
Proof.
  refine (proj1 (proj2 (C5_stopAll_empties_registry middle_start_fails
                          three_running)) _).
  repeat constructor.
Defined.

(** Three services, the [stop] of the second throws something that is
    not an [Ice::Exception]: the failure is not logged, it leaves
    [stopAll], and the third service is not stopped and stays in the
    Registry, although the claim says that a failure in one service is
    logged, not raised again, and that every remaining service is still
    stopped. *)
Lemma C5_counterexample_foreign_failure_raised :
  let r := stopAll middle_stop_foreign three_running in
  service_stop middle_stop_foreign 1 = Raises NonIce /\
  fst r = Throw NonIce /\
  errors (trace (snd r)) = [] /\
  stopped (trace (snd r)) = [0; 1] /\
  _services (snd r) = [("Third", {| service := 2; library := 2 |})] /\
  ~ In 2 (stopped (trace (snd r))).
Proof.
  cbv zeta. repeat split; try reflexivity.
  vm_compute. intuition discriminate.
Qed.

Lemma C6_stop_witness :
  let st1 := add_events [EvStop 0]
               (set_services
                  [("Middle", {| service := 1; library := 1 |});
                   ("Third", {| service := 2; library := 2 |})]
                  three_running) in
  stop_reentrant first_stop_fails (stop first_stop_fails (Caller "First"))
                 (Caller "First") three_running
  = (Abort, st1) /\
  trace (snd (stop_reentrant first_stop_fails (stopAll first_stop_fails)
                             (Caller "First") three_running))
  = [EvStop 0; EvStop 1; EvStop 2] /\
  stop first_stop_fails (Caller "First") three_running
  = (Throw (Ice (FailureException
       "ServiceManager: exception in stop for service First: boom")),
     st1) /\
  find "First" (_services st1) = None /\
  stop first_stop_fails (Caller "First") st1 = (Abort, st1).
Proof.
  pose proof (C6_stop_removes_record first_stop_fails (Caller "First")
                {| service := 0; library := 0 |} three_running
                eq_refl eq_refl) as H.
  cbv zeta in H.
  destruct H as (Hre & Hall & Hst & Hgone & Hagain & Hr).
  cbv zeta. split; [exact Hre|]. split.
  - rewrite Hall by (repeat constructor). reflexivity.
  - split.
    + apply injective_projections; [exact Hr|exact Hst].
    + rewrite Hst in Hgone, Hagain. split; [exact Hgone|exact Hagain].
Defined.

Lemma C7_start_order_witness :
  let r := run first_stop_fails
               (ServiceManagerI_new first_stop_fails argv0) in
  initialized (trace (snd r)) = [(0, "First"); (1, "Middle"); (2, "Third")] /\
  started (trace (snd r)) = [0; 1; 2].
Proof.
  pose proof (C7_start_in_discovery_order first_stop_fails argv0
                (three_services_startup _ _)) as H.
  cbv zeta in H. destruct H as (_ & Hinit & _ & Hall).
  split; [exact Hinit|].
  rewrite (Hall ltac:(repeat constructor)).
  cbv zeta. rewrite Hinit. reflexivity.
Defined.

Lemma C8_stop_failure_witness :
  exists st',
    run first_stop_fails (ServiceManagerI_new first_stop_fails argv0)
    = (Undefined, st') /\
    started (trace st') = [0; 1; 2] /\
    stopped (trace st') = [0] /\
    errors (trace st') = [] /\
    handles (_services st') = [1; 2].
Proof.
  refine (C8_stop_failure_reads_erased_key first_stop_fails argv0 0
            (OtherException "boom" "boom") _ _ _ _ _ _ _).
  - apply three_services_startup.
  - intros i Hi. reflexivity.
  - reflexivity.
  - reflexivity.
  - vm_compute. lia.
  - intros i Hi. lia.
  - reflexivity.
Defined.

Lemma C9_init_overwrites_witness :
  exists st',
    init first_stop_fails "Middle" "libM2:create" [] three_running
    = (Normal 3, st') /\
    find "Middle" (_services st') = Some {| service := 3; library := 3 |} /\
    keys (_services st') = ["First"; "Middle"; "Third"] /\
    ~ In 1 (handles (_services st')) /\
    stopped (trace st') = [] /\
    errors (trace st') = [].
Proof.
  refine (C9_init_overwrites first_stop_fails "Middle" "libM2:create" []
            {| service := 1; library := 1 |} three_running
            eq_refl _ _ eq_refl eq_refl eq_refl _).
  - repeat constructor.
  - repeat constructor; cbn; intuition discriminate.
  - intros view a. reflexivity.
Defined.

(** The Registry orders its records by name: two services initialized
    in descending order of their names are iterated, and stopped, in
    ascending order. In [run] the two orders agree because the services
    are found in ascending order of their keys. *)
Lemma registry_iterates_by_name :
  let env := three_services (fun _ => Returns) (fun _ => Returns) in
  let st0 := ServiceManagerI_new env argv0 in
  let st1 := snd (init env "b" "libB:create" [] st0) in
  let st2 := snd (init env "a" "libA:create" [] st1) in
  initialized (trace st2) = [(0, "b"); (1, "a")] /\
  keys (_services st2) = ["a"; "b"] /\
  stopped (trace (snd (stopAll env st2))) = [1; 0].
Proof. cbv zeta. repeat split; reflexivity. Qed.

End IceBoxFacts.

(** ** More on the tokenization of a service value
       (ServiceManagerI.cpp, lines 85-110) *)

Module DescriptorMore.

Import Str StrFacts Descriptor DescriptorFacts Render.

Lemma forall_chars_append (p : ascii -> bool) (a b : string) :
  forall_chars p (a ++ b) = forall_chars p a && forall_chars p b.
Proof.
  induction a as [|c a IH]; cbn; [reflexivity|].
  rewrite IH. apply andb_assoc.
Qed.

Lemma scan_word (p : ascii -> bool) (s : string) (i : nat) :
  forall_chars (fun x => negb (p x)) s = true -> scan p s i = None.
Proof.
  revert i. induction s as [|c s IH]; intros i H; cbn in *; [reflexivity|].
  apply andb_true_iff in H as [Hc Hs]. apply negb_true_iff in Hc.
  rewrite Hc. apply IH. exact Hs.
Qed.

Lemma scan_after_word (p : ascii -> bool) (pre : string) (d : ascii)
      (post : string) (i : nat) :
  forall_chars (fun x => negb (p x)) pre = true ->
  p d = true ->
  scan p (pre ++ String d post) i = Some (i + String.length pre).
Proof.
  revert i. induction pre as [|c pre IH]; intros i H Hd; cbn in *.
  - rewrite Hd. f_equal. lia.
  - apply andb_true_iff in H as [Hc Hs]. apply negb_true_iff in Hc.
    rewrite Hc, IH by assumption. f_equal. lia.
Qed.

Lemma spec_tokens_separator (d : ascii) (post : string) :
  is_separator d = true -> spec_tokens (String d post) = spec_tokens post.
Proof. intros Hd. unfold spec_tokens. cbn [tokens_from]. now rewrite Hd. Qed.

Lemma parse_args_npos (fuel : nat) (value : string) (args : StringSeq) :
  parse_args fuel value npos args = Some args.
Proof. destruct fuel; reflexivity. Qed.

(** The value cut at its first separator: the entry point is what comes
    before it, the arguments are the tokens of what comes after it. *)
Lemma parse_value_split (pre : string) (d : ascii) (post : string) :
  word pre = true ->
  is_separator d = true ->
  parse_value (pre ++ String d post) = Some (pre, spec_tokens post).
Proof.
  intros Hpre Hd. unfold parse_value, find_first_of. cbn [skip].
  rewrite (scan_after_word _ pre d post 0) by assumption. cbn [Nat.add].
  assert (Hskip : skip (String.length pre) (pre ++ String d post)
                  = String d post) by apply skip_append.
  pose proof (spec_tokens_after_gap _ _ d post Hskip Hd) as Hgap.
  unfold substr. rewrite substring_prefix.
  destruct (find_first_not_of (pre ++ String d post) separators
                              (String.length pre)) as [b|].
  - destruct Hgap as (c & s & Hs & Hc & Hlt & Htok).
    rewrite (parse_args_tokens _ _ b c s [] Hs Hc).
    + rewrite Htok. reflexivity.
    + rewrite <- Hs, length_skip. lia.
  - rewrite Hgap. change (@None nat) with npos. rewrite parse_args_npos.
    reflexivity.
Qed.

Lemma parse_value_word (value : string) :
  word value = true -> parse_value value = Some (value, []).
Proof.
  intros H. unfold parse_value, find_first_of. cbn [skip].
  rewrite scan_word; [reflexivity|exact H].
Qed.

(** X1: for every value, also one that begins with separators or is
    empty, lines 85-110 take as entry point the longest prefix of the value
    without space, tab or newline - empty when the value begins with one -
    and as arguments the tokens of the rest of the value. *)
Theorem X1_parse_value_exact (value : string) :
  exists entryPoint rest,
    value = (entryPoint ++ rest)%string /\
    word entryPoint = true /\
    (rest = EmptyString \/
     exists d post, rest = String d post /\ is_separator d = true) /\
    parse_value value = Some (entryPoint, spec_tokens rest).
Proof.
  destruct (scan is_separator value 0) as [pos|] eqn:Hscan.
  - apply scan_Some in Hscan as (pre & d & post & -> & _ & Hpre & Hd).
    exists pre, (String d post).
    split; [reflexivity|]. split; [exact Hpre|].
    split; [right; eauto|].
    rewrite spec_tokens_separator by exact Hd.
    apply parse_value_split; assumption.
  - apply scan_None in Hscan.
    exists value, EmptyString.
    split; [now rewrite append_empty_r|]. split; [exact Hscan|].
    split; [left; reflexivity|].
    apply parse_value_word. exact Hscan.
Qed.

Lemma tokens_from_arguments (s : string) :
  forall cur : string,
    word cur = true -> Forall argument (tokens_from s cur).
Proof.
  induction s as [|c s IH]; intros cur Hcur; cbn [tokens_from].
  - unfold close_token. destruct cur as [|x cur]; cbn [Str.empty].
    + constructor.
    + constructor; [|constructor]. split; [discriminate|exact Hcur].
  - destruct (is_separator c) eqn:Hc.
    + unfold close_token. destruct cur as [|x cur]; cbn [Str.empty].
      * apply IH. reflexivity.
      * constructor; [split; [discriminate|exact Hcur]|].
        apply IH. reflexivity.
    + apply IH. unfold word in *. rewrite forall_chars_append, Hcur.
      cbn. unfold not_separator. now rewrite Hc.
Qed.

(** X2: whatever the value - runs of separators, separators at its end -
    the entry point that lines 85-110 give has no space, tab or newline,
    and every argument is a non-empty string without space, tab or
    newline: no empty argument is ever made. *)
Theorem X2_parse_value_words (value : string) :
  exists entryPoint args,
    parse_value value = Some (entryPoint, args) /\
    String.prefix entryPoint value = true /\
    word entryPoint = true /\
    Forall argument args.
Proof.
  destruct (X1_parse_value_exact value)
    as (entryPoint & rest & Hvalue & Hword & _ & Hparse).
  exists entryPoint, (spec_tokens rest).
  split; [exact Hparse|]. split; [|split; [exact Hword|]].
  - apply prefix_correct. rewrite Hvalue. apply substring_prefix.
  - apply tokens_from_arguments. reflexivity.
Qed.

Lemma tokens_from_render (args : StringSeq) :
  forall cur : string,
    Forall argument args ->
    tokens_from (render_args args) cur = close_token cur args.
Proof.
  induction args as [|a args IH]; intros cur Hargs; [reflexivity|].
  inversion Hargs as [|? ? [Hne Hword] Hrest]; subst.
  cbn [render_args tokens_from append].
  change (is_separator " ") with true. cbv iota.
  rewrite tokens_from_word by exact Hword. cbn [append].
  rewrite IH by exact Hrest.
  unfold close_token at 2. destruct a; [contradiction|reflexivity].
Qed.

(** X3: a descriptor written as the entry point followed by its
    arguments, each after one space, is read back by lines 85-110 as the
    same entry point and the same arguments, when the entry point has no
    separator and the arguments are non-empty and have none. *)
Theorem X3_parse_render (entryPoint : string) (args : StringSeq) :
  word entryPoint = true ->
  Forall argument args ->
  parse_value (render entryPoint args) = Some (entryPoint, args).
Proof.
  intros Hep Hargs. unfold render. destruct args as [|a args].
  - cbn [render_args]. rewrite append_empty_r. apply parse_value_word.
    exact Hep.
  - cbn [render_args append].
    rewrite (parse_value_split entryPoint " " _ Hep eq_refl).
    f_equal. f_equal.
    inversion Hargs as [|? ? [Hne Hword] Hrest]; subst.
    unfold spec_tokens. rewrite tokens_from_word by exact Hword.
    cbn [append]. rewrite tokens_from_render by exact Hrest.
    unfold close_token. destruct a; [contradiction|reflexivity].
Qed.

Lemma X3_parse_render_witness :
  parse_value (render "libB:create" ["--Beta.x=1"; "7"])
  = Some ("libB:create", ["--Beta.x=1"; "7"]).
Proof.
  apply X3_parse_render; [reflexivity|].
  repeat constructor; discriminate.
Defined.

End DescriptorMore.

(** ** More on reference counting (Shared.h) *)

Module SharedMore.

Import Shared SharedFacts RefCounting Atomic.
Local Open Scope Z_scope.

Lemma incRef_n_count (n : nat) :
  forall s : SimpleShared,
    0 <= _ref s ->
    _ref s + Z.of_nat n <= INT_MAX ->
    incRef_n n s
    = Done {| _ref := _ref s + Z.of_nat n; _noDelete := _noDelete s |}.
Proof.
  induction n as [|n IH]; intros s H0 Hmax.
  - cbn. rewrite Z.add_0_r. destruct s; reflexivity.
  - cbn [incRef_n]. rewrite incRef_in_range by lia.
    rewrite IH by (cbn; lia). cbn [_ref _noDelete].
    do 2 f_equal. lia.
Qed.

Lemma decRef_n_S (n : nat) (s : SimpleShared) :
  decRef_n (S n) s
  = match __decRef s with
    | Done (Alive s') => decRef_n n s'
    | other => other
    end.
Proof. reflexivity. Qed.

Lemma decRef_n_alive (n : nat) :
  forall s : SimpleShared,
    Z.of_nat n < _ref s <= INT_MAX ->
    decRef_n n s
    = Done (Alive {| _ref := _ref s - Z.of_nat n; _noDelete := _noDelete s |}).
Proof.
  induction n as [|n IH]; intros s H.
  - cbn. rewrite Z.sub_0_r. destruct s; reflexivity.
  - cbn [decRef_n]. rewrite decRef_in_range by lia.
    destruct (Z.eqb_spec (_ref s) 1) as [E|E]; [lia|]. cbn [andb].
    rewrite IH by (cbn; lia). cbn [_ref _noDelete].
    do 3 f_equal. lia.
Qed.

(** X4: [n >= 1] calls of [__incRef] on a new [SimpleShared] followed by
    calls of [__decRef]: after [j < n] of them the object is alive with
    count [n - j]; the [n]-th deletes it, and not an earlier one - unless
    [__setNoDelete(true)] was called, when it stays alive with count 0. *)
Theorem X4_balanced_calls (n : nat) (noDelete : bool) :
  (1 <= n)%nat ->
  Z.of_nat n <= INT_MAX ->
  exists s,
    incRef_n n (__setNoDelete noDelete SimpleShared_new) = Done s /\
    __getRef s = Z.of_nat n /\
    (forall j, (j < n)%nat ->
               decRef_n j s
               = Done (Alive {| _ref := Z.of_nat n - Z.of_nat j;
                                _noDelete := noDelete |})) /\
    decRef_n n s
    = if noDelete
      then Done (Alive {| _ref := 0; _noDelete := true |})
      else Done Deleted.
Proof.
  intros Hn Hmax. eexists. split.
  { apply incRef_n_count; cbn; lia. }
  cbn [_ref _noDelete __setNoDelete SimpleShared_new __getRef Z.add].
  split; [reflexivity|]. split.
  - intros j Hj. rewrite decRef_n_alive by (cbn; lia). reflexivity.
  - destruct n as [|n]; [lia|].
    assert (Hlast :
              forall k s, _ref s = Z.of_nat (S k) -> _ref s <= INT_MAX ->
                          decRef_n (S k) s
                          = if _noDelete s
                            then Done (Alive {| _ref := 0;
                                                _noDelete := _noDelete s |})
                            else Done Deleted).
    { induction k as [|k IHk]; intros s Hs Hm.
      - rewrite decRef_n_S, decRef_in_range by lia.
        destruct (Z.eqb_spec (_ref s) 1) as [E|E]; [|cbn in Hs; lia].
        rewrite E. destruct (_noDelete s); reflexivity.
      - rewrite decRef_n_S, decRef_in_range by lia.
        destruct (Z.eqb_spec (_ref s) 1) as [E|E]; [lia|]. cbn [andb].
        rewrite (IHk {| _ref := _ref s - 1; _noDelete := _noDelete s |})
          by (cbn; lia).
        reflexivity. }
    rewrite Hlast by (cbn; lia). cbn [_noDelete].
    destruct noDelete; reflexivity.
Qed.

Lemma X4_balanced_calls_witness :
  exists s,
    incRef_n 3 (__setNoDelete false SimpleShared_new) = Done s /\
    __getRef s = 3 /\
    (forall j, (j < 3)%nat ->
               decRef_n j s
               = Done (Alive {| _ref := 3 - Z.of_nat j;
                                _noDelete := false |})) /\
    decRef_n 3 s = Done Deleted.
Proof.
  refine (X4_balanced_calls 3 false _ _).
  - lia.
  - unfold INT_MAX. simpl. lia.
Defined.

(** X5: [__decRef] on a count that is not positive - a release without
    a matching [__incRef], as on a new object - and [__incRef] on a
    negative count stop at their assertions and neither change nor delete
    the object; on every other count both return. *)
Theorem X5_assertions (s : SimpleShared) :
  is_int (_ref s) ->
  (__decRef s = AssertionFailed <-> _ref s <= 0) /\
  (__incRef s = AssertionFailed <-> _ref s < 0).
Proof.
  intros Hint. unfold __decRef, __incRef. split.
  - destruct (Z.ltb_spec 0 (_ref s)) as [H|H].
    + cbv zeta. split; [|lia].
      destruct (wrap_int (_ref s - 1) =? 0); [destruct (negb _)|];
        discriminate.
    + split; [intros _; exact H|reflexivity].
  - destruct (Z.leb_spec 0 (_ref s)) as [H|H].
    + split; [discriminate|lia].
    + split; [intros _; exact H|reflexivity].
Qed.

Lemma X5_assertions_witness :
  __decRef SimpleShared_new = AssertionFailed.
Proof.
  apply (proj1 (X5_assertions SimpleShared_new
                  ltac:(unfold is_int, INT_MIN, INT_MAX; simpl; lia))).
  simpl. lia.
Defined.

Lemma atomic_read (v : atomic_t) :
  is_int (counter v) -> atomic_exchange_add 0 v = (v, counter v).
Proof.
  intros H. unfold atomic_exchange_add. cbv zeta.
  rewrite Z.add_0_r, wrap_int_id by exact H. destruct v; reflexivity.
Qed.

(** X6: run by one thread, the operations of the thread-safe [Shared]
    on its atomic counter do what those of [SimpleShared] do on the same
    count and flag: [__incRef] and [__decRef] stop at the same assertions,
    leave the same count and delete the object in the same cases, and
    [__getRef] reads the count without changing the object. *)
Theorem X6_Shared_as_SimpleShared (s : AtomicShared) :
  is_int (counter (a_ref s)) ->
  exec_map simple (a_incRef s) = __incRef (simple s) /\
  exec_map simple_object (a_decRef s) = __decRef (simple s) /\
  a_getRef s = (s, __getRef (simple s)) /\
  simple (a_setNoDelete true s) = __setNoDelete true (simple s) /\
  simple (a_setNoDelete false s) = __setNoDelete false (simple s) /\
  (forall garbage, simple (Shared_new garbage) = SimpleShared_new).
Proof.
  intros Hint. unfold a_incRef, a_decRef, a_getRef.
  rewrite (atomic_read _ Hint).
  unfold __incRef, __decRef, __getRef, simple. cbn [_ref _noDelete].
  split; [|split; [|split; [|split; [|split]]]].
  - destruct (0 <=? counter (a_ref s)); reflexivity.
  - destruct (0 <? counter (a_ref s)); [|reflexivity].
    unfold atomic_dec_and_test. cbv zeta.
    destruct (wrap_int (counter (a_ref s) - 1) =? 0);
      destruct (a_noDelete s); reflexivity.
  - destruct s; reflexivity.
  - reflexivity.
  - reflexivity.
  - reflexivity.
Qed.

Lemma X6_Shared_witness :
  exec_map simple_object
           (a_decRef {| a_ref := {| counter := 1 |}; a_noDelete := false |})
  = __decRef {| _ref := 1; _noDelete := false |}.
Proof.
  exact (proj1 (proj2 (X6_Shared_as_SimpleShared
                         {| a_ref := {| counter := 1 |}; a_noDelete := false |}
                         ltac:(unfold is_int, INT_MIN, INT_MAX; simpl; lia)))).
Defined.

End SharedMore.

(** ** More on [std::map] *)

Module StdMapMore.

Import StdMap StdMapFacts.

Section Facts.

Context {V : Type}.
Implicit Types (m : map V) (k : string) (v : V).

Lemma find_assign_other k k' v m :
  k' <> k -> find k' (assign k v m) = find k' m.
Proof.
  intros Hne. induction m as [|[k2 v2] m IH]; cbn [assign find].
  - destruct (key_compare k' k) eqn:E; [|reflexivity|reflexivity].
    apply key_compare_eq in E. contradiction.
  - destruct (key_compare k k2) eqn:E; cbn [find].
    + apply key_compare_eq in E. subst k2.
      destruct (key_compare k' k) eqn:E'; [|reflexivity|reflexivity].
      apply key_compare_eq in E'. contradiction.
    + destruct (key_compare k' k) eqn:E'; [|reflexivity|reflexivity].
      apply key_compare_eq in E'. contradiction.
    + rewrite IH. reflexivity.
Qed.

Lemma erase_assign_absent k v m :
  find k m = None -> erase k (assign k v m) = m.
Proof.
  induction m as [|[k2 v2] m IH]; intros Hf; cbn [assign erase find] in *.
  - now rewrite key_compare_refl.
  - destruct (key_compare k k2) eqn:E; [discriminate| |].
    + cbn [erase]. now rewrite key_compare_refl.
    + cbn [erase]. rewrite E, IH by exact Hf. reflexivity.
Qed.

(** The entry that [find] gives is the one [erase] takes out. *)
Lemma find_erase_split k v m :
  find k m = Some v ->
  exists m1 m2, m = m1 ++ (k, v) :: m2 /\ erase k m = m1 ++ m2.
Proof.
  induction m as [|[k2 v2] m IH]; intros Hf; [discriminate|].
  cbn [find erase] in *. destruct (key_compare k k2) eqn:E.
  - apply key_compare_eq in E. subst k2. inversion Hf; subst v2.
    exists [], m. split; reflexivity.
  - destruct (IH Hf) as (m1 & m2 & -> & ->).
    exists ((k2, v2) :: m1), m2. split; reflexivity.
  - destruct (IH Hf) as (m1 & m2 & -> & ->).
    exists ((k2, v2) :: m1), m2. split; reflexivity.
Qed.

End Facts.

End StdMapMore.

(** ** More on [init], [stop] and [stopAll] *)

Module LifecycleMore.

Import Str StrFacts StdMap StdMapFacts StdMapMore IceBox IceBoxFacts.

Section Facts.

Context {Properties : Type} (env : Env Properties).

Local Abbreviation State := (State Properties).
Local Abbreviation event := (event Properties).

Lemma init_outcomes (name entryPoint : string) (args : StringSeq)
      (st : State) :
  match init env name entryPoint args st with
  | (Normal h, st') =>
      h = next_service st /\
      _services st'
      = assign name {| service := next_service st;
                       library := next_library st |} (_services st) /\
      loadEntryPoint env entryPoint = true /\
      factory env entryPoint (next_service st) = Returns
  | (Throw (Ice (FailureException _)), st') => _services st' = _services st
  | (Throw NonIce, st') =>
      _services st' = _services st /\
      factory env entryPoint (next_service st) = Returns
  | (Throw (Ice (OtherException _ _)), _) => False
  | (Abort, _) => False
  | (OutOfFuel, _) => False
  | (Undefined, _) => False
  end.
Proof.
  rewrite init_eq.
  destruct (spec_compose env (_options st) (_argv st) name args)
    as [view residual].
  cbv zeta.
  destruct (loadEntryPoint env entryPoint); [|reflexivity].
  destruct (factory env entryPoint (next_service st)) as [|[ex|]] eqn:Hf;
    try reflexivity.
  destruct (service_init env (next_service st) name view residual)
    as [|[[reason|n p]|]]; cbn [_services set_services add_events
                                new_service new_library];
    repeat split; reflexivity.
Qed.

(** X7: [init] has three ways out. It returns the handle of the service
    it has created, and then the Registry has got exactly the record
    of that name; or it raises a [FailureException]; or an exception that
    is not an [Ice::Exception], thrown by the service's [init], goes
    through. Whenever it raises, the Registry is as it was before the
    call. It never raises an [Ice::Exception] of another class, no
    assertion fails in it and it reads no destroyed object. *)
Theorem X7_init_outcomes (name entryPoint : string) (args : StringSeq)
        (st : State) :
  match init env name entryPoint args st with
  | (Normal h, st') =>
      h = next_service st /\
      _services st'
      = assign name {| service := next_service st;
                       library := next_library st |} (_services st) /\
      loadEntryPoint env entryPoint = true /\
      factory env entryPoint (next_service st) = Returns
  | (Throw (Ice (FailureException _)), st') => _services st' = _services st
  | (Throw NonIce, st') =>
      _services st' = _services st /\
      factory env entryPoint (next_service st) = Returns
  | (Throw (Ice (OtherException _ _)), _) => False
  | (Abort, _) => False
  | (OutOfFuel, _) => False
  | (Undefined, _) => False
  end.
Proof. apply init_outcomes. Qed.

(** X8: when the library gives no symbol for the entry point, [init]
    raises a [FailureException] whose reason is
    [ServiceManager: unable to load entry point `<entryPoint>'], followed
    by [: <message>] when the library has an error message; the factory
    is not called, no service is created and the Registry is unchanged. *)
Theorem X8_load_failure (name entryPoint : string) (args : StringSeq)
        (st : State) :
  loadEntryPoint env entryPoint = false ->
  exists st',
    init env name entryPoint args st
    = (Throw (Ice (FailureException
         (("ServiceManager: unable to load entry point `"
             ++ entryPoint ++ "'")
            ++ (if Str.empty (getErrorMessage env entryPoint) then ""
                else ": " ++ getErrorMessage env entryPoint))%string)),
       st') /\
    trace st' = trace st ++ [EvLoad (next_library st) entryPoint] /\
    _services st' = _services st /\
    next_service st' = next_service st.
Proof.
  intros Hload. rewrite init_eq.
  destruct (spec_compose env (_options st) (_argv st) name args)
    as [view residual].
  cbv zeta. rewrite Hload. eexists. split.
  { unfold FailureException_of, LoadFailure. cbv zeta.
    destruct (Str.empty (getErrorMessage env entryPoint)); cbn [negb].
    - now rewrite append_empty_r.
    - reflexivity. }
  repeat split; reflexivity.
Qed.

(** X9: when [init] succeeds for a name that was not in the Registry,
    the record is found under that name, and a [stop] of that name calls
    the [stop] of the new service and gives back the Registry as it was
    before the [init]. *)
Theorem X9_init_then_stop (name entryPoint : string) (args : StringSeq)
        (st : State) :
  find name (_services st) = None ->
  loadEntryPoint env entryPoint = true ->
  factory env entryPoint (next_service st) = Returns ->
  (forall view a,
      service_init env (next_service st) name view a = Returns) ->
  let st1 := snd (init env name entryPoint args st) in
  let st2 := snd (stop env (Caller name) st1) in
  fst (init env name entryPoint args st) = Normal (next_service st) /\
  find name (_services st1)
  = Some {| service := next_service st; library := next_library st |} /\
  _services st2 = _services st /\
  stopped (trace st2) = stopped (trace st) ++ [next_service st].
Proof.
  intros Habsent Hload Hfactory Hinit. cbv zeta. rewrite init_eq.
  destruct (spec_compose env (_options st) (_argv st) name args)
    as [view residual].
  cbv zeta. rewrite Hload, Hfactory, Hinit. cbn [fst snd].
  split; [reflexivity|].
  cbn [_services set_services add_events new_service new_library].
  split; [apply find_assign|].
  rewrite stop_eq.
  cbn [_services set_services add_events new_service new_library
       name_of_ref].
  rewrite find_assign, stop_service_eq. cbv zeta.
  rewrite erase_assign_absent by exact Habsent.
  destruct (service_stop env _) as [|[ex|]];
    cbn [snd _services trace set_services add_events new_service new_library
         service];
    (split; [reflexivity|]);
    rewrite <- !app_assoc, !stopped_app; cbn; rewrite ?app_nil_r;
    reflexivity.
Qed.

(** X10: [init] and [stop] of one name leave the record of every other
    name as it is, whatever their outcome, and whether [stop] is given
    the name in a string of the caller's or as the key of the entry. *)
Theorem X10_other_records_kept (service_name : name_ref)
        (other entryPoint : string) (args : StringSeq) (st : State) :
  let name := name_of_ref service_name in
  other <> name ->
  find other (_services (snd (init env name entryPoint args st)))
  = find other (_services st) /\
  find other (_services (snd (stop env service_name st)))
  = find other (_services st).
Proof.
  cbv zeta. intros Hne. split.
  - pose proof (init_outcomes (name_of_ref service_name) entryPoint args st)
      as H.
    destruct (init env (name_of_ref service_name) entryPoint args st)
      as [[h|[[reason|n p]|]| | |] st'];
      cbn [snd]; try contradiction.
    + destruct H as (_ & -> & _). apply find_assign_other. exact Hne.
    + now rewrite H.
    + destruct H as [-> _]. reflexivity.
  - rewrite stop_eq.
    destruct (find (name_of_ref service_name) (_services st)) as [info|];
      [|reflexivity].
    rewrite stop_service_eq. cbv zeta.
    destruct (service_stop env (service info)) as [|[ex|]];
      try destruct service_name;
      cbn [snd _services set_services add_events name_of_ref] in *;
      apply find_erase_other; congruence.
Qed.


(** X12: [stopAll] on an empty Registry returns at once and calls
    nothing; so a second [stopAll], made after one that has returned,
    stops no service a second time. *)
Theorem X12_stopAll_twice (st st' : State) :
  stopAll env st = (Normal tt, st') ->
  stopAll env st' = (Normal tt, st').
Proof.
  intros H. apply stopAll_returns_empty in H.
  unfold stopAll, bind, get. cbv beta iota. rewrite H.
  cbn [List.length begin stopAll_loop]. unfold ret. cbv beta iota.
  rewrite H. reflexivity.
Qed.

End Facts.

Import Scenario ScenarioMore.

Lemma X8_load_failure_witness :
  exists st',
    init load_fails "Bad" "libMissing:create" []
         (ServiceManagerI_new load_fails argv0)
    = (Throw (Ice (FailureException
         "ServiceManager: unable to load entry point `libMissing:create': no such file")),
       st') /\
    trace st' = [EvLoad 0 "libMissing:create"] /\
    _services st' = [] /\
    next_service st' = 0.
Proof.
  exact (X8_load_failure load_fails "Bad" "libMissing:create" []
           (ServiceManagerI_new load_fails argv0) eq_refl).
Defined.

Lemma X9_init_then_stop_witness :
  let st := three_running in
  let st1 := snd (init first_stop_fails "Zeta" "libZ:create" [] st) in
  let st2 := snd (stop first_stop_fails (Caller "Zeta") st1) in
  find "Zeta" (_services st1) = Some {| service := 3; library := 3 |} /\
  _services st2 = _services st /\
  stopped (trace st2) = [3].
Proof.
  pose proof (X9_init_then_stop first_stop_fails "Zeta" "libZ:create" []
                three_running eq_refl eq_refl eq_refl
                (fun _ _ => eq_refl)) as H.
  cbv zeta in H. destruct H as (_ & H1 & H2 & H3).
  exact (conj H1 (conj H2 H3)).
Defined.

Lemma X10_other_records_witness :
  find "Third"
       (_services (snd (stop first_stop_fails (EntryKey "First")
                             three_running)))
  = Some {| service := 2; library := 2 |}.
Proof.
  exact (proj2 (X10_other_records_kept first_stop_fails (EntryKey "First")
                  "Third" "" [] three_running ltac:(discriminate))).
Defined.


Lemma X12_stopAll_twice_witness :
  let st' := snd (stopAll middle_start_fails three_running) in
  stopped (trace st') = [0; 1; 2] /\
  stopAll middle_start_fails st' = (Normal tt, st').
Proof.
  cbv zeta. split; [reflexivity|].
  apply X12_stopAll_twice with (st := three_running).
  reflexivity.
Defined.

End LifecycleMore.

(** ** More on [run] *)

Module RunMore.

Import Str StrFacts StdMap StdMapFacts StdMapMore IceBox IceBoxFacts.
Import Lifecycle LifecycleMore.

Section Facts.

Context {Properties : Type} (env : Env Properties).

Local Abbreviation State := (State Properties).
Local Abbreviation event := (event Properties).

(** *** The events of [init] *)

Lemma init_trace (name entryPoint : string) (args : StringSeq) (st : State) :
  exists evs,
    trace (snd (init env name entryPoint args st)) = trace st ++ evs /\
    silent evs /\
    (initialized evs = [] \/ initialized evs = [(next_service st, name)]).
Proof.
  rewrite init_eq.
  destruct (spec_compose env (_options st) (_argv st) name args)
    as [view residual].
  cbv zeta.
  destruct (loadEntryPoint env entryPoint).
  - destruct (factory env entryPoint (next_service st)) as [|[ex|]].
    + exists [EvLoad (next_library st) entryPoint; EvFactory entryPoint;
              EvInit (next_service st) name view residual].
      split; [|split; [repeat split|right; reflexivity]].
      destruct (service_init env (next_service st) name view residual)
        as [|[[reason|n p]|]];
        cbn [snd trace set_services add_events new_service new_library];
        rewrite <- !app_assoc; reflexivity.
    + exists [EvLoad (next_library st) entryPoint; EvFactory entryPoint].
      split; [|split; [repeat split|left; reflexivity]].
      cbn [snd trace add_events new_library].
      rewrite <- !app_assoc. reflexivity.
    + exists [EvLoad (next_library st) entryPoint; EvFactory entryPoint].
      split; [|split; [repeat split|left; reflexivity]].
      cbn [snd trace add_events new_library].
      rewrite <- !app_assoc. reflexivity.
  - exists [EvLoad (next_library st) entryPoint].
    split; [reflexivity|]. split; [repeat split|left; reflexivity].
Qed.

(** *** The loop over the services found, cut in two *)

Lemma init_services_app (a b : map string) (st : State) :
  init_services env (a ++ b) st
  = match init_services env a st with
    | (Normal _, st') => init_services env b st'
    | other => other
    end.
Proof.
  revert st. induction a as [|[key value] a IH]; intros st; [reflexivity|].
  cbn [app init_services]. cbv zeta.
  destruct (Descriptor.parse_value value) as [[entryPoint args]|];
    [|reflexivity].
  unfold bind.
  destruct (init env _ entryPoint args st) as [[h|t| | |] st1];
    try reflexivity.
  apply IH.
Qed.

Lemma sorted_app_l {V : Type} (a b : map V) :
  sorted (a ++ b) = true -> sorted a = true.
Proof.
  induction a as [|[k v] a IH]; intros H; [reflexivity|].
  cbn [app] in H. apply sorted_cons in H as [Ha Hs].
  apply sorted_cons. split; [|exact (IH Hs)].
  apply Forall_app in Ha. tauto.
Qed.

(** After the entries of [l1], for which [init] succeeds, the loop goes on
    with the rest from the state that holds their records. *)
Lemma init_services_after (argv : list string) (l1 rest : map string) :
  getPropertiesForPrefix env prefix = l1 ++ rest ->
  Forall (init_succeeds env) l1 ->
  init_services env (l1 ++ rest) (ServiceManagerI_new env argv)
  = init_services env rest (after_inits env l1 (ServiceManagerI_new env argv)).
Proof.
  intros Hdict Hok. rewrite init_services_app.
  rewrite init_services_ok; [reflexivity|exact Hok|].
  cbn [_services ServiceManagerI_new app next_service next_library].
  pose proof (getPropertiesForPrefix_keys env) as Hkeys.
  pose proof (getPropertiesForPrefix_sorted env) as Hsorted.
  rewrite Hdict in Hkeys, Hsorted.
  apply records_sorted.
  - apply Forall_app in Hkeys. tauto.
  - eapply sorted_app_l. exact Hsorted.
Qed.

Lemma stops_return_records (l : map string) :
  (forall i, i < List.length l -> service_stop env i = Returns) ->
  stops_return env (records 0 0 l).
Proof.
  intros H. apply (returns_records (fun i => service_stop env i = Returns)).
  intros i Hi. apply H. lia.
Qed.

Lemma stop_events_handles (m : map ServiceInfo) :
  stop_events (Properties := Properties) m
  = List.map (fun i => EvStop i) (handles m).
Proof. unfold stop_events, handles. rewrite map_map. reflexivity. Qed.

(** X13: when the adapter is there, [init] has succeeded for the first
    [k] services found and raises a [FailureException] for the next one,
    then, the [stop] of the [k] services returning, [run] calls [stop]
    once on each of the [k] services already initialized and on no
    other, calls no [start] and does not call [init] for the services
    after the failing one, logs the reason, after the services have
    been stopped, and returns [EXIT_FAILURE] with an empty Registry. *)
Theorem X13_init_failure (argv : list string) (l1 l2 : map string)
        (key value reason : string) :
  createObjectAdapterFromProperty env = Returns ->
  adapter_add env = Returns ->
  getPropertiesForPrefix env prefix = l1 ++ (key, value) :: l2 ->
  Forall (init_succeeds env) l1 ->
  fst (init env (name_of key) (fst (descriptor value))
            (snd (descriptor value))
            (after_inits env l1 (ServiceManagerI_new env argv)))
  = Throw (Ice (FailureException reason)) ->
  (forall i, i < List.length l1 -> service_stop env i = Returns) ->
  exists st',
    run env (ServiceManagerI_new env argv) = (Normal EXIT_FAILURE, st') /\
    started (trace st') = [] /\
    stopped (trace st') = seq 0 (List.length l1) /\
    errors (trace st') = [reason] /\
    (exists before, trace st' = before ++ [EvError reason]) /\
    List.length (initialized (trace st')) <= S (List.length l1) /\
    _services st' = [].
Proof.
  intros Hcreate Hadd Hdict Hok Hfail Hstops.
  unfold run, run_try. rewrite Hcreate, Hadd, Hdict.
  unfold try_catch at 1. unfold bind at 1 2 3. cbn [call ret].
  unfold bind at 1.
  rewrite (init_services_after argv l1 _ Hdict Hok).
  set (st_k := after_inits env l1 (ServiceManagerI_new env argv)) in *.
  cbn [init_services]. cbv zeta.
  destruct (DescriptorFacts.parse_value_total value)
    as (entryPoint & args & Hparse).
  assert (Hd : descriptor value = (entryPoint, args))
    by (unfold descriptor; now rewrite Hparse).
  rewrite Hd in Hfail. cbn [fst snd] in Hfail.
  rewrite Hparse. fold (name_of key). unfold bind at 1.
  pose proof (init_outcomes env (name_of key) entryPoint args st_k) as Hout.
  destruct (init_trace (name_of key) entryPoint args st_k)
    as (evs & Htrace & (Hs & Hp & He) & Hi).
  destruct (init env (name_of key) entryPoint args st_k) as [r st_f].
  cbn [fst snd] in *. subst r.
  cbn [run_handlers].
  assert (Hreg : _services st_f = records 0 0 l1) by (rewrite Hout; reflexivity).
  rewrite stopAll_after_failure
    by (rewrite Hreg; apply stops_return_records; exact Hstops).
  eexists. split; [reflexivity|].
  cbn [trace _services add_events set_services]. rewrite Htrace, Hreg.
  subst st_k.
  cbn [trace after_inits ServiceManagerI_new _options _argv
       next_service next_library].
  rewrite !app_nil_l.
  rewrite !started_app, !stopped_app, !errors_app, !initialized_app.
  rewrite started_init_events, stopped_init_events, errors_init_events,
    initialized_init_events.
  rewrite started_stop_events, stopped_stop_events, errors_stop_events,
    initialized_stop_events.
  rewrite Hs, Hp, He, handles_records.
  cbn [app started stopped errors initialized flat_map].
  rewrite ?app_nil_r.
  split; [reflexivity|]. split; [reflexivity|]. split; [reflexivity|].
  split; [eexists; rewrite !app_assoc; reflexivity|].
  split; [|reflexivity].
  rewrite !length_app, length_combine, length_seq, length_map, Nat.min_id.
  destruct Hi as [-> | ->]; cbn [List.length]; lia.
Qed.

(** X14: when the adapter cannot be created, or the manager cannot be
    added to it, because of an [Ice::Exception], [run] logs it - the
    reason of a [FailureException], [ServiceManager: ] and the printed
    exception otherwise -, loads and initializes no service and returns
    [EXIT_FAILURE]. *)
Theorem X14_adapter_failure (argv : list string) (ex : Exception) :
  createObjectAdapterFromProperty env = Raises (Ice ex) \/
  (createObjectAdapterFromProperty env = Returns /\
   adapter_add env = Raises (Ice ex)) ->
  run env (ServiceManagerI_new env argv)
  = (Normal EXIT_FAILURE,
     add_events [EvError (handler_message ex)] (ServiceManagerI_new env argv)).
Proof.
  intros [Hcreate|[Hcreate Hadd]]; unfold run, run_try;
    rewrite Hcreate; try rewrite Hadd;
    unfold try_catch, bind at 1 2; cbn [call ret throw];
    destruct ex as [reason|n printed]; reflexivity.
Qed.

Lemma serve_failure (st : State) (ex : Exception) :
  adapter_activate env = Raises (Ice ex) \/
  (adapter_activate env = Returns /\ waitForShutdown env = Raises (Ice ex)) ->
  exists evs,
    serve env st = (Throw (Ice ex), add_events evs st) /\
    silent evs /\ initialized evs = [].
Proof.
  intros H. unfold serve. cbv zeta.
  assert (Hready : silent (ready_events env)
                   /\ initialized (ready_events env) = []).
  { unfold ready_events. destruct (negb _); repeat split; reflexivity. }
  destruct Hready as [(Hs & Hp & He) Hi].
  destruct H as [Hactivate|[Hactivate Hwait]].
  - exists (ready_events env ++ [EvActivate]). split.
    + rewrite Hactivate. unfold ready_events.
      destruct (negb _);
        unfold bind, emit, modify, add_event, call, ret, throw;
        cbv beta iota; rewrite ?add_events_add_events; reflexivity.
    + unfold silent.
      rewrite started_app, stopped_app, errors_app, initialized_app,
        Hs, Hp, He, Hi. repeat split; reflexivity.
  - exists (ready_events env ++ [EvActivate; EvWaitForShutdown]). split.
    + rewrite Hactivate, Hwait. unfold ready_events.
      destruct (negb _);
        unfold bind, emit, modify, add_event, call, ret, throw;
        cbv beta iota; rewrite ?add_events_add_events; reflexivity.
    + unfold silent.
      rewrite started_app, stopped_app, errors_app, initialized_app,
        Hs, Hp, He, Hi. repeat split; reflexivity.
Qed.

(** X15: when the services have been initialized and started and then
    the activation of the adapter or [waitForShutdown] throws an
    [Ice::Exception], then, the [stop] of every service returning, [run]
    calls [stop] once on every service, logs the exception, after the
    services have been stopped, and returns [EXIT_FAILURE] with an empty
    Registry. *)
Theorem X15_failure_after_start (argv : list string) (ex : Exception) :
  startup_succeeds env ->
  let dict := getPropertiesForPrefix env prefix in
  let n := List.length dict in
  (forall i, i < n -> service_start env i = Returns) ->
  adapter_activate env = Raises (Ice ex) \/
  (adapter_activate env = Returns /\ waitForShutdown env = Raises (Ice ex)) ->
  (forall i, i < n -> service_stop env i = Returns) ->
  exists st',
    run env (ServiceManagerI_new env argv) = (Normal EXIT_FAILURE, st') /\
    started (trace st') = seq 0 n /\
    stopped (trace st') = seq 0 n /\
    errors (trace st') = [handler_message ex] /\
    (exists before,
        trace st' = before ++ [EvError (handler_message ex)]) /\
    _services st' = [].
Proof.
  intros Hok. cbv zeta. intros Hstarts Hserve Hstops.
  pose proof (run_startup env argv Hok) as Hrun.
  remember (getPropertiesForPrefix env prefix) as dict eqn:Edict.
  clear Edict Hok. rewrite Hrun. clear Hrun.
  unfold run_from_start.
  change (_services (after_inits env dict (ServiceManagerI_new env argv)))
    with (records 0 0 dict).
  assert (Hret : Forall (fun r => service_start env (service (snd r))
                                  = Returns) (records 0 0 dict)).
  { apply (returns_records (fun i => service_start env i = Returns)).
    intros i Hi. apply Hstarts. lia. }
  rewrite (start_services_ok env _ _ Hret).
  unfold try_catch, bind at 1.
  destruct (serve_failure
              (add_events (start_events (records 0 0 dict))
                          (after_inits env dict (ServiceManagerI_new env argv)))
              ex Hserve) as (evs & -> & (Hs & Hp & He) & Hi).
  assert (Hhandler : run_handlers env (Ice ex)
                     = Some (with_Error (handler_message ex)
                               (bind (stopAll env)
                                     (fun _ => ret EXIT_FAILURE))))
    by (destruct ex; reflexivity).
  rewrite Hhandler.
  rewrite stopAll_after_failure
    by (apply stops_return_records; exact Hstops).
  eexists. split; [reflexivity|].
  cbn [trace _services add_events set_services after_inits
       ServiceManagerI_new _options _argv next_service next_library].
  rewrite !app_nil_l.
  rewrite !started_app, !stopped_app, !errors_app.
  rewrite started_init_events, stopped_init_events, errors_init_events.
  rewrite started_start_events, started_stop_events, stopped_stop_events,
    errors_stop_events.
  unfold start_events. rewrite stopped_EvStart, errors_EvStart.
  rewrite Hs, Hp, He, !handles_records.
  cbn [app started stopped errors flat_map]. rewrite ?app_nil_r.
  split; [reflexivity|]. split; [reflexivity|]. split; [reflexivity|].
  split; [|reflexivity].
  eexists. rewrite !app_assoc. reflexivity.
Qed.

(** X16: when everything goes through and the [stop] of every service
    returns, [run] does things in this order: for each service found, in
    the order of the names, the library is loaded, the factory called
    and the service initialized; then the services are started in that
    order; then the line [<bundle> ready] is printed, once, when
    [IceBox.PrintServicesReady] is set; then the adapter is activated;
    then [run] waits for the shutdown; then the services are stopped in
    that order; nothing is logged and [run] returns [EXIT_SUCCESS]. *)
Theorem X16_order_of_a_successful_run (argv : list string) :
  startup_succeeds env ->
  let dict := getPropertiesForPrefix env prefix in
  let n := List.length dict in
  let st0 := ServiceManagerI_new env argv in
  (forall i, i < n -> service_start env i = Returns) ->
  adapter_activate env = Returns ->
  waitForShutdown env = Returns ->
  (forall i, i < n -> service_stop env i = Returns) ->
  exists st',
    run env st0 = (Normal EXIT_SUCCESS, st') /\
    trace st'
    = init_events env (_options st0) (_argv st0) 0 0 dict
      ++ List.map (fun i => EvStart i) (seq 0 n)
      ++ ready_events env
      ++ [EvActivate; EvWaitForShutdown]
      ++ List.map (fun i => EvStop i) (seq 0 n).
Proof.
  intros Hok. cbv zeta. intros Hstarts Hactivate Hwait Hstops.
  pose proof (run_startup env argv Hok) as Hrun.
  remember (getPropertiesForPrefix env prefix) as dict eqn:Edict.
  clear Edict Hok. rewrite Hrun. clear Hrun.
  unfold run_from_start.
  change (_services (after_inits env dict (ServiceManagerI_new env argv)))
    with (records 0 0 dict).
  assert (Hret : Forall (fun r => service_start env (service (snd r))
                                  = Returns) (records 0 0 dict)).
  { apply (returns_records (fun i => service_start env i = Returns)).
    intros i Hi. apply Hstarts. lia. }
  rewrite (start_services_ok env _ _ Hret).
  unfold try_catch, bind at 1.
  rewrite (serve_ok env _ Hactivate Hwait)
    by (apply stops_return_records; exact Hstops).
  unfold ret. eexists. split; [reflexivity|].
  cbn [trace _services add_events set_services after_inits
       ServiceManagerI_new _options _argv next_service next_library].
  rewrite !app_nil_l. unfold start_events.
  rewrite stop_events_handles, handles_records.
  rewrite <- !app_assoc. reflexivity.
Qed.

(** X17: when the [start] of the [k]-th service throws something that
    is not an [Ice::Exception], no handler of [run] catches it: it leaves
    [run], nothing is logged, [stopAll] is not called, and all the
    services stay in the Registry with no [stop] called. *)
Theorem X17_foreign_exception_in_start (argv : list string) (k : nat) :
  startup_succeeds env ->
  let dict := getPropertiesForPrefix env prefix in
  let n := List.length dict in
  k < n ->
  (forall i, i < k -> service_start env i = Returns) ->
  service_start env k = Raises NonIce ->
  exists st',
    run env (ServiceManagerI_new env argv) = (Throw NonIce, st') /\
    started (trace st') = seq 0 (S k) /\
    stopped (trace st') = [] /\
    errors (trace st') = [] /\
    _services st' = records 0 0 dict.
Proof.
  intros Hok. cbv zeta. intros Hk Hbefore Hfail.
  pose proof (run_startup env argv Hok) as Hrun.
  remember (getPropertiesForPrefix env prefix) as dict eqn:Edict.
  clear Edict Hok. rewrite Hrun. clear Hrun.
  unfold run_from_start.
  change (_services (after_inits env dict (ServiceManagerI_new env argv)))
    with (records 0 0 dict).
  destruct (nth_split dict ("", "") Hk) as (l1 & l2 & Hd & Hl1).
  destruct (nth k dict ("", "")) as [key value] eqn:Hnth.
  assert (Hrec : records 0 0 dict
                 = records 0 0 l1
                   ++ (name_of key, {| service := k; library := k |})
                   :: records (S k) (S k) l2).
  { rewrite Hd at 1. rewrite records_app. cbn [records Nat.add].
    rewrite Hl1. reflexivity. }
  assert (Hpre : Forall (fun r => service_start env (service (snd r))
                                  = Returns) (records 0 0 l1)).
  { apply (Forall_handles (fun i => service_start env i = Returns)).
    rewrite handles_records, Hl1. apply Forall_seq. intros i Hi.
    apply Hbefore. lia. }
  assert (Hss :
            start_services env (records 0 0 dict)
                           (after_inits env dict (ServiceManagerI_new env argv))
            = (Throw NonIce,
               add_events [EvStart k]
                 (add_events (start_events (records 0 0 l1))
                    (after_inits env dict (ServiceManagerI_new env argv))))).
  { rewrite Hrec. rewrite (start_services_app env _ _ _ Hpre).
    rewrite start_services_cons. cbn [service snd]. rewrite Hfail.
    reflexivity. }
  rewrite Hss. cbn [run_handlers]. eexists. split; [reflexivity|].
  cbn [trace _services add_events after_inits ServiceManagerI_new
       _options _argv next_service next_library].
  rewrite !app_nil_l.
  rewrite !started_app, !stopped_app, !errors_app.
  rewrite started_init_events, stopped_init_events, errors_init_events.
  rewrite started_start_events.
  unfold start_events. rewrite stopped_EvStart, errors_EvStart.
  rewrite handles_records, Hl1.
  cbn [app started stopped errors flat_map]. rewrite ?app_nil_r.
  repeat split; try reflexivity. symmetry. apply seq_S.
Qed.

(** *** What holds of every run *)

Lemma returns_in_bind {A B : Type} (P : B -> State -> Prop)
      (m : M Properties A) (k : A -> M Properties B) :
  (forall a, returns_in P (k a)) -> returns_in P (bind m k).
Proof.
  intros Hk st b st' H. unfold bind in H.
  destruct (m st) as [[a|t| | |] st1]; try discriminate.
  exact (Hk a st1 b st' H).
Qed.

Lemma returns_in_try_catch {A : Type} (P : A -> State -> Prop)
      (body : M Properties A) (handlers : thrown -> option (M Properties A)) :
  returns_in P body ->
  (forall t h, handlers t = Some h -> returns_in P h) ->
  returns_in P (try_catch body handlers).
Proof.
  intros Hb Hh st a st' H. unfold try_catch in H.
  destruct (body st) as [[a0|t| | |] st1] eqn:E; try discriminate.
  - inversion H; subst. exact (Hb st a st' E).
  - destruct (handlers t) as [h|] eqn:Et; [|discriminate].
    exact (Hh t h Et st1 a st' H).
Qed.

Lemma returns_in_ret {A B : Type} (Q : State -> Prop) (m : M Properties A)
      (c : B) :
  returns_in (fun _ st => Q st) m ->
  returns_in (fun b st => Q st /\ b = c) (bind m (fun _ => ret c)).
Proof.
  intros Hm st b st' H. unfold bind, ret in H.
  destruct (m st) as [[a|t| | |] st1] eqn:E; try discriminate.
  inversion H; subst. split; [exact (Hm st a st' E)|reflexivity].
Qed.

Lemma returns_in_with_Error {A : Type} (P : A -> State -> Prop)
      (message : string) (body : M Properties A) :
  returns_in (fun a st => P a (add_event (EvError message) st)) body ->
  returns_in P (with_Error message body).
Proof.
  intros Hb st a st' H. unfold with_Error in H.
  destruct (body st) as [[a0|t| | |] st1] eqn:E; try discriminate.
  inversion H; subst. exact (Hb st a st1 E).
Qed.

Lemma stopAll_returns_in :
  returns_in (fun _ st => _services st = []) (stopAll env).
Proof. intros st [] st' H. exact (stopAll_returns_empty env st st' H). Qed.

Lemma run_returns_in :
  returns_in (fun c s => _services s = []
                         /\ (c = EXIT_SUCCESS \/ c = EXIT_FAILURE))
             (run env).
Proof.
  unfold run. apply returns_in_try_catch.
  - intros s c s' Hs.
    assert (Hbody : returns_in (fun _ s => _services s = []) (run_try env)).
    { unfold run_try, serve. cbv zeta.
      repeat first [apply stopAll_returns_in
                   |apply returns_in_bind; intros ?]. }
    destruct (returns_in_ret _ _ EXIT_SUCCESS Hbody s c s' Hs) as [H1 H2].
    split; [exact H1|left; exact H2].
  - intros t h Ht s c s' Hs.
    assert (Hh : returns_in (fun c s => _services s = [] /\ c = EXIT_FAILURE)
                            h).
    { destruct t as [[reason|n p]|]; inversion Ht; subst;
        apply returns_in_with_Error;
        apply (returns_in_ret (fun st => _services st = []));
        apply stopAll_returns_in. }
    destruct (Hh s c s' Hs) as [H1 H2].
    split; [exact H1|right; exact H2].
Qed.

(** X18: whenever [run] returns, from whatever state of the manager, the
    Registry is empty, and the value returned is [EXIT_SUCCESS] or
    [EXIT_FAILURE]. *)
Theorem X18_run_returns_with_empty_registry (st st' : State) (code : Z) :
  run env st = (Normal code, st') ->
  _services st' = [] /\ (code = EXIT_SUCCESS \/ code = EXIT_FAILURE).
Proof. intros Hrun. exact (run_returns_in st code st' Hrun). Qed.

Lemma init_services_silent (dict : map string) :
  forall st : State,
  exists evs,
    trace (snd (init_services env dict st)) = trace st ++ evs /\ silent evs.
Proof.
  induction dict as [|[key value] dict IH]; intros st.
  - exists []. cbn. rewrite app_nil_r. repeat split; reflexivity.
  - cbn [init_services]. cbv zeta.
    destruct (Descriptor.parse_value value) as [[entryPoint args]|].
    + unfold bind.
      destruct (init_trace (substr_from key (String.length prefix))
                           entryPoint args st)
        as (e1 & H1 & (Hs1 & Hp1 & He1) & _).
      destruct (init env _ entryPoint args st) as [[h|t| | |] st1];
        cbn [snd] in *;
        try (exists e1; split; [exact H1|repeat split; assumption]).
      destruct (IH st1) as (e2 & H2 & (Hs2 & Hp2 & He2)).
      exists (e1 ++ e2). rewrite H2, H1, <- app_assoc.
      split; [reflexivity|]. unfold silent.
      rewrite started_app, stopped_app, errors_app,
        Hs1, Hs2, Hp1, Hp2, He1, He2. repeat split; reflexivity.
    + exists []. cbn. rewrite app_nil_r. repeat split; reflexivity.
Qed.

Lemma run_after_inits (st st1 : State) :
  createObjectAdapterFromProperty env = Returns ->
  adapter_add env = Returns ->
  init_services env (getPropertiesForPrefix env prefix) st = (Normal tt, st1) ->
  run env st = run_from_start env st1.
Proof.
  intros Hcreate Hadd Hinits.
  unfold run, run_try, run_from_start.
  rewrite Hcreate, Hadd.
  unfold try_catch at 1. unfold bind at 1 2 3. cbn [call ret].
  unfold bind at 1. rewrite Hinits.
  unfold bind at 1. unfold get at 1. cbv beta iota.
  unfold bind at 1.
  destruct (start_services env _ _) as [[[]|t| | |] st2]; try reflexivity.
Qed.

(** What [run] does when the part of the [try] block before the loop of
    lines 118-135 ends in state [st1] with the result [r] that is not a
    normal return. *)
Lemma quiet_after_throw (r : result Z) (st1 : State) :
  quiet_step st1
    (snd match r with
         | Throw t =>
             match run_handlers env t with
             | Some h => h st1
             | None => (Throw t, st1)
             end
         | other => (other, st1)
         end).
Proof.
  destruct r as [c|t| | |]; cbn [snd]; try apply quiet_step_refl.
  destruct (run_handlers env t) as [h|] eqn:E; [|apply quiet_step_refl].
  exact (quiet_run_handlers env t h E st1).
Qed.

(** X19: in every run of [run] on a new manager, whatever the
    collaborators do, the events come in three parts: first the loading
    and initializing of services, with no [start] and no [stop] among
    them; then calls of [start] only; then a part with no [init] and no
    [start]. So every [init] comes before every [start], and every
    [start] before every [stop]. *)
Theorem X19_phases_of_every_run (argv : list string) :
  exists (inits : list event) (starts : list nat) (rest : list event),
    trace (snd (run env (ServiceManagerI_new env argv)))
    = inits ++ List.map (fun n => EvStart n) starts ++ rest /\
    started inits = [] /\ stopped inits = [] /\
    started rest = [] /\ initialized rest = [].
Proof.
  set (st0 := ServiceManagerI_new env argv).
  assert (Hno_inits :
            forall st', quiet_step st0 st' ->
                        exists inits starts rest,
                          trace st'
                          = inits ++ List.map (fun n => @EvStart Properties n)
                                              starts ++ rest /\
                          started inits = [] /\ stopped inits = [] /\
                          started rest = [] /\ initialized rest = []).
  { intros st' (evs & Ht & Hs & Hi). exists [], [], evs.
    rewrite Ht. repeat split; assumption. }
  destruct (createObjectAdapterFromProperty env) as [|t] eqn:Hcreate.
  2:{ apply Hno_inits. unfold run, run_try. rewrite Hcreate.
      unfold try_catch, bind at 1 2. cbn [call throw].
      exact (quiet_after_throw (Throw t) st0). }
  destruct (adapter_add env) as [|t] eqn:Hadd.
  2:{ apply Hno_inits. unfold run, run_try. rewrite Hcreate, Hadd.
      unfold try_catch, bind at 1 2 3. cbn [call throw ret].
      exact (quiet_after_throw (Throw t) st0). }
  destruct (init_services_silent (getPropertiesForPrefix env prefix) st0)
    as (evI & HevI & (HsI & HpI & _)).
  destruct (init_services env (getPropertiesForPrefix env prefix) st0)
    as [r st1] eqn:Hinits.
  cbn [snd] in HevI. change (trace st0) with (@nil event) in HevI.
  cbn [app] in HevI.
  assert (Hfinish :
            forall st', quiet_step st1 st' ->
                        exists inits starts rest,
                          trace st'
                          = inits ++ List.map (fun n => @EvStart Properties n)
                                              starts ++ rest /\
                          started inits = [] /\ stopped inits = [] /\
                          started rest = [] /\ initialized rest = []).
  { intros st' (evs & Ht & Hs & Hi). exists evI, [], evs.
    rewrite Ht, HevI. repeat split; assumption. }
  destruct r as [[]|t| | |].
  - rewrite (run_after_inits st0 st1 Hcreate Hadd Hinits).
    destruct (run_from_start_quiet env st1) as (evs & Ht & Hs & Hi).
    destruct (start_services_prefix env (_services st1) st1)
      as (j & _ & Hst2 & _).
    rewrite Hst2 in Ht. cbn [trace add_events] in Ht.
    exists evI, (firstn j (handles (_services st1))), evs.
    rewrite Ht, HevI, <- app_assoc. repeat split; assumption.
  - apply Hfinish. unfold run, run_try. rewrite Hcreate, Hadd.
    unfold try_catch, bind at 1 2 3. cbn [call ret].
    unfold bind at 1. rewrite Hinits.
    exact (quiet_after_throw (Throw t) st1).
  - apply Hfinish. unfold run, run_try. rewrite Hcreate, Hadd.
    unfold try_catch, bind at 1 2 3. cbn [call ret].
    unfold bind at 1. rewrite Hinits. apply quiet_step_refl.
  - apply Hfinish. unfold run, run_try. rewrite Hcreate, Hadd.
    unfold try_catch, bind at 1 2 3. cbn [call ret].
    unfold bind at 1. rewrite Hinits. apply quiet_step_refl.
  - apply Hfinish. unfold run, run_try. rewrite Hcreate, Hadd.
    unfold try_catch, bind at 1 2 3. cbn [call ret].
    unfold bind at 1. rewrite Hinits. apply quiet_step_refl.
Qed.

End Facts.

(** *** The theorems at work on concrete environments *)

Import Scenario ScenarioMore.

Lemma services_with_startup (activate wait : outcome)
      (start stop : nat -> outcome) :
  startup_succeeds
    (services_with Returns activate wait (fun _ => true) ok start stop).
Proof.
  split; [reflexivity|]. split; [reflexivity|].
  let d := eval vm_compute in
             (getPropertiesForPrefix
                (services_with Returns activate wait (fun _ => true)
                               ok start stop) prefix) in
  change (Forall (init_succeeds
                    (services_with Returns activate wait (fun _ => true)
                                   ok start stop)) d).
  repeat constructor.
Qed.

Lemma X13_init_failure_witness :
  exists st',
    run middle_load_fails (ServiceManagerI_new middle_load_fails argv0)
    = (Normal EXIT_FAILURE, st') /\
    started (trace st') = [] /\
    stopped (trace st') = [0] /\
    errors (trace st')
    = ["ServiceManager: unable to load entry point `libM:create': no such file"]
    /\ (exists before,
           trace st'
           = before
             ++ [EvError
                   "ServiceManager: unable to load entry point `libM:create': no such file"])
    /\ List.length (initialized (trace st')) <= 2 /\
    _services st' = [].
Proof.
  refine (X13_init_failure middle_load_fails argv0
            [("IceBox.Service.First", "libF:create")]
            [("IceBox.Service.Third", "libT:create --Third.x=1 7")]
            "IceBox.Service.Middle" "libM:create"
            "ServiceManager: unable to load entry point `libM:create': no such file"
            eq_refl eq_refl eq_refl _ eq_refl _).
  - repeat constructor.
  - intros i Hi. reflexivity.
Defined.

Lemma X14_adapter_failure_witness :
  run no_adapter (ServiceManagerI_new no_adapter argv0)
  = (Normal EXIT_FAILURE,
     add_events [EvError "ServiceManager: address in use"]
                (ServiceManagerI_new no_adapter argv0)).
Proof.
  exact (X14_adapter_failure no_adapter argv0
           (OtherException "Ice::SocketException" "address in use")
           (or_introl eq_refl)).
Defined.

Lemma X15_failure_after_start_witness :
  exists st',
    run wait_fails (ServiceManagerI_new wait_fails argv0)
    = (Normal EXIT_FAILURE, st') /\
    started (trace st') = [0; 1; 2] /\
    stopped (trace st') = [0; 1; 2] /\
    errors (trace st') = ["ServiceManager: communicator destroyed"] /\
    (exists before,
        trace st'
        = before ++ [EvError "ServiceManager: communicator destroyed"]) /\
    _services st' = [].
Proof.
  refine (X15_failure_after_start wait_fails argv0
            (OtherException "Ice::CommunicatorDestroyedException"
                            "communicator destroyed") _ _ _ _).
  - apply services_with_startup.
  - intros i Hi. reflexivity.
  - right. split; reflexivity.
  - intros i Hi. reflexivity.
Defined.

Lemma X16_order_witness :
  exists st',
    run all_well
        (ServiceManagerI_new all_well argv0)
    = (Normal EXIT_SUCCESS, st') /\
    trace st'
    = [EvLoad 0 "libF:create"; EvFactory "libF:create";
       EvInit 0 "First" [] [];
       EvLoad 1 "libM:create"; EvFactory "libM:create";
       EvInit 1 "Middle" [] [];
       EvLoad 2 "libT:create"; EvFactory "libT:create";
       EvInit 2 "Third" ["--Third.y=2"; "--Third.x=1"; "--Third.z=3"] ["7"];
       EvStart 0; EvStart 1; EvStart 2;
       EvPrint "bundle ready"; EvActivate; EvWaitForShutdown;
       EvStop 0; EvStop 1; EvStop 2].
Proof.
  refine (X16_order_of_a_successful_run all_well argv0
            _ _ _ _ _).
  - apply three_services_startup.
  - intros i Hi. reflexivity.
  - reflexivity.
  - reflexivity.
  - intros i Hi. reflexivity.
Defined.

Lemma X17_foreign_exception_witness :
  exists st',
    run middle_start_foreign (ServiceManagerI_new middle_start_foreign argv0)
    = (Throw NonIce, st') /\
    started (trace st') = [0; 1] /\
    stopped (trace st') = [] /\
    errors (trace st') = [] /\
    _services st'
    = [("First", {| service := 0; library := 0 |});
       ("Middle", {| service := 1; library := 1 |});
       ("Third", {| service := 2; library := 2 |})].
Proof.
  refine (X17_foreign_exception_in_start middle_start_foreign argv0 1
            _ _ _ _).
  - apply services_with_startup.
  - vm_compute. lia.
  - intros i Hi. destruct i; [reflexivity|lia].
  - reflexivity.
Defined.

Lemma X18_run_returns_witness :
  let st := snd (init all_well "Zeta" "libZ:create" [] three_running) in
  keys (_services st) = ["First"; "Middle"; "Third"; "Zeta"] /\
  fst (run all_well st) = Normal EXIT_SUCCESS /\
  _services (snd (run all_well st)) = [].
Proof.
  cbv zeta. split; [reflexivity|]. split; [reflexivity|].
  apply (X18_run_returns_with_empty_registry all_well
           (snd (init all_well "Zeta" "libZ:create" [] three_running))
           (snd (run all_well
                     (snd (init all_well "Zeta" "libZ:create" []
                                three_running))))
           EXIT_SUCCESS).
  vm_compute. reflexivity.
Defined.

End RunMore.

(** ** The life of a service: initialized, started, stopped once *)

Module InvariantMore.

Import Str StrFacts StdMap StdMapFacts StdMapMore IceBox IceBoxFacts.
Import Lifecycle.

Section Facts.

Context {Properties : Type} (env : Env Properties).

Local Abbreviation State := (State Properties).
Local Abbreviation event := (event Properties).

(** *** Lists of handles *)

Lemma NoDup_snoc (l : list nat) (a : nat) :
  NoDup l -> ~ In a l -> NoDup (l ++ [a]).
Proof.
  intros Hl Ha.
  apply (Permutation_NoDup (l := a :: l)).
  - apply Permutation_cons_append.
  - constructor; assumption.
Qed.

Lemma NoDup_middle (l1 l2 : list nat) (a : nat) :
  NoDup (l1 ++ l2) -> ~ In a (l1 ++ l2) -> NoDup (l1 ++ a :: l2).
Proof.
  intros Hl Ha.
  apply (Permutation_NoDup (l := a :: l1 ++ l2)).
  - apply Permutation_middle.
  - constructor; assumption.
Qed.

Lemma handles_app (a b : map ServiceInfo) :
  handles (a ++ b) = handles a ++ handles b.
Proof. apply map_app. Qed.

(** [m[k] = v] puts the entry in its place; the entry that [k] had, if
    any, is gone. *)
Lemma assign_split (k : string) (v : ServiceInfo) (m : map ServiceInfo) :
  exists m1 m2,
    assign k v m = m1 ++ (k, v) :: m2 /\
    (m = m1 ++ m2 \/ exists v', m = m1 ++ (k, v') :: m2) /\
    (find k m = None -> m = m1 ++ m2).
Proof.
  induction m as [|[k2 v2] m IH]; cbn [assign find].
  - exists [], []. repeat split; auto.
  - destruct (key_compare k k2) eqn:E.
    + apply key_compare_eq in E. subst k2.
      exists [], m. split; [reflexivity|]. split; [right; exists v2; reflexivity|discriminate].
    + exists [], ((k2, v2) :: m). repeat split; auto.
    + destruct IH as (m1 & m2 & Ha & Hm & Hf).
      exists ((k2, v2) :: m1), m2. rewrite Ha. split; [reflexivity|]. split.
      * destruct Hm as [->|[v' ->]]; [left; reflexivity|right; exists v'; reflexivity].
      * intros H. rewrite (Hf H) at 1. reflexivity.
Qed.

Lemma sorted_NoDup_keys {V : Type} (m : map V) :
  sorted m = true -> NoDup (keys m).
Proof.
  induction m as [|[k v] m IH]; intros Hs; [constructor|].
  apply sorted_cons in Hs as [Ha Hs]. cbn. constructor; [|exact (IH Hs)].
  intros Hin. apply in_map_iff in Hin as ([k' v'] & Ek & Hin).
  cbn in Ek. subst k'.
  unfold above in Ha. rewrite Forall_forall in Ha.
  specialize (Ha _ Hin). cbn in Ha. unfold key_lt in Ha.
  rewrite key_compare_refl in Ha. discriminate.
Qed.

(** *** The events of a trace *)

Lemma In_initialized (h : nat) (name : string) (p : Properties)
      (a : StringSeq) (tr : list event) :
  In (EvInit h name p a) tr -> In h (List.map fst (initialized tr)).
Proof.
  intros H. apply in_map_iff. exists (h, name). split; [reflexivity|].
  unfold initialized. apply in_flat_map.
  exists (EvInit h name p a). split; [exact H|left; reflexivity].
Qed.

Lemma not_In_EvInit (h : nat) (name : string) (p : Properties)
      (a : StringSeq) (evs : list event) :
  initialized evs = [] -> ~ In (EvInit h name p a) evs.
Proof.
  intros He Hin. apply In_initialized in Hin. rewrite He in Hin. exact Hin.
Qed.

Lemma init_returned_app_l (tr evs : list event) (h : nat) :
  init_returned env tr h -> init_returned env (tr ++ evs) h.
Proof.
  intros (name & p & a & Hin & Hr). exists name, p, a.
  split; [apply in_or_app; left; exact Hin|exact Hr].
Qed.

Lemma init_returned_app_quiet (tr evs : list event) (h : nat) :
  initialized evs = [] ->
  init_returned env (tr ++ evs) h -> init_returned env tr h.
Proof.
  intros He (name & p & a & Hin & Hr). exists name, p, a.
  split; [|exact Hr]. apply in_app_or in Hin as [Hin|Hin]; [exact Hin|].
  exfalso. exact (not_In_EvInit _ _ _ _ _ He Hin).
Qed.

Lemma init_returned_created (tr : list event) (m : map ServiceInfo)
      (n h : nat) :
  lifecycle env tr m n -> init_returned env tr h -> h < n.
Proof.
  intros (_ & _ & _ & _ & Hlt) (name & p & a & Hin & _).
  apply Hlt. exact (In_initialized _ _ _ _ _ Hin).
Qed.

(** *** The steps that the operations are made of *)

(** Events other than [init] and [stop], where only services of the
    Registry are started. *)
Lemma lifecycle_events (tr evs : list event) (m : map ServiceInfo)
      (n n' : nat) :
  stopped evs = [] -> initialized evs = [] ->
  incl (started evs) (handles m) -> n <= n' ->
  lifecycle env tr m n -> lifecycle env (tr ++ evs) m n'.
Proof.
  intros Hp Hi Hs Hn (H1 & H2 & H3 & H4 & H5).
  unfold lifecycle.
  rewrite stopped_app, started_app, initialized_app, Hp, Hi, !app_nil_r.
  repeat split; try assumption.
  - intros h Hh. apply init_returned_app_l. apply H4.
    destruct Hh as [Hh|[Hh|Hh]]; auto.
    apply in_app_or in Hh as [Hh|Hh]; auto.
  - intros h Hh. specialize (H5 h Hh). lia.
Qed.

Lemma none_dropped_events (tr evs : list event) (m : map ServiceInfo) :
  stopped evs = [] -> initialized evs = [] ->
  none_dropped env tr m -> none_dropped env (tr ++ evs) m.
Proof.
  intros Hp Hi H h Hh. rewrite stopped_app, Hp, app_nil_r.
  apply H. exact (init_returned_app_quiet _ _ _ Hi Hh).
Qed.

(** The step of [stop]: the record is erased and the service stopped. *)
Lemma lifecycle_stop (tr : list event) (m : map ServiceInfo) (n : nat)
      (k : string) (info : ServiceInfo) :
  find k m = Some info ->
  lifecycle env tr m n ->
  lifecycle env (tr ++ [EvStop (service info)]) (erase k m) n.
Proof.
  intros Hf (H1 & H2 & H3 & H4 & H5).
  destruct (find_erase_split k info m Hf) as (m1 & m2 & Hm & He).
  rewrite He. subst m. rewrite handles_app in *.
  cbn [handles List.map snd] in *. fold (handles m2) in *.
  unfold lifecycle.
  rewrite stopped_app, started_app, initialized_app. cbn [stopped started
    initialized flat_map app]. rewrite !app_nil_r. rewrite handles_app.
  assert (Hin : forall h, In h (handles m1 ++ handles m2) ->
                          In h (handles m1 ++ service info :: handles m2)).
  { intros h Hh. apply in_app_or in Hh as [Hh|Hh]; apply in_or_app;
      [left|right; right]; exact Hh. }
  assert (Hinfo : In (service info)
                     (handles m1 ++ service info :: handles m2)).
  { apply in_or_app. right. left. reflexivity. }
  repeat split.
  - apply NoDup_snoc; [exact H1|]. apply H3. exact Hinfo.
  - exact (NoDup_remove_1 _ _ _ H2).
  - intros h Hh Hs. apply in_app_or in Hs as [Hs|[Hs|[]]].
    + exact (H3 h (Hin h Hh) Hs).
    + subst h. exact (NoDup_remove_2 _ _ _ H2 Hh).
  - intros h Hh. apply init_returned_app_l. apply H4.
    destruct Hh as [Hh|[Hh|Hh]]; auto.
    apply in_app_or in Hh as [Hh|[Hh|[]]]; auto.
    subst h. left. exact Hinfo.
  - exact H5.
Qed.

Lemma none_dropped_stop (tr : list event) (m : map ServiceInfo)
      (k : string) (info : ServiceInfo) :
  find k m = Some info ->
  none_dropped env tr m ->
  none_dropped env (tr ++ [EvStop (service info)]) (erase k m).
Proof.
  intros Hf H h Hh.
  destruct (find_erase_split k info m Hf) as (m1 & m2 & Hm & He).
  rewrite He. subst m. rewrite handles_app in *.
  cbn [handles List.map snd] in *. fold (handles m2) in *.
  rewrite stopped_app. cbn [stopped flat_map app].
  apply init_returned_app_quiet in Hh; [|reflexivity].
  destruct (H h Hh) as [Hin|Hin].
  - rewrite handles_app in Hin. cbn [handles List.map snd] in Hin.
    apply in_app_or in Hin as [Hin|[Hin|Hin]].
    + left. apply in_or_app. left. exact Hin.
    + right. apply in_or_app. right. left. exact Hin.
    + left. apply in_or_app. right. exact Hin.
  - right. apply in_or_app. left. exact Hin.
Qed.

(** The steps of [init] once the service object [n] is created: its
    [init] is called; when it returns the record is made, and when it
    throws the Registry is left as it is. *)
Lemma lifecycle_init_returns (tr evs : list event) (m : map ServiceInfo)
      (n lib : nat) (name : string) (p : Properties) (a : StringSeq) :
  started evs = [] -> stopped evs = [] -> initialized evs = [] ->
  service_init env n name p a = Returns ->
  lifecycle env tr m n ->
  lifecycle env (tr ++ evs ++ [EvInit n name p a])
            (assign name {| service := n; library := lib |} m) (S n).
Proof.
  intros Hs Hp Hi Hret HL.
  pose proof HL as (H1 & H2 & H3 & H4 & H5).
  assert (Hfresh : forall h, In h (handles m) \/ In h (stopped tr) -> h < n).
  { intros h Hh. apply (init_returned_created tr m n h HL).
    apply H4. tauto. }
  destruct (assign_split name {| service := n; library := lib |} m)
    as (m1 & m2 & Ha & Hm & _).
  assert (Hsub : forall h, In h (handles m1 ++ handles m2) -> In h (handles m)).
  { intros h Hh. destruct Hm as [->|[v' ->]]; rewrite handles_app;
      [exact Hh|].
    apply in_app_or in Hh as [Hh|Hh]; apply in_or_app;
      [left|right; right]; exact Hh. }
  assert (Hnd : NoDup (handles m1 ++ handles m2)).
  { destruct Hm as [->|[v' ->]]; rewrite handles_app in H2; [exact H2|].
    exact (NoDup_remove_1 _ _ _ H2). }
  assert (Hnew : forall h, In h (handles m1 ++ n :: handles m2) ->
                           h = n \/ In h (handles m)).
  { intros h Hh. apply in_app_or in Hh as [Hh|[Hh|Hh]].
    - right. apply Hsub. apply in_or_app. left. exact Hh.
    - left. symmetry. exact Hh.
    - right. apply Hsub. apply in_or_app. right. exact Hh. }
  assert (Hev : init_returned env (tr ++ evs ++ [EvInit n name p a]) n).
  { exists name, p, a. split; [|exact Hret].
    apply in_or_app. right. apply in_or_app. right. left. reflexivity. }
  rewrite Ha. unfold lifecycle.
  rewrite !stopped_app, !started_app, !initialized_app, Hs, Hp, Hi.
  cbn [stopped started initialized flat_map app]. rewrite !app_nil_r.
  rewrite handles_app. cbn [handles List.map snd service].
  fold (handles m2).
  repeat split.
  - exact H1.
  - apply NoDup_middle; [exact Hnd|].
    intros Hn. apply Hsub in Hn.
    assert (n < n) by (apply Hfresh; left; exact Hn). lia.
  - intros h Hh Hst. destruct (Hnew h Hh) as [->|Hm'].
    + assert (n < n) by (apply Hfresh; right; exact Hst). lia.
    + exact (H3 h Hm' Hst).
  - intros h Hh.
    assert (Hcases : h = n \/ In h (handles m) \/ In h (stopped tr)
                     \/ In h (started tr)).
    { destruct Hh as [Hh|[Hh|Hh]]; [|tauto|tauto].
      destruct (Hnew h Hh); tauto. }
    destruct Hcases as [->|Hold]; [exact Hev|].
    apply init_returned_app_l. apply H4. exact Hold.
  - intros h Hh. rewrite map_app in Hh.
    apply in_app_or in Hh as [Hh|[Hh|[]]].
    + specialize (H5 h Hh). lia.
    + cbn in Hh. lia.
Qed.

Lemma none_dropped_init_returns (tr evs : list event) (m : map ServiceInfo)
      (n lib : nat) (name : string) (p : Properties) (a : StringSeq) :
  stopped evs = [] -> initialized evs = [] ->
  find name m = None ->
  none_dropped env tr m ->
  none_dropped env (tr ++ evs ++ [EvInit n name p a])
               (assign name {| service := n; library := lib |} m).
Proof.
  intros Hp Hi Hf H h (name' & p' & a' & Hin & Hret).
  destruct (assign_split name {| service := n; library := lib |} m)
    as (m1 & m2 & Ha & _ & Hm).
  specialize (Hm Hf). rewrite Ha. subst m.
  rewrite !stopped_app, Hp. cbn [stopped flat_map app]. rewrite !app_nil_r.
  rewrite handles_app in *. cbn [handles List.map snd service].
  fold (handles m2).
  apply in_app_or in Hin as [Hin|Hin].
  - destruct (H h) as [Hh|Hh]; [exists name', p', a'; auto| |right; exact Hh].
    left. rewrite handles_app in Hh.
    apply in_app_or in Hh as [Hh|Hh]; apply in_or_app;
      [left|right; right]; exact Hh.
  - apply in_app_or in Hin as [Hin|[Hin|[]]].
    + exfalso. exact (not_In_EvInit _ _ _ _ _ Hi Hin).
    + inversion Hin; subst. left. apply in_or_app. right. left. reflexivity.
Qed.

Lemma lifecycle_init_throws (tr evs : list event) (m : map ServiceInfo)
      (n : nat) (name : string) (p : Properties) (a : StringSeq) :
  started evs = [] -> stopped evs = [] -> initialized evs = [] ->
  lifecycle env tr m n ->
  lifecycle env (tr ++ evs ++ [EvInit n name p a]) m (S n).
Proof.
  intros Hs Hp Hi (H1 & H2 & H3 & H4 & H5).
  unfold lifecycle.
  rewrite !stopped_app, !started_app, !initialized_app, Hs, Hp, Hi.
  cbn [stopped started initialized flat_map app]. rewrite !app_nil_r.
  repeat split; try assumption.
  - intros h Hh. apply init_returned_app_l. apply H4. exact Hh.
  - intros h Hh. rewrite map_app in Hh.
    apply in_app_or in Hh as [Hh|[Hh|[]]].
    + specialize (H5 h Hh). lia.
    + cbn in Hh. lia.
Qed.

Lemma none_dropped_init_throws (tr evs : list event) (m : map ServiceInfo)
      (n : nat) (name : string) (p : Properties) (a : StringSeq) :
  stopped evs = [] -> initialized evs = [] ->
  service_init env n name p a <> Returns ->
  none_dropped env tr m ->
  none_dropped env (tr ++ evs ++ [EvInit n name p a]) m.
Proof.
  intros Hp Hi Hthrows H h (name' & p' & a' & Hin & Hret).
  rewrite !stopped_app, Hp. cbn [stopped flat_map app]. rewrite !app_nil_r.
  apply in_app_or in Hin as [Hin|Hin].
  - apply H. exists name', p', a'. auto.
  - apply in_app_or in Hin as [Hin|[Hin|[]]].
    + exfalso. exact (not_In_EvInit _ _ _ _ _ Hi Hin).
    + inversion Hin; subst. contradiction.
Qed.

(** *** The invariant and the operations *)

Lemma inv_events (c : bool) (evs : list event) (st : State) :
  stopped evs = [] -> initialized evs = [] ->
  incl (started evs) (handles (_services st)) ->
  lifecycle_inv env c st -> lifecycle_inv env c (add_events evs st).
Proof.
  intros Hp Hi Hs [HL HN]. split; cbn [trace _services next_service add_events].
  - apply (lifecycle_events _ _ _ (next_service st)); auto.
  - intros Hc. apply none_dropped_events; auto.
Qed.

Lemma inv_new (c : bool) (argv : list string) :
  lifecycle_inv env c (ServiceManagerI_new env argv).
Proof.
  split.
  - cbn. repeat split; try constructor; try contradiction.
    intros h [[]|[[]|[]]].
  - intros _ h (name & p & a & [] & _).
Qed.

(** [init] keeps the invariant; it drops no service when the name is
    new to the Registry. *)
Lemma init_keeps (c : bool) (name entryPoint : string) (args : StringSeq)
      (st : State) :
  (c = true -> find name (_services st) = None) ->
  lifecycle_inv env c st ->
  lifecycle_inv env c (snd (init env name entryPoint args st)).
Proof.
  intros Hc [HL HN]. rewrite init_eq.
  destruct (spec_compose env (_options st) (_argv st) name args)
    as [view residual].
  cbv zeta.
  assert (Hquiet1 :
            lifecycle_inv env c
              (add_events [EvLoad (next_library st) entryPoint]
                          (new_library st))).
  { split; cbn [trace _services next_service add_events new_library].
    - apply (lifecycle_events _ _ _ (next_service st)); auto.
      intros h [].
    - intros E. apply none_dropped_events; auto. }
  destruct (loadEntryPoint env entryPoint); [|exact Hquiet1].
  assert (Hquiet2 :
            lifecycle_inv env c
              (add_events [EvFactory entryPoint]
                 (add_events [EvLoad (next_library st) entryPoint]
                             (new_library st)))).
  { apply inv_events; auto. intros h []. }
  destruct (factory env entryPoint (next_service st)) as [|[ex|]];
    try exact Hquiet2.
  assert (Hthrows :
            service_init env (next_service st) name view residual
            <> Returns ->
            lifecycle_inv env c
              (add_events [EvInit (next_service st) name view residual]
                 (new_service
                    (add_events [EvFactory entryPoint]
                       (add_events [EvLoad (next_library st) entryPoint]
                                   (new_library st)))))).
  { intros Hne.
    split; cbn [trace _services next_service add_events new_library
                new_service]; rewrite <- !app_assoc.
    - apply (lifecycle_init_throws (trace st)
               [EvLoad (next_library st) entryPoint; EvFactory entryPoint]);
        auto.
    - intros E.
      apply (none_dropped_init_throws (trace st)
               [EvLoad (next_library st) entryPoint; EvFactory entryPoint]);
        auto. }
  destruct (service_init env (next_service st) name view residual)
    as [|[[reason|n p]|]] eqn:Einit;
    try (apply Hthrows; discriminate).
  cbn [snd].
  split; cbn [trace _services next_service add_events new_library
              new_service set_services]; rewrite <- !app_assoc.
  - apply (lifecycle_init_returns (trace st)
             [EvLoad (next_library st) entryPoint; EvFactory entryPoint]);
      auto.
  - intros E.
    apply (none_dropped_init_returns (trace st)
             [EvLoad (next_library st) entryPoint; EvFactory entryPoint]);
      auto.
Qed.

Lemma stop_keeps (c : bool) (service_name : name_ref) :
  preserves (lifecycle_inv env c) (stop env service_name).
Proof.
  intros st [HL HN]. rewrite stop_eq.
  destruct (find (name_of_ref service_name) (_services st)) as [info|] eqn:Hf;
    [|split; assumption].
  rewrite stop_service_eq. cbv zeta.
  assert (H : lifecycle_inv env c
                (add_events [EvStop (service info)]
                            (set_services
                               (erase (name_of_ref service_name)
                                      (_services st)) st))).
  { split; cbn [trace _services next_service add_events set_services].
    - apply lifecycle_stop; assumption.
    - intros E. apply none_dropped_stop; auto. }
  destruct (service_stop env (service info)) as [|[ex|]];
    try destruct service_name; exact H.
Qed.

(** *** How the invariant goes through the monad *)

Section Preserved.

Variable P : State -> Prop.

Lemma preserves_bind {A B : Type} (m : M Properties A)
      (k : A -> M Properties B) :
  preserves P m -> (forall a, preserves P (k a)) -> preserves P (bind m k).
Proof.
  intros Hm Hk st HP. unfold bind. specialize (Hm st HP).
  destruct (m st) as [[a|t| | |] st1]; cbn [snd] in *; try exact Hm.
  exact (Hk a st1 Hm).
Qed.

Lemma preserves_try_catch {A : Type} (body : M Properties A)
      (handlers : thrown -> option (M Properties A)) :
  preserves P body ->
  (forall t h, handlers t = Some h -> preserves P h) ->
  preserves P (try_catch body handlers).
Proof.
  intros Hb Hh st HP. unfold try_catch. specialize (Hb st HP).
  destruct (body st) as [[a|t| | |] st1]; cbn [snd] in *; try exact Hb.
  destruct (handlers t) as [h|] eqn:E; [|exact Hb].
  exact (Hh t h E st1 Hb).
Qed.

Lemma preserves_same {A : Type} (m : M Properties A) :
  (forall st, snd (m st) = st) -> preserves P m.
Proof. intros H st HP. rewrite H. exact HP. Qed.

Lemma preserves_ret {A : Type} (a : A) : preserves P (@ret Properties A a).
Proof. apply preserves_same. reflexivity. Qed.

Lemma preserves_get {A : Type} (f : State -> A) : preserves P (get f).
Proof. apply preserves_same. reflexivity. Qed.

Lemma preserves_call (o : outcome) :
  preserves P (call (Properties := Properties) o).
Proof. apply preserves_same. intros st. destruct o; reflexivity. Qed.

Lemma preserves_get_bind {A B : Type} (f : State -> A)
      (k : A -> M Properties B) :
  (forall st, P st -> P (snd (k (f st) st))) -> preserves P (bind (get f) k).
Proof. intros H st HP. exact (H st HP). Qed.

End Preserved.

Lemma with_Error_keeps {A : Type} (c : bool) (message : string)
      (body : M Properties A) :
  preserves (lifecycle_inv env c) body ->
  preserves (lifecycle_inv env c) (with_Error message body).
Proof.
  intros Hb st H. unfold with_Error. specialize (Hb st H).
  destruct (body st) as [[a|t| | |] st1]; cbn [snd] in *; try exact Hb;
    unfold add_event; apply inv_events; auto; intros h [].
Qed.

Lemma emit_keeps (c : bool) (ev : event) :
  stopped [ev] = [] -> initialized [ev] = [] -> started [ev] = [] ->
  preserves (lifecycle_inv env c) (emit ev).
Proof.
  intros Hp Hi Hs st H. unfold emit, modify, add_event. cbn [snd].
  apply inv_events; auto. rewrite Hs. intros h [].
Qed.

Lemma stopAll_loop_keeps (c : bool) (fuel : nat) :
  forall r, preserves (lifecycle_inv env c) (stopAll_loop env fuel r).
Proof.
  induction fuel as [|fuel IH]; intros [k|]; cbn [stopAll_loop];
    try apply preserves_ret; try (apply preserves_same; reflexivity).
  apply preserves_bind; [apply preserves_get|]. intros services.
  apply preserves_bind; [|intros _; apply IH].
  apply preserves_try_catch; [apply stop_keeps|].
  intros t h Ht. destruct t as [[reason|n p]|]; inversion Ht; subst.
  apply with_Error_keeps. apply preserves_ret.
Qed.

Lemma stopAll_keeps (c : bool) : preserves (lifecycle_inv env c) (stopAll env).
Proof.
  unfold stopAll.
  apply preserves_bind; [apply preserves_get|]. intros services.
  apply preserves_bind; [apply stopAll_loop_keeps|]. intros _.
  apply preserves_bind; [apply preserves_get|]. intros services'.
  apply preserves_same. intros st. destruct (empty services'); reflexivity.
Qed.

Lemma init_services_of (name entryPoint : string) (args : StringSeq)
      (st st1 : State) (h : nat) :
  init env name entryPoint args st = (Normal h, st1) ->
  exists info, _services st1 = assign name info (_services st).
Proof.
  rewrite init_eq.
  destruct (spec_compose env (_options st) (_argv st) name args)
    as [view residual].
  cbv zeta.
  destruct (loadEntryPoint env entryPoint); [|discriminate].
  destruct (factory env entryPoint (next_service st)) as [|[ex|]];
    try discriminate.
  destruct (service_init env (next_service st) name view residual)
    as [|[[reason|n p]|]]; try discriminate.
  intros H. inversion H; subst. eexists. reflexivity.
Qed.

(** The loop of [run] over the services found keeps the invariant; it
    drops no service when the names are different from each other and
    new to the Registry. *)
Lemma init_services_keeps (c : bool) (dict : map string) :
  forall st : State,
    (c = true ->
     NoDup (List.map (fun e => name_of (fst e)) dict) /\
     Forall (fun e => find (name_of (fst e)) (_services st) = None) dict) ->
    lifecycle_inv env c st ->
    lifecycle_inv env c (snd (init_services env dict st)).
Proof.
  induction dict as [|[key value] dict IH]; intros st Hc Hinv; [exact Hinv|].
  cbn [init_services]. cbv zeta. fold (name_of key).
  destruct (Descriptor.parse_value value) as [[entryPoint args]|];
    [|exact Hinv].
  unfold bind.
  assert (H1 : lifecycle_inv env c
                 (snd (init env (name_of key) entryPoint args st))).
  { apply init_keeps; [|exact Hinv]. intros E.
    destruct (Hc E) as [_ Hall]. inversion Hall; subst. assumption. }
  destruct (init env (name_of key) entryPoint args st)
    as [[h|t| | |] st1] eqn:E; cbn [snd] in H1; try exact H1.
  apply IH; [|exact H1]. intros Ec.
  destruct (Hc Ec) as [Hnd Hall].
  cbn [List.map fst] in Hnd. inversion Hnd as [|? ? Hnotin Hnd']; subst.
  inversion Hall as [|? ? _ Hall']; subst.
  split; [exact Hnd'|].
  destruct (init_services_of _ _ _ _ _ _ E) as [info ->].
  apply Forall_forall. intros e He.
  rewrite Forall_forall in Hall'. rewrite find_assign_other.
  - apply Hall'. exact He.
  - intros Heq. apply Hnotin. rewrite <- Heq.
    apply in_map_iff. exists e. auto.
Qed.

Lemma start_services_keeps (c : bool) (st : State) :
  lifecycle_inv env c st ->
  lifecycle_inv env c (snd (start_services env (_services st) st)).
Proof.
  intros H.
  destruct (start_services_prefix env (_services st) st) as (j & _ & -> & _).
  apply inv_events.
  - apply stopped_EvStart.
  - apply initialized_EvStart.
  - rewrite started_EvStart. intros h Hh.
    rewrite <- (firstn_skipn j (handles (_services st))).
    apply in_or_app. left. exact Hh.
  - exact H.
Qed.

Lemma serve_keeps (c : bool) : preserves (lifecycle_inv env c) (serve env).
Proof.
  unfold serve. cbv zeta.
  apply preserves_bind.
  { destruct (negb _); [apply emit_keeps; reflexivity|apply preserves_ret]. }
  intros _. apply preserves_bind; [apply emit_keeps; reflexivity|].
  intros _. apply preserves_bind; [apply preserves_call|].
  intros _. apply preserves_bind; [apply emit_keeps; reflexivity|].
  intros _. apply preserves_bind; [apply preserves_call|].
  intros _. apply stopAll_keeps.
Qed.

Lemma run_handlers_keep (c : bool) (t : thrown) (h : M Properties Z) :
  run_handlers env t = Some h -> preserves (lifecycle_inv env c) h.
Proof.
  intros Ht. destruct t as [[reason|n p]|]; inversion Ht; subst;
    apply with_Error_keeps;
    (apply preserves_bind; [apply stopAll_keeps|]); intros _;
    apply preserves_ret.
Qed.

Lemma run_try_keeps (c : bool) (st : State) :
  (c = true ->
   Forall (fun e => find (name_of (fst e)) (_services st) = None)
          (getPropertiesForPrefix env prefix)) ->
  lifecycle_inv env c st ->
  lifecycle_inv env c (snd (run_try env st)).
Proof.
  intros Hc Hinv. unfold run_try.
  unfold bind at 1.
  destruct (createObjectAdapterFromProperty env) as [|t];
    cbn [call ret throw]; [|exact Hinv].
  unfold bind at 1.
  destruct (adapter_add env) as [|t]; cbn [call ret throw]; [|exact Hinv].
  unfold bind at 1.
  assert (H1 : lifecycle_inv env c
                 (snd (init_services env (getPropertiesForPrefix env prefix)
                                     st))).
  { apply init_services_keeps; [|exact Hinv]. intros E.
    split; [|exact (Hc E)].
    rewrite <- (keys_records 0 0).
    apply sorted_NoDup_keys. apply records_sorted.
    - apply getPropertiesForPrefix_keys.
    - apply getPropertiesForPrefix_sorted. }
  destruct (init_services env (getPropertiesForPrefix env prefix) st)
    as [[[]|t| | |] st1]; cbn [snd] in H1; try exact H1.
  unfold bind at 1. unfold get at 1. cbv beta iota.
  unfold bind at 1.
  pose proof (start_services_keeps c st1 H1) as H2.
  destruct (start_services env (_services st1) st1) as [[[]|t| | |] st2];
    cbn [snd] in H2; try exact H2.
  exact (serve_keeps c st2 H2).
Qed.

Lemma run_keeps (c : bool) (st : State) :
  (c = true ->
   Forall (fun e => find (name_of (fst e)) (_services st) = None)
          (getPropertiesForPrefix env prefix)) ->
  lifecycle_inv env c st ->
  lifecycle_inv env c (snd (run env st)).
Proof.
  intros Hc Hinv. unfold run, try_catch, bind at 1.
  pose proof (run_try_keeps c st Hc Hinv) as H1.
  destruct (run_try env st) as [[[]|t| | |] st1]; cbn [snd] in H1;
    try exact H1.
  destruct (run_handlers env t) as [h|] eqn:E; [|exact H1].
  exact (run_handlers_keep c t h E st1 H1).
Qed.

(** X20: the invariant of the manager is kept by each of its
    operations, however the operation ends. In a state where no service
    has been stopped twice, the Registry holds a service once and none
    that has been stopped, and the services held, stopped or started are
    services whose [init] has returned, the same holds after [init],
    after [stop], given the name in a string of the caller's or as the
    key of the entry, after [stopAll] and after [run]. *)
Theorem X20_operations_keep_the_invariant (st : State)
        (service_name : name_ref) (entryPoint : string) (args : StringSeq) :
  lifecycle_inv env false st ->
  lifecycle_inv env false
    (snd (init env (name_of_ref service_name) entryPoint args st)) /\
  lifecycle_inv env false (snd (stop env service_name st)) /\
  lifecycle_inv env false (snd (stopAll env st)) /\
  lifecycle_inv env false (snd (run env st)).
Proof.
  intros H. split; [|split; [|split]].
  - apply init_keeps; [discriminate|exact H].
  - apply stop_keeps; exact H.
  - apply stopAll_keeps; exact H.
  - apply run_keeps; [discriminate|exact H].
Qed.

(** X21: in every run of [run] on a new manager, whatever the
    collaborators do and however the run ends, no service is stopped
    twice, and [start] and [stop] are only called on services whose
    [init] has been called and has returned. *)
Theorem X21_start_and_stop_after_init (argv : list string) :
  let tr := trace (snd (run env (ServiceManagerI_new env argv))) in
  NoDup (stopped tr) /\
  (forall h, In h (started tr) -> init_returned env tr h) /\
  (forall h, In h (stopped tr) -> init_returned env tr h).
Proof.
  cbv zeta.
  destruct (run_keeps false (ServiceManagerI_new env argv))
    as [(H1 & _ & _ & H4 & _) _];
    [discriminate|apply inv_new|].
  repeat split; [exact H1| |]; intros h Hh; apply H4; tauto.
Qed.

(** X22: when [run] on a new manager returns, every service whose [init]
    has returned has been stopped, and stopped once. *)
Theorem X22_every_service_is_stopped (argv : list string) (code : Z)
        (st' : State) :
  run env (ServiceManagerI_new env argv) = (Normal code, st') ->
  forall h, init_returned env (trace st') h ->
            count_occ Nat.eq_dec (stopped (trace st')) h = 1.
Proof.
  intros Hrun h Hh.
  assert (Hinv : lifecycle_inv env true st').
  { change st' with (snd (Normal code, st')). rewrite <- Hrun.
    apply run_keeps; [|apply inv_new].
    intros _. apply Forall_forall. intros e _. reflexivity. }
  destruct Hinv as [(H1 & _) HN].
  assert (Hempty : _services st' = []).
  { exact (proj1 (RunMore.run_returns_in env _ _ _ Hrun)). }
  specialize (HN eq_refl h Hh). rewrite Hempty in HN.
  destruct HN as [[]|Hin].
  exact (proj1 (NoDup_count_occ' Nat.eq_dec _) H1 h Hin).
Qed.

End Facts.

(** *** The theorems at work on concrete environments *)

Import Scenario ScenarioMore.

Lemma X20_invariant_witness :
  let env := first_stop_fails in
  let st := snd (init env "Middle" "libM:create" []
                      (snd (init env "First" "libF:create" []
                                 (ServiceManagerI_new env argv0)))) in
  handles (_services st) = [0; 1] /\
  lifecycle_inv env false (snd (init env "First" "libF2:create" [] st)) /\
  lifecycle_inv env false (snd (stop env (Caller "First") st)) /\
  lifecycle_inv env false (snd (stopAll env st)) /\
  lifecycle_inv env false (snd (run env st)).
Proof.
  cbv zeta. split; [reflexivity|].
  apply (X20_operations_keep_the_invariant first_stop_fails _
           (Caller "First")).
  apply init_keeps; [discriminate|].
  apply init_keeps; [discriminate|].
  apply inv_new.
Defined.

Lemma X22_every_service_witness :
  let r := run all_well (ServiceManagerI_new all_well argv0) in
  fst r = Normal EXIT_SUCCESS /\
  count_occ Nat.eq_dec (stopped (trace (snd r))) 1 = 1.
Proof.
  cbv zeta. split; [reflexivity|].
  apply (X22_every_service_is_stopped all_well argv0 EXIT_SUCCESS
           (snd (run all_well (ServiceManagerI_new all_well argv0)))).
  - vm_compute. reflexivity.
  - exists "Middle", [], []. split; [|reflexivity].
    vm_compute. tauto.
Defined.

End InvariantMore.
